(** * runner.ext.namelist: the namelist parameter format

    A shallow embedding of [src/runner/ext/namelist.py] and the properties
    of its parser, formatter and file-level helpers, followed by the two
    methods of [ModelInterface] in [src/runner/model.py] that pass the
    run directory and the parameter file to a model.

    Conventions of the embedding:
    - a Python [str] is a list of characters ([str := list ascii]); the
      characters are the code points below 256;
    - a Python [int] is a [Z], and the bound some Python versions put on
      the number of digits of an integer text is not modelled;
    - a Python [float] is a binary64 datum ([pyfloat]): [float()] rounds
      the decimal number of a text to the nearest datum, a tie to the
      even one, and [repr] prints the shortest decimal text that
      [float()] reads back as the datum;
    - [int()] and [float()] skip their own white space ([is_num_space]),
      which is not all of the white space of [str.strip];
    - the separator of [Namelist] is one character;
    - a raised exception is the [Err] case of [result], tagged with the
      place that raises it;
    - an ordered dictionary is an association list with unique keys kept
      in insertion order ([odict]); a Python [set] of keys is a [gset];
    - files are a finite map from paths to contents. *)

From Stdlib Require Import List Ascii String ZArith NArith Lia Bool.
From stdpp Require Import gmap.
Import ListNotations.

Local Open Scope char_scope.
Local Open Scope list_scope.

Arguments Ascii.eqb !a !b : simpl nomatch.

(** ** Python strings *)

Module PyStr.

Abbreviation str := (list ascii).

(** A string literal as a [str]. *)
Definition lit (s : string) : str := list_ascii_of_string s.

Definition code (c : ascii) : N := N_of_ascii c.

(** [str.isspace] on one character: the white space of [str.strip] and
    [str.split()]. *)
Definition is_space (c : ascii) : bool :=
  let n := code c in
  ((9 <=? n) && (n <=? 13) || (28 <=? n) && (n <=? 32)
   || (n =? 133) || (n =? 160))%N.

Definition is_digit (c : ascii) : bool :=
  let n := code c in ((48 <=? n) && (n <=? 57))%N.

Fixpoint drop_while (p : ascii -> bool) (s : str) : str :=
  match s with
  | [] => []
  | c :: t => if p c then drop_while p t else s
  end.

Fixpoint take_while (p : ascii -> bool) (s : str) : str :=
  match s with
  | [] => []
  | c :: t => if p c then c :: take_while p t else []
  end.

Definition lstrip (s : str) : str := drop_while is_space s.
Definition rstrip (s : str) : str := rev (drop_while is_space (rev s)).
(** [s.strip()] *)
Definition strip (s : str) : str := rstrip (lstrip s).

(** [c in s] for a one-character [c]. *)
Definition contains (c : ascii) (s : str) : bool := existsb (Ascii.eqb c) s.

(** [s.count(c)] for a one-character [c]. *)
Definition count (c : ascii) (s : str) : nat :=
  List.length (List.filter (Ascii.eqb c) s).

(** [s[:s.index(c)]]: the text before the first [c] (all of [s] when
    there is none). *)
Definition before (c : ascii) (s : str) : str :=
  take_while (fun x => negb (Ascii.eqb c x)) s.

(** [s[s.index(c)+1:]]: the text after the first [c]. *)
Definition after (c : ascii) (s : str) : str :=
  tl (drop_while (fun x => negb (Ascii.eqb c x)) s).

(** [s.split(c)] for a one-character separator [c]: never empty. *)
Fixpoint split (c : ascii) (s : str) : list str :=
  match s with
  | [] => [[]]
  | x :: t =>
      if Ascii.eqb c x then [] :: split c t
      else match split c t with
           | [] => [[x]]
           | w :: ws => (x :: w) :: ws
           end
  end.

(** [s.split()]: the maximal runs of characters that are not white
    space. *)
Fixpoint split_ws_aux (cur : str) (s : str) : list str :=
  match s with
  | [] => match cur with [] => [] | _ => [rev cur] end
  | x :: t =>
      if is_space x
      then match cur with
           | [] => split_ws_aux [] t
           | _ => rev cur :: split_ws_aux [] t
           end
      else split_ws_aux (x :: cur) t
  end.

Definition split_ws (s : str) : list str := split_ws_aux [] s.

(** [sep.join(l)] *)
Fixpoint join (sep : str) (l : list str) : str :=
  match l with
  | [] => []
  | [x] => x
  | x :: t => x ++ sep ++ join sep t
  end.

(** [s.startswith(c)], [s.endswith(c)] for a one-character [c]. *)
Definition startswith (c : ascii) (s : str) : bool :=
  match s with
  | x :: _ => Ascii.eqb c x
  | [] => false
  end.

Definition endswith (c : ascii) (s : str) : bool := startswith c (rev s).

(** [s[1:-1]] and [s[:-1]] *)
Definition but_last (s : str) : str := removelast s.
Definition inner (s : str) : str := removelast (tl s).

(** [s.lower()] on code points below 256. *)
Definition lower_char (c : ascii) : ascii :=
  let n := code c in
  if ((65 <=? n) && (n <=? 90)
      || (192 <=? n) && (n <=? 222) && negb (n =? 215))%N
  then ascii_of_N (n + 32) else c.

Definition lower (s : str) : str := map lower_char s.

Fixpoint eqb (a b : str) : bool :=
  match a, b with
  | [], [] => true
  | x :: a', y :: b' => Ascii.eqb x y && eqb a' b'
  | _, _ => false
  end.

(** ["{:n}".format(s)]: left-justified in a field of width [n]. *)
Definition ljust (n : nat) (s : str) : str :=
  s ++ repeat " " (n - List.length s).

End PyStr.
Export PyStr.

Arguments lit s%_string.

(** ** Exceptions and results *)

(** The exceptions the module can raise, by the place that raises them. *)
Inductive exn : Type :=
| UnpackError (expected got : nat)
    (** [ValueError] of a tuple unpacking [a, b = ...] *)
| IntError (s : str)
    (** [ValueError] of [int(s)] outside a [try] *)
| ParseValueError (s : str)
    (** [raise ValueError(variable_value)] in [_parse_value] *)
| IndexError
    (** [joined_lines[-1]] on an empty list *)
| GroupNotDefined
    (** [raise ValueError("Group not defined. Cannot write to namelist.")] *)
| FileNotFound (path : str)
    (** [open(path)] on a path that does not exist *)
| MissingParameters (keys : gset str) (files : list str)
    (** [raise Exception(error_msg)] in [param_check_all] *)
| OutOfFuel.
    (** not a Python exception: the recursion bound of the embedding *)

Inductive result (A : Type) : Type :=
| Ok (a : A)
| Err (e : exn).
Arguments Ok {A} a.
Arguments Err {A} e.

Definition bind {A B} (r : result A) (k : A -> result B) : result B :=
  match r with
  | Ok a => k a
  | Err e => Err e
  end.

Notation "'let*' x ':=' r 'in' k" := (bind r (fun x => k))
  (at level 10, x pattern, r at level 100, k at level 200).

Definition is_ok {A} (r : result A) : bool :=
  match r with Ok _ => true | Err _ => false end.

(** ** Python numbers *)

Module PyNum.

Definition digit_val (c : ascii) : N := (code c - 48)%N.
Definition digit_char (d : N) : ascii := ascii_of_N (48 + d).

(** The value of a string of decimal digits. *)
Definition digits_value (ds : str) : N :=
  fold_left (fun a c => (10 * a + digit_val c)%N) ds 0%N.

(** [digitpart ::= digit (["_"] digit)*]: the digits of [s] with the
    single underscores between them removed, or [None]. *)
Fixpoint digitpart_aux (prev_digit : bool) (s : str) : option str :=
  match s with
  | [] => if prev_digit then Some [] else None
  | c :: t =>
      if is_digit c then option_map (cons c) (digitpart_aux true t)
      else if Ascii.eqb c "_" && prev_digit then digitpart_aux false t
      else None
  end.

Definition digitpart (s : str) : option str := digitpart_aux false s.

(** An optional sign in front of the rest. *)
Definition split_sign (s : str) : bool * str :=
  match s with
  | "+" :: r => (false, r)
  | "-" :: r => (true, r)
  | _ => (false, s)
  end.

(** The white space that [int()] and [float()] skip at both ends of a
    text: the conversion replaces the white space above U+007F by a
    blank, and the number parser skips the white space of C, tab to
    carriage return and the blank. The separators U+001C to U+001F,
    which [str.strip] removes, are not skipped. *)
Definition is_num_space (c : ascii) : bool :=
  let n := code c in
  ((9 <=? n) && (n <=? 13) || (n =? 32) || (n =? 133) || (n =? 160))%N.

Definition num_strip (s : str) : str :=
  rev (drop_while is_num_space (rev (drop_while is_num_space s))).

(** [int(s)] in base ten: [None] is [ValueError]. *)
Definition py_int (s : str) : option Z :=
  let (neg, body) := split_sign (num_strip s) in
  match digitpart body with
  | Some ds =>
      let n := Z.of_N (digits_value ds) in
      Some (if neg then (- n)%Z else n)
  | None => None
  end.

(** [repr(n)] for a natural number: its decimal digits. *)
Fixpoint repr_N_fuel (fuel : nat) (n : N) (acc : str) : str :=
  match fuel with
  | O => acc
  | S f =>
      let acc' := digit_char (n mod 10) :: acc in
      if (n <? 10)%N then acc' else repr_N_fuel f (n / 10) acc'
  end.

Definition repr_N (n : N) : str :=
  repr_N_fuel (S (N.to_nat (N.log2 n))) n [].

(** [repr(z)] for an [int]. *)
Definition repr_int (z : Z) : str :=
  if (z <? 0)%Z then "-" :: repr_N (Z.abs_N z) else repr_N (Z.abs_N z).

(** A Python [float] is an IEEE 754 binary64 datum: [FFin neg m e] is
    [(-1)^neg * m * 2^e]. *)
Inductive pyfloat : Type :=
| FNan
| FInf (neg : bool)
| FFin (neg : bool) (m : N) (e : Z).

(** The data of binary64: zero, the normal numbers (53 significant
    bits) and the subnormal numbers (exponent -1074). *)
Definition is_binary64 (x : pyfloat) : bool :=
  match x with
  | FFin _ m e =>
      ((m =? 0)%N && (e =? 0)%Z)
      || ((2 ^ 52 <=? m)%N && (m <? 2 ^ 53)%N
          && (-1074 <=? e)%Z && (e <=? 971)%Z)
      || ((0 <? m)%N && (m <? 2 ^ 52)%N && (e =? -1074)%Z)
  | _ => true
  end.

(** The same datum. *)
Definition float_eqb (x y : pyfloat) : bool :=
  match x, y with
  | FNan, FNan => true
  | FInf a, FInf b => Bool.eqb a b
  | FFin a m e, FFin b m' e' => Bool.eqb a b && (m =? m')%N && (e =? e')%Z
  | _, _ => false
  end.

(** [x == y] on floats: a nan is equal to nothing, itself included, and
    the zeros of both signs are equal. *)
Definition float_eq (x y : pyfloat) : bool :=
  match x, y with
  | FNan, _ | _, FNan => false
  | FFin _ 0 _, FFin _ 0 _ => true
  | _, _ => float_eqb x y
  end.

(** [floor (log2 (n / d))] for positive [n] and [d]. *)
Definition log2_ratio (n d : Z) : Z :=
  if (d <=? n)%Z then Z.log2 (n / d)
  else (- Z.log2_up (- ((- d) / n)))%Z.

(** [a / b] rounded to the nearest integer, a tie to the even one. *)
Definition round_half_even (a b : Z) : Z :=
  let q := (a / b)%Z in
  let r := (a mod b)%Z in
  if (2 * r <? b)%Z then q
  else if (b <? 2 * r)%Z then (q + 1)%Z
  else if Z.even q then q else (q + 1)%Z.

(** The binary64 nearest to [n / d] for [n >= 0] and [d > 0], a tie to
    the even significand: the exponent is the one that leaves 53 bits,
    or -1074 for a subnormal result; what does not fit is infinite. *)
Definition round_ratio (neg : bool) (n d : Z) : pyfloat :=
  if (n =? 0)%Z then FFin neg 0 0
  else
    let e := Z.max (log2_ratio n d - 52) (-1074) in
    let q := if (e <? 0)%Z then round_half_even (n * 2 ^ (- e)) d
             else round_half_even n (d * 2 ^ e) in
    if (q =? 0)%Z then FFin neg 0 0
    else if (q =? 2 ^ 53)%Z
    then (if (971 <? e + 1)%Z then FInf neg else FFin neg (2 ^ 52) (e + 1))
    else if (971 <? e)%Z then FInf neg else FFin neg (Z.to_N q) e.

(** The binary64 nearest to [m * 10^e]. *)
Definition round_decimal (neg : bool) (m e : Z) : pyfloat :=
  if (0 <=? e)%Z then round_ratio neg (m * 10 ^ e) 1
  else round_ratio neg m (10 ^ (- e)).

(** The float of the decimal digits [ds] scaled by [10^e]. *)
Definition mk_float (neg : bool) (ds : str) (e : Z) : pyfloat :=
  round_decimal neg (Z.of_N (digits_value ds)) e.

Definition is_e (c : ascii) : bool := Ascii.eqb c "e" || Ascii.eqb c "E".

(** [exponent ::= ("e" | "E") [sign] digitpart], without the letter. *)
Definition exponent (s : str) : option Z :=
  let (neg, body) := split_sign s in
  match digitpart body with
  | Some ds =>
      let n := Z.of_N (digits_value ds) in
      Some (if neg then (- n)%Z else n)
  | None => None
  end.

(** [number ::= [digitpart] "." digitpart | digitpart ["."]]: the
    digits and the number of them after the point. *)
Definition number (s : str) : option (str * nat) :=
  if contains "." s then
    let ip := before "." s in
    let fp := after "." s in
    match ip, fp with
    | [], [] => None
    | [], _ => option_map (fun f => (f, List.length f)) (digitpart fp)
    | _, [] => option_map (fun i => (i, O)) (digitpart ip)
    | _, _ =>
        match digitpart ip, digitpart fp with
        | Some i, Some f => Some (i ++ f, List.length f)
        | _, _ => None
        end
    end
  else option_map (fun i => (i, O)) (digitpart s).

(** [float(s)]: [None] is [ValueError]. *)
Definition py_float (s : str) : option pyfloat :=
  let (neg, body) := split_sign (num_strip s) in
  let lb := lower body in
  if PyStr.eqb lb (lit "inf") || PyStr.eqb lb (lit "infinity")
  then Some (FInf neg)
  else if PyStr.eqb lb (lit "nan") then Some FNan
  else
    let mant := take_while (fun c => negb (is_e c)) body in
    let rest := drop_while (fun c => negb (is_e c)) body in
    match number mant with
    | None => None
    | Some (ds, nfrac) =>
        match rest with
        | [] => Some (mk_float neg ds (- Z.of_nat nfrac))
        | _ :: ex =>
            match exponent ex with
            | Some e => Some (mk_float neg ds (e - Z.of_nat nfrac))
            | None => None
            end
        end
    end.

(** The shortest decimal of a float. [n / d] is the positive float,
    [t] the weight of the last digit: the candidates with last digit at
    [10^t] are the two multiples of [10^t] around the float. *)
Definition floor_at (n d t : Z) : Z :=
  if (0 <=? t)%Z then (n / (d * 10 ^ t))%Z else (n * 10 ^ (- t) / d)%Z.

(** The lower candidate is at least as near as the upper one. *)
Definition lower_nearer (n d t : Z) : bool :=
  if (0 <=? t)%Z then (2 * (n mod (d * 10 ^ t)) <=? d * 10 ^ t)%Z
  else (2 * ((n * 10 ^ (- t)) mod d) <=? d)%Z.

(** From the weight [t] downwards: the first weight at which a
    candidate is read back by [float()] as [x], and there the nearer of
    the candidates that are. At the weight [bottom] the float itself is
    a multiple of [10^bottom]. *)
Fixpoint shortest_from (fuel : nat) (neg : bool) (x : pyfloat)
  (n d bottom t : Z) : Z * Z :=
  match fuel with
  | O => (floor_at n d bottom, bottom)
  | S f =>
      let lo := floor_at n d t in
      let ok_lo := float_eqb (round_decimal neg lo t) x in
      let ok_hi := float_eqb (round_decimal neg (lo + 1) t) x in
      if ok_lo && ok_hi
      then ((if lower_nearer n d t then lo else lo + 1)%Z, t)
      else if ok_lo then (lo, t)
      else if ok_hi then ((lo + 1)%Z, t)
      else shortest_from f neg x n d bottom (t - 1)
  end.

(** The digits [c] and the exponent [t] of the shortest decimal
    [c * 10^t] that [float()] reads back as [(-1)^neg * m * 2^e], the
    nearest one if there are two: what [repr] prints. The search starts
    at a power of ten above the float, found from the numbers of bits
    ([30103 / 100000] is just above the logarithm of 2 to base ten),
    and ends where the float is a multiple of [10^t]. *)
Definition shortest_decimal (neg : bool) (m : N) (e : Z) : Z * Z :=
  if (m =? 0)%N then (0%Z, 0%Z)
  else
    let n := if (0 <=? e)%Z then (Z.of_N m * 2 ^ e)%Z else Z.of_N m in
    let d := if (0 <=? e)%Z then 1%Z else (2 ^ (- e))%Z in
    let top := ((Z.log2 n - Z.log2 d + 1) * 30103 / 100000 + 2)%Z in
    let bottom := Z.min e 0 in
    shortest_from (Z.to_nat (top - bottom)) neg (FFin neg m e) n d bottom top.

(** The exponent of the exponent notation: a sign and at least two
    digits. *)
Definition repr_exp (e : Z) : str :=
  let a := repr_N (Z.abs_N e) in
  (if (e <? 0)%Z then "-" else "+")
    :: (if (List.length a <? 2)%nat then "0" :: a else a).

(** The text of the decimal [m * 10^e] in the format of [repr]:
    positional notation when the decimal point falls within
    [-4 < decpt <= 16], exponent notation otherwise. *)
Definition format_decimal (neg : bool) (m : N) (e : Z) : str :=
  let ds := repr_N m in
  let nd := Z.of_nat (List.length ds) in
  let decpt := (nd + e)%Z in
  let body :=
    if ((decpt <=? -4) || (16 <? decpt))%Z then
      match ds with
      | [] => []
      | d :: [] => d :: "e" :: repr_exp (decpt - 1)
      | d :: more => d :: "." :: more ++ "e" :: repr_exp (decpt - 1)
      end
    else if (decpt <=? 0)%Z then
      lit "0." ++ repeat "0" (Z.to_nat (- decpt)) ++ ds
    else if (nd <=? decpt)%Z then
      ds ++ repeat "0" (Z.to_nat (decpt - nd)) ++ lit ".0"
    else
      firstn (Z.to_nat decpt) ds ++ "." :: skipn (Z.to_nat decpt) ds
  in
  if neg then "-" :: body else body.

(** [repr(x)] for a [float]: the shortest decimal that reads back as
    [x]. *)
Definition repr_float (x : pyfloat) : str :=
  match x with
  | FNan => lit "nan"
  | FInf neg => if neg then lit "-inf" else lit "inf"
  | FFin neg m e =>
      let (c, t) := shortest_decimal neg m e in
      format_decimal neg (Z.to_N c) t
  end.

End PyNum.
Export PyNum.

(** ** Values and parameter records *)

(** The values a parameter can hold: [int], [float], [bool], [str] and
    [list]. *)
#[warnings="-register-all"]
Inductive value : Type :=
| VInt (z : Z)
| VFloat (x : pyfloat)
| VBool (b : bool)
| VStr (s : str)
| VList (l : list value).

(** [class ParamNml]: [help] is [None] unless given. *)
Record ParamNml : Type := mkParamNml {
  group : str;
  name : str;
  pvalue : value;
  help : option str
}.

(** The line break and the double quote. *)
Definition NL : ascii := "010".
Definition DQ : ascii := "034".

(** [x in l] for a list of strings. *)
Definition in_list (x : str) (l : list str) : bool := existsb (PyStr.eqb x) l.

(** Running a fallible function over a list, stopping at the first
    exception. *)
Fixpoint mapM {A B} (f : A -> result B) (l : list A) : result (list B) :=
  match l with
  | [] => Ok []
  | a :: t => let* b := f a in let* bs := mapM f t in Ok (b :: bs)
  end.

(** ** The value grammar: [_parse_value] and [_parse_array] *)

Section ValueGrammar.

(** The recursive call of [_parse_value]. *)
Variable rec : str -> result value.

(** One token of [_parse_array]: what it adds to [parsed_value]. *)
Definition parse_token (v : str) : result (list value) :=
  if contains "*" v then
    match split "*" v with
    | [mult; val] =>
        match py_int mult with
        | Some n => let* x := rec (strip val) in Ok (repeat x (Z.to_nat n))
        | None => Err (IntError mult)
        end
    | parts => Err (UnpackError 2 (List.length parts))
    end
  else let* x := rec v in Ok [x].

Fixpoint _parse_array (values : list str) : result (list value) :=
  match values with
  | [] => Ok []
  | v :: rest =>
      let* here := parse_token v in
      let* more := _parse_array rest in
      Ok (here ++ more)
  end.

Definition is_true_word (s : str) : bool :=
  in_list (lower s) [lit ".true."; lit "t"; lit "true"].
Definition is_false_word (s : str) : bool :=
  in_list (lower s) [lit ".false."; lit "f"; lit "false"].

Definition is_quoted (s : str) : bool :=
  startswith "'" s && endswith "'" s && (count "'" s =? 2)%nat
  || startswith DQ s && endswith DQ s && (count DQ s =? 2)%nat.

Definition is_slashed (s : str) : bool := startswith "/" s && endswith "/" s.

(** The body of [_parse_value]; the two [try] blocks are the two outer
    matches. *)
Definition parse_value_body (variable_value : str) : result value :=
  match py_int variable_value with
  | Some z => Ok (VInt z)
  | None =>
      match py_float variable_value with
      | Some x => Ok (VFloat x)
      | None =>
          if is_true_word variable_value then Ok (VBool true)
          else if is_false_word variable_value then Ok (VBool false)
          else if is_quoted variable_value
          then Ok (VStr (inner variable_value))
          else if is_slashed variable_value
          then let* l := _parse_array (split "," (inner variable_value)) in
               Ok (VList l)
          else if contains "," variable_value
          then let* l := _parse_array (split "," variable_value) in
               Ok (VList l)
          else if contains "*" variable_value
          then let* l := _parse_array [variable_value] in Ok (VList l)
          else if (1 <? List.length (split_ws variable_value))%nat
          then let* l := _parse_array (split_ws variable_value) in
               Ok (VList l)
          else Err (ParseValueError variable_value)
      end
  end.

End ValueGrammar.

(** Every recursive call is on a shorter string, so [S (length s)]
    unfoldings are enough (see [_parse_value_unfold] and
    [_parse_value_total]). *)
Fixpoint parse_value_fuel (fuel : nat) (s : str) : result value :=
  match fuel with
  | O => Err OutOfFuel
  | S f => parse_value_body (parse_value_fuel f) s
  end.

Definition _parse_value (variable_value : str) : result value :=
  parse_value_fuel (S (List.length variable_value)) variable_value.

(** ** The line parser *)

Definition _parse_line (line : str) : result (str * value * str) :=
  let '(comment, line) :=
    if contains "!" line
    then (strip (after "!" line), strip (before "!" line))
    else ([], line) in
  let line := if endswith "," line then but_last line else line in
  match split "=" line with
  | [k; v] =>
      let name := strip k in
      let* value := _parse_value (strip v) in
      Ok (name, value, comment)
  | parts => Err (UnpackError 2 (List.length parts))
  end.

(** ** The group extractor: [parse_nml] *)

(** The lines kept by the first loop of [parse_nml]. *)
Definition filter_line (ignore_comments : bool) (line : str) : list str :=
  let line := strip line in
  if PyStr.eqb line [] then []
  else if startswith "!" line then []
  else if ignore_comments && contains "!" line then [before "!" line]
  else [line].

Definition filtered_lines (ignore_comments : bool) (string : str) : list str :=
  flat_map (filter_line ignore_comments) (split NL string).

(** [s.rfind(c)] *)
Fixpoint rfind (c : ascii) (s : str) : option nat :=
  match s with
  | [] => None
  | x :: t =>
      match rfind c t with
      | Some j => Some (S j)
      | None => if Ascii.eqb c x then Some O else None
      end
  end.

(** A match of [([^&]+)/] at the start of [s], the text after an [&]:
    the greedy [[^&]+] takes the whole run of characters other than [&]
    and gives back the shortest suffix that lets [/] match, keeping at
    least one character. The result is the captured group and the text
    after the match. *)
Definition match_group (s : str) : option (str * str) :=
  match take_while (fun c => negb (Ascii.eqb "&" c)) s with
  | [] => None
  | c0 :: run =>
      match rfind "/" run with
      | Some j => Some (c0 :: firstn j run, skipn (S (S j)) s)
      | None => None
      end
  end.

(** [re.findall(group_re, s)] for [group_re = &([^&]+)/] with [DOTALL]:
    the matches from left to right, each search starting where the
    previous match ended. *)
Fixpoint findall_fuel (fuel : nat) (s : str) : list str :=
  match fuel with
  | O => []
  | S f =>
      match s with
      | [] => []
      | c :: t =>
          if Ascii.eqb "&" c then
            match match_group t with
            | Some (g, rest) => g :: findall_fuel f rest
            | None => findall_fuel f t
            end
          else findall_fuel f t
      end
  end.

Definition findall_group_re (s : str) : list str :=
  findall_fuel (List.length s) s.

(** The continuation loop of [parse_nml]: [joined] is [joined_lines]. *)
Fixpoint join_continuations (group_lines : list str) (joined : list str)
  : result (list str) :=
  match group_lines with
  | [] => Ok joined
  | line :: rest =>
      let line := strip line in
      if contains "=" line then join_continuations rest (joined ++ [line])
      else if PyStr.eqb line [] then join_continuations rest joined
      else match joined with
           | [] => Err IndexError
           | _ => join_continuations rest
                    (removelast joined ++ [List.last joined [] ++ line])
           end
  end.

Definition parse_param (group_name : str) (line : str) : result ParamNml :=
  let* (name, value, comment) := _parse_line line in
  Ok (mkParamNml group_name name value (Some comment)).

(** The body of the loop over [group_blocks]. *)
Definition parse_group (group_block : str) : result (list ParamNml) :=
  match split NL group_block with
  | [] => Err IndexError
  | first :: group_lines =>
      let group_name := strip first in
      let group_name :=
        if contains "!" group_name then strip (before "!" group_name)
        else group_name in
      let* group_lines := join_continuations group_lines [] in
      mapM (parse_param group_name) group_lines
  end.

Definition parse_nml_with (ignore_comments : bool) (string : str)
  : result (list ParamNml) :=
  let group_blocks :=
    findall_group_re (join [NL] (filtered_lines ignore_comments string)) in
  let* params := mapM parse_group group_blocks in
  Ok (concat params).

(** [parse_nml(string)] with the default [ignore_comments=False]. *)
Definition parse_nml (string : str) : result (list ParamNml) :=
  parse_nml_with false string.

(** ** Ordered dictionaries *)

(** A [dict] or [OrderedDict] with string keys: the items in insertion
    order, every key once. *)
Definition odict (V : Type) : Type := list (str * V).

Definition keys {V} (d : odict V) : list str := map fst d.

(** [d.get(k)] *)
Fixpoint odict_get {V} (k : str) (d : odict V) : option V :=
  match d with
  | [] => None
  | (k', v') :: t => if PyStr.eqb k k' then Some v' else odict_get k t
  end.

(** [d[k] = v]: a key already there keeps its place. *)
Fixpoint odict_set {V} (k : str) (v : V) (d : odict V) : odict V :=
  match d with
  | [] => [(k, v)]
  | (k', v') :: t =>
      if PyStr.eqb k k' then (k', v) :: t else (k', v') :: odict_set k v t
  end.

(** [odict(items)] *)
Definition odict_of_list {V} (items : list (str * V)) : odict V :=
  fold_left (fun d kv => odict_set (fst kv) (snd kv) d) items [].

(** ** The formatter: [_format_value] and [format_nml] *)

Definition hex_digit (n : N) : ascii :=
  if (n <? 10)%N then ascii_of_N (48 + n) else ascii_of_N (87 + n).

(** One character of [repr(s)] inside the quotes [q]. *)
Definition repr_char (q : ascii) (c : ascii) : str :=
  let n := code c in
  if Ascii.eqb c q || Ascii.eqb c "\" then ["\"; c]
  else if (n =? 9)%N then lit "\t"
  else if (n =? 10)%N then lit "\n"
  else if (n =? 13)%N then lit "\r"
  else if ((n <? 32) || (127 <=? n) && (n <=? 160) || (n =? 173))%N
  then ["\"; "x"; hex_digit (n / 16); hex_digit (n mod 16)]
  else [c].

(** [repr(s)] for a [str]: double quotes when [s] has a single quote and
    no double quote, single quotes otherwise. *)
Definition repr_str (s : str) : str :=
  let q := if contains "'" s && negb (contains DQ s) then DQ else "'" in
  q :: flat_map (repr_char q) s ++ [q].

(** [repr(value)] *)
Fixpoint repr (v : value) : str :=
  match v with
  | VInt z => repr_int z
  | VFloat x => repr_float x
  | VBool b => if b then lit "True" else lit "False"
  | VStr s => repr_str s
  | VList l => "[" :: join (lit ", ") (map repr l) ++ ["]"]
  end.

Definition _format_value (v : value) : str :=
  match v with
  | VBool b => if b then lit ".true." else lit ".false."
  | _ => repr v
  end.

(** [itertools.groupby(l, key)]: the maximal runs of consecutive items
    with equal keys. *)
Fixpoint groupby {A} (key : A -> str) (l : list A) : list (str * list A) :=
  match l with
  | [] => []
  | x :: t =>
      match groupby key t with
      | (k, xs) :: gs =>
          if PyStr.eqb (key x) k then (k, x :: xs) :: gs
          else (key x, [x]) :: (k, xs) :: gs
      | [] => [(key x, [x])]
      end
  end.

(** The line of one parameter. *)
Definition format_param (param : ParamNml) : str :=
  let nmstr := ljust 15 (name param) in
  let line :=
    match pvalue param with
    | VList l =>
        lit " " ++ nmstr ++ lit " = " ++ join (lit " ") (map _format_value l)
    | v => lit " " ++ nmstr ++ lit " = " ++ _format_value v
    end in
  let line := ljust 30 line in
  match help param with
  | Some (c :: h) => line ++ lit " ! " ++ c :: h
  | _ => line
  end.

(** The loop of [format_nml] over the groups; [lines] is what has been
    appended so far. *)
Fixpoint format_groups (groups : list (str * list ParamNml))
  (lines : list str) : result (list str) :=
  match groups with
  | [] => Ok lines
  | (group_name, group_params) :: rest =>
      if PyStr.eqb group_name [] then Err GroupNotDefined
      else format_groups rest
             (lines ++ ["&" :: group_name]
                    ++ map format_param group_params ++ [lit "/"])
  end.

Definition format_nml (params : list ParamNml) : result str :=
  let* lines := format_groups (groupby group params) [] in
  Ok (join [NL] lines ++ [NL]).

(** ** The facade: [class Namelist] *)

(** [Namelist.dumps]; [sep] is [self.sep], a one-character separator. *)
Definition dumps_param (sep : ascii) (item : str * value) : result ParamNml :=
  match split sep (fst item) with
  | [group; name] => Ok (mkParamNml group name (snd item) None)
  | parts => Err (UnpackError 2 (List.length parts))
  end.

Definition dumps (sep : ascii) (params : odict value) : result str :=
  let* pars := mapM (dumps_param sep) params in
  format_nml pars.

Definition flat_key (sep : ascii) (p : ParamNml) : str :=
  group p ++ sep :: name p.

(** [Namelist.loads] *)
Definition loads (sep : ascii) (string : str) : result (odict value) :=
  let* params := parse_nml string in
  Ok (odict_of_list (map (fun p => (flat_key sep p, pvalue p)) params)).

(** ** File-level helpers *)

(** [nml_update_if_exists(par, new)]: only keys already in [par] are
    updated. *)
Definition nml_update_if_exists (par new : odict value) : odict value :=
  fold_left
    (fun par kv =>
       if in_list (fst kv) (keys par) then odict_set (fst kv) (snd kv) par
       else par)
    new par.

(** The new key of one item in [param_map_groups]. *)
Definition map_group_key (grp_aliases : gmap str str) (key : str) : str :=
  if contains "." key then
    let tmp := split "." key in
    let grp := nth 0 tmp [] in
    let par := nth 1 tmp [] in
    let grp_new :=
      match grp_aliases !! grp with
      | Some a => a
      | None => grp
      end in
    grp_new ++ "." :: par
  else key.

(** [param_map_groups(params, grp_aliases)] *)
Definition param_map_groups (params : odict value)
  (grp_aliases : gmap str str) : odict value :=
  fold_left
    (fun params_out kv =>
       odict_set (map_group_key grp_aliases (fst kv)) (snd kv) params_out)
    params [].

(** The files: a finite map from paths to contents. Every path can be
    opened for writing; a path can be opened for reading when it is in
    the map. *)
Abbreviation files := (gmap str str).

(** A computation that reads and writes files and may raise. *)
Definition io (A : Type) : Type := files -> result A * files.

Definition io_ret {A} (a : A) : io A := fun fs => (Ok a, fs).
Definition io_raise {A} (e : exn) : io A := fun fs => (Err e, fs).
Definition io_bind {A B} (m : io A) (k : A -> io B) : io B :=
  fun fs =>
    match m fs with
    | (Ok a, fs') => k a fs'
    | (Err e, fs') => (Err e, fs')
    end.
Definition io_lift {A} (r : result A) : io A := fun fs => (r, fs).

Notation "'do*' x ':=' m 'in' k" := (io_bind m (fun x => k))
  (at level 10, x pattern, m at level 100, k at level 200).

(** [open(path).read()] *)
Definition read_file (path : str) : io str :=
  fun fs =>
    match fs !! path with
    | Some text => (Ok text, fs)
    | None => (Err (FileNotFound path), fs)
    end.

(** [open(path, 'w')]: the file is created or truncated. *)
Definition open_w (path : str) : io unit :=
  fun fs => (Ok tt, <[path := []]> fs).

(** [f.write(text)] on a file just opened for writing. *)
Definition write_file (path : str) (text : str) : io unit :=
  fun fs => (Ok tt, <[path := text]> fs).

(** Modelled from the spec: [FileType.load] of [runner.filetype], which
    is not among the sources; [Namelist().load(open(path))] runs [loads]
    on the text of the file. *)
Definition load (path : str) : io (odict value) :=
  do* text := read_file path in io_lift (loads "." text).

(** Modelled from the spec: [FileType.dump] of [runner.filetype], which
    is not among the sources; [Namelist().dump(params, f)] writes
    [dumps(params)] to the open file. *)
Definition dump (params : odict value) (path : str) : io unit :=
  do* text := io_lift (dumps "." params) in write_file path text.

Fixpoint io_mapM {A B} (f : A -> io B) (l : list A) : io (list B) :=
  match l with
  | [] => io_ret []
  | a :: t => do* b := f a in do* bs := io_mapM f t in io_ret (b :: bs)
  end.

(** [param_check_all(params, par_paths)] *)
Definition param_check_all (params : odict value) (par_paths : list str)
  : io unit :=
  do* params_all := io_mapM load par_paths in
  let all_keys : gset str :=
    list_to_set (concat (map keys params_all)) in
  let missing_keys : gset str := list_to_set (keys params) ∖ all_keys in
  if (0 <? size missing_keys)%nat
  then io_raise (MissingParameters missing_keys par_paths)
  else io_ret tt.

(** [param_write_to_file(params, par_src_path, par_dst_path)] *)
Definition param_write_to_file (params : odict value)
  (par_src_path par_dst_path : str) : io unit :=
  do* params_now := load par_src_path in
  let params_now := nml_update_if_exists params_now params in
  do* _ := open_w par_dst_path in
  dump params_now par_dst_path.

(** [zip(a, b)] *)
Fixpoint zip {A B} (a : list A) (b : list B) : list (A * B) :=
  match a, b with
  | x :: a', y :: b' => (x, y) :: zip a' b'
  | _, _ => []
  end.

(** The first step of [param_write_to_files]: [params_mapped]. The
    default [grp_aliases=None] is [None]. *)
Definition expand_aliases (params : odict value)
  (grp_aliases : option (gmap str str)) : odict value :=
  match grp_aliases with
  | Some al =>
      if (0 <? size al)%nat then param_map_groups params al else params
  | None => params
  end.

(** [param_write_to_files(params, nml_src_paths, nml_dst_paths,
    grp_aliases)] *)
Definition param_write_to_files (params : odict value)
  (nml_src_paths nml_dst_paths : list str)
  (grp_aliases : option (gmap str str)) : io unit :=
  let params_mapped := expand_aliases params grp_aliases in
  do* _ := param_check_all params_mapped nml_src_paths in
  do* _ := io_mapM
             (fun sd => param_write_to_file params_mapped (fst sd) (snd sd))
             (zip nml_src_paths nml_dst_paths) in
  io_ret tt.

(** * runner.model: the model interface *)

(** [os.path.join(a, b)] on a POSIX system: an absolute [b] replaces
    [a]; otherwise [b] is appended to [a], after a [/] unless [a] is
    empty or ends with one. *)
Definition os_path_join (a b : str) : str :=
  if startswith "/" b then b
  else if PyStr.eqb a [] || endswith "/" a then a ++ b
  else a ++ "/" :: b.

(** Modelled from the spec: a file type of [runner.filetype], which is
    not among the sources, is known to the interface by its [dumps];
    [filetype.dump(params, f)] writes [dumps(params)] to the open
    file. *)
Record FileType : Type := mkFileType {
  ft_dumps : odict value -> result str
}.

Definition ft_dump (filetype : FileType) (params : odict value) (path : str)
  : io unit :=
  do* text := io_lift (ft_dumps filetype params) in write_file path text.

(** [Namelist(sep)] as a file type. *)
Definition Namelist (sep : ascii) : FileType := mkFileType (dumps sep).

(** [ModelInterface._command_out(rundir)]; the default
    [arg_out_prefix=None] is [None]. *)
Definition _command_out (arg_out_prefix : option str) (rundir : str)
  : list str :=
  match arg_out_prefix with
  | None => []
  | Some prefix => split_ws (prefix ++ rundir)
  end.

(** [ModelInterface.setup(rundir, params)]; [filename] is [None] or a
    text, and the test [if self.filename] fails for both [None] and the
    empty text. The constructor refuses a file name without a file
    type, so [filetype] is there when the file name is. The file is
    opened for writing before [dump] is called. *)
Definition setup (filetype : FileType) (filename : option str)
  (rundir : str) (params : odict value) : io unit :=
  match filename with
  | Some (c :: f) =>
      let filepath := os_path_join rundir (c :: f) in
      do* _ := open_w filepath in
      ft_dump filetype params filepath
  | _ => io_ret tt
  end.

(** * Definitions used by the properties *)

(** ** Measures for the recursion of the value grammar *)

(** The lengths of the tokens of a list, each counted with one
    separator. *)
Definition weight (l : list str) : nat :=
  list_sum (map (fun t => S (List.length t)) l).

(** A token of [_parse_array] whose recursive calls stay below [n]. *)
Definition small_token (n : nat) (v : str) : Prop :=
  (List.length v < n)%nat \/ (contains "*" v = true /\ List.length v <= n).

(** The recursive call raises no [OutOfFuel] on texts shorter than
    [n]. *)
Definition fuel_free (r : str -> result value) (n : nat) : Prop :=
  forall t, (List.length t < n)%nat -> r t <> Err OutOfFuel.

(** ** The value grammar as an ordered list of matchers *)

Module Precedence.

(** The rules of the value grammar in the words of the specification
    (4.4). A rule that does not apply to a text is [None]; a rule that
    applies has an outcome, a value or an exception. The conditions are
    written here from the specification, not with the tests of
    [_parse_value]; the tokens of an array are parsed by the array
    parser of the code, which is the subject of other properties. *)
Definition rule : Type := str -> option (result value).

(** "the entire trimmed text parses as a base-10 integer literal" *)
Definition match_integer : rule :=
  fun s => option_map (fun z => Ok (VInt z)) (py_int s).

(** "it parses as a decimal or exponential floating literal" *)
Definition match_float : rule :=
  fun s => option_map (fun x => Ok (VFloat x)) (py_float s).

(** "case-insensitive match against" a set of words in lower case *)
Fixpoint same_word (s w : str) : bool :=
  match s, w with
  | [], [] => true
  | c :: s', x :: w' => Ascii.eqb (lower_char c) x && same_word s' w'
  | _, _ => false
  end.

Definition one_of (words : list string) (s : str) : bool :=
  existsb (fun w => same_word s (lit w)) words.

Definition match_boolean : rule :=
  fun s =>
    if one_of [".true."%string; "t"%string; "true"%string] s
    then Some (Ok (VBool true))
    else if one_of [".false."%string; "f"%string; "false"%string] s
    then Some (Ok (VBool false))
    else None.

(** "text that starts and ends with the same quote character, contains
    exactly two occurrences of that quote character total, and after
    stripping the outer quotes is returned as a raw string value" *)
Definition match_quoted : rule :=
  fun s =>
    match s with
    | q :: t =>
        if (Ascii.eqb q "'" || Ascii.eqb q DQ)
           && Ascii.eqb (List.last s " ") q
           && (count q s =? 2)%nat
        then Some (Ok (VStr (removelast t)))
        else None
    | [] => None
    end.

(** The tokens of an array, "each token recursively parsed". *)
Definition array_of (tokens : list str) : result value :=
  let* l := _parse_array _parse_value tokens in Ok (VList l).

(** "text starting and ending with [/]: the interior is comma-split" *)
Definition match_slash_array : rule :=
  fun s =>
    match s with
    | "/" :: t =>
        if Ascii.eqb (List.last s " ") "/"
        then Some (array_of (split "," (removelast t)))
        else None
    | _ => None
    end.

(** "text containing a comma: comma-split" *)
Definition match_comma_array : rule :=
  fun s => if contains "," s then Some (array_of (split "," s)) else None.

(** "any token containing [*] is treated as COUNT*VALUE" *)
Definition match_repeat_array : rule :=
  fun s => if contains "*" s then Some (array_of [s]) else None.

(** "more than one whitespace-separated token: split on whitespace" *)
Definition match_whitespace_array : rule :=
  fun s =>
    match split_ws s with
    | _ :: _ :: _ => Some (array_of (split_ws s))
    | _ => None
    end.

Definition matchers : list rule :=
  [match_integer; match_float; match_boolean; match_quoted;
   match_slash_array; match_comma_array; match_repeat_array;
   match_whitespace_array].

(** "The first success wins": the value of the first rule that gives
    one; no such rule is the value-parse error. *)
Fixpoint first_success (ms : list rule) (s : str) : result value :=
  match ms with
  | [] => Err (ParseValueError s)
  | m :: ms' =>
      match m s with
      | Some (Ok v) => Ok v
      | _ => first_success ms' s
      end
  end.

(** The first rule that applies decides: its outcome, a value or an
    exception, is the outcome; no such rule is the value-parse error. *)
Fixpoint first_applicable (ms : list rule) (s : str) : result value :=
  match ms with
  | [] => Err (ParseValueError s)
  | m :: ms' =>
      match m s with
      | Some r => r
      | None => first_applicable ms' s
      end
  end.

End Precedence.

(** ** The line parser, the formatter and the helpers in the words of
    the specification *)

(** The working line of 4.3: the text before a [!], trimmed, without a
    trailing comma. *)
Definition working_line (line : str) : str :=
  let l := if contains "!" line then strip (before "!" line) else line in
  if endswith "," l then but_last l else l.

(** The comment of 4.3: the text after the first [!], trimmed. *)
Definition line_comment (line : str) : str :=
  if contains "!" line then strip (after "!" line) else [].

(** The group a first segment stands for: its alias when the alias
    mapping defines one. *)
Definition alias_of (grp_aliases : gmap str str) (g : str) : str :=
  match grp_aliases !! g with
  | Some a => a
  | None => g
  end.

(** The keys of [params] that no loaded source file has. *)
Definition missing_from (params : odict value) (loaded : list (odict value))
  : gset str :=
  list_to_set (keys params) ∖ list_to_set (concat (map keys loaded)).

(** The group names in the order they are first seen. *)
Fixpoint first_seen (gs : list str) : list str :=
  match gs with
  | [] => []
  | g :: t => g :: List.filter (fun h => negb (PyStr.eqb g h)) (first_seen t)
  end.

(** All the records of one group. *)
Definition records_of (g : str) (pars : list ParamNml) : list ParamNml :=
  List.filter (fun p => PyStr.eqb (group p) g) pars.

(** The lines of the block of one group. *)
Definition block_lines (g : str) (records : list ParamNml) : list str :=
  ("&" :: g) :: map format_param records ++ [lit "/"].

(** The items of one group are next to each other: once another group
    has started, the group does not come back. *)
Fixpoint skip_run (g : str) (gs : list str) : list str :=
  match gs with
  | [] => []
  | h :: t => if PyStr.eqb g h then skip_run g t else gs
  end.

(** No group of the list comes back after another one has started. *)
Fixpoint contiguous (gs : list str) : bool :=
  match gs with
  | [] => true
  | g :: t => negb (in_list g (skip_run g t)) && contiguous t
  end.

(** The record [dumps] makes of an item whose key has one separator. *)
Definition record_of (sep : ascii) (item : str * value) : ParamNml :=
  mkParamNml (before sep (fst item)) (after sep (fst item)) (snd item) None.

(** The groups in first-seen order, each with all its records. *)
Definition groups_of (pars : list ParamNml) : list (str * list ParamNml) :=
  map (fun g => (g, records_of g pars)) (first_seen (map group pars)).

(** One more decimal digit. *)
Definition dstep (a : N) (c : ascii) : N := (10 * a + digit_val c)%N.

(** The first character is white space. *)
Definition starts_space (s : str) : bool :=
  match s with
  | c :: _ => is_space c
  | [] => false
  end.

(** A text without white space at either end. *)
Definition trimmed (s : str) : bool :=
  negb (starts_space s) && negb (starts_space (rev s)).

(** The characters a text accepted by [int()] is made of, apart from
    the white space around it. *)
Definition int_char (c : ascii) : bool :=
  is_digit c || contains c (lit "_+-").

(** The same for [float()]. *)
Definition float_char (c : ascii) : bool :=
  is_digit c || contains c (lit "_+-.eE")
  || contains (lower_char c) (lit "infinityna").

(** The value-text [format_nml] writes for a value. *)
Definition value_text (v : value) : str :=
  match v with
  | VList l => join (lit " ") (map _format_value l)
  | v => _format_value v
  end.

(** The characters of the text [repr] prints for a float. *)
Definition float_text_char (c : ascii) : bool :=
  is_digit c || contains c (lit ".e+-infa").

(** A character that [repr] leaves as it is and that has no meaning
    for the line parser and the group extractor. *)
Definition plain_char (c : ascii) : bool :=
  let n := code c in
  negb ((n <? 32) || (127 <=? n) && (n <=? 160) || (n =? 173))%N
  && negb (contains c (lit "\=!&")).

(** A string that survives [repr] and the parser. *)
Definition good_str (s : str) : bool :=
  forallb plain_char s && negb (contains "'" s && contains DQ s).

(** An integer, a float, a boolean or a good string. *)
Definition good_scalar (v : value) : bool :=
  match v with
  | VInt _ | VBool _ => true
  | VFloat x => is_binary64 x
  | VStr s => good_str s
  | VList _ => false
  end.

(** A character of a word in a list written with blanks. *)
Definition word_char (c : ascii) : bool :=
  negb (is_space c) && negb (contains c (lit ",*")).

(** An element of a list: an integer, a float, a boolean or a good
    string of word characters. *)
Definition good_elem (v : value) : bool :=
  match v with
  | VInt _ | VBool _ => true
  | VFloat x => is_binary64 x
  | VStr s => good_str s && forallb word_char s
  | VList _ => false
  end.

(** A value that survives the round trip: a good scalar or a list of
    at least two good elements. *)
Definition good_value (v : value) : bool :=
  match v with
  | VList l => (1 <? List.length l)%nat && forallb good_elem l
  | v => good_scalar v
  end.

(** A character of a text that the line parser and the group extractor
    pass through. *)
Definition safe_char (c : ascii) : bool :=
  negb (Ascii.eqb c NL) && negb (contains c (lit "=!&")).

(** The properties of a value-text the round trip needs. *)
Record safe_text (t : str) : Prop := {
  safe_trimmed : trimmed t = true;
  safe_not_nil : t <> [];
  safe_chars : forallb safe_char t = true;
  safe_no_comma_end : endswith "," t = false
}.

(** The quote [repr] chooses. *)
Definition quote_of (s : str) : ascii :=
  if contains "'" s && negb (contains DQ s) then DQ else "'".

(** The properties of the text of a list element. *)
Record elem_text (t : str) : Prop := {
  et_not_nil : t <> [];
  et_word : forallb word_char t = true;
  et_safe : forallb safe_char t = true;
  et_quote : forall q, q = "'" \/ q = DQ ->
                       startswith q t = true -> count q t = 2;
  et_slash : startswith "/" t = false
}.

(** A character of a group name: no line break, [!] or [&]. *)
Definition group_char (c : ascii) : bool :=
  negb (Ascii.eqb c NL) && negb (contains c (lit "!&")).

(** A group name the parser gives back: trimmed, not empty. *)
Definition good_group (g : str) : bool :=
  trimmed g && negb (PyStr.eqb g []) && forallb group_char g.

(** A parameter name the parser gives back: trimmed, without line break,
    [=], [!] and [&]. *)
Definition good_name (n : str) : bool := trimmed n && forallb safe_char n.

(** Texts made of blanks. *)
Definition blanks (sp : str) : bool := forallb (Ascii.eqb " ") sp.

(** A record [dumps] writes and [loads] reads back. *)
Definition good_record (p : ParamNml) : Prop :=
  good_group (group p) = true /\ good_name (name p) = true
  /\ good_value (pvalue p) = true /\ help p = None.

(** A run of records of one group. *)
Definition good_run (r : str * list ParamNml) : Prop :=
  good_group (fst r) = true
  /\ Forall (fun p => good_record p /\ group p = fst r) (snd r).

(** The line of a record as the parser keeps it. *)
Definition kept_line (p : ParamNml) : str := strip (format_param p).

(** The lines of a block as the parser keeps them. *)
Definition kept_lines (r : str * list ParamNml) : list str :=
  ("&" :: fst r) :: map kept_line (snd r) ++ [lit "/"].

(** The text of a block between its [&] and its [/]. *)
Definition block_body (r : str * list ParamNml) : str :=
  fst r ++ NL :: flat_map (fun l => l ++ [NL]) (map kept_line (snd r)).

(** The records [parse_nml] makes of a block. *)
Definition parsed_run (r : str * list ParamNml) : list ParamNml :=
  map (fun p => mkParamNml (fst r) (name p) (pvalue p) (Some [])) (snd r).

(** An item of a mapping that [dumps] writes and [loads] reads back:
    one separator in the key, a good group name before it and a good
    parameter name after it, and a good value. *)
Definition good_item (sep : ascii) (kv : str * value) : Prop :=
  count sep (fst kv) = 1
  /\ good_group (before sep (fst kv)) = true
  /\ good_name (after sep (fst kv)) = true
  /\ good_value (snd kv) = true.

(** ** Lines, records and keys *)

(** A line the first loop of [parse_nml] drops: blank, or a comment from
    its first character on. *)
Definition ignored_line (line : str) : bool :=
  PyStr.eqb (strip line) [] || startswith "!" (strip line).

(** None of the characters [cs] is in [s]. *)
Definition free_of (cs : list ascii) (s : str) : bool :=
  forallb (fun c => negb (contains c s)) cs.

(** The shape of a record that [parse_nml] returns: a trimmed group
    name without [&], [!] and line break, a trimmed parameter name
    without [&], [!], [=] and line break, and a comment that is always
    there, trimmed, without [&] and line break. *)
Definition parsed_record (p : ParamNml) : Prop :=
  trimmed (group p) = true
  /\ free_of ["&"; "!"; NL] (group p) = true
  /\ trimmed (name p) = true
  /\ free_of ["&"; "!"; "="; NL] (name p) = true
  /\ exists c, help p = Some c /\ trimmed c = true
                /\ free_of ["&"; NL] c = true.

(** A key that [dumps] accepts: the separator once, after a group
    segment that is not empty. *)
Definition writable_key (sep : ascii) (k : str) : bool :=
  (count sep k =? 1)%nat && negb (startswith sep k).

(** * Properties *)

(** ** Strings *)

Section StringFacts.

Lemma eqb_eq (a b : str) : PyStr.eqb a b = true <-> a = b.
Proof.
  revert b; induction a as [|x a IH]; intros [|y b]; simpl; split;
    try congruence; try reflexivity.
  - intros H. apply andb_true_iff in H as [H1 H2].
    apply Ascii.eqb_eq in H1. apply IH in H2. congruence.
  - intros [= -> ->]. rewrite Ascii.eqb_refl. simpl. now apply IH.
Qed.

Lemma eqb_refl (a : str) : PyStr.eqb a a = true.
Proof. now apply eqb_eq. Qed.

Lemma eqb_neq (a b : str) : PyStr.eqb a b = false <-> a <> b.
Proof.
  destruct (PyStr.eqb a b) eqn:E; split; try congruence.
  - apply eqb_eq in E. congruence.
  - intros _ H. apply eqb_eq in H. congruence.
Qed.

Lemma contains_true (c : ascii) (s : str) : contains c s = true <-> In c s.
Proof.
  unfold contains. rewrite existsb_exists. split.
  - intros (x & Hx & E). apply Ascii.eqb_eq in E. now subst.
  - intros H. exists c. split; [assumption | apply Ascii.eqb_refl].
Qed.

Lemma contains_false (c : ascii) (s : str) :
  contains c s = false <-> ~ In c s.
Proof.
  rewrite <- contains_true. destruct (contains c s); split; congruence.
Qed.

Lemma contains_app (c : ascii) (a b : str) :
  contains c (a ++ b) = contains c a || contains c b.
Proof. unfold contains. apply existsb_app. Qed.

Lemma contains_cons (c x : ascii) (s : str) :
  contains c (x :: s) = Ascii.eqb c x || contains c s.
Proof. reflexivity. Qed.

Lemma split_not_nil (c : ascii) (s : str) : split c s <> [].
Proof.
  induction s as [|x s IH]; simpl; [discriminate|].
  destruct (Ascii.eqb c x); [discriminate|].
  destruct (split c s); discriminate.
Qed.

Lemma split_cons_ne (c x : ascii) (s : str) :
  Ascii.eqb c x = false ->
  split c (x :: s) = (x :: hd [] (split c s)) :: tl (split c s).
Proof.
  intros E. simpl. rewrite E.
  destruct (split c s) eqn:S; [now apply split_not_nil in S | reflexivity].
Qed.

Lemma split_none (c : ascii) (s : str) :
  contains c s = false -> split c s = [s].
Proof.
  induction s as [|x s IH]; [reflexivity|].
  rewrite contains_cons. intros H. apply orb_false_iff in H as [H1 H2].
  rewrite split_cons_ne, IH by assumption. reflexivity.
Qed.

Lemma split_app (c : ascii) (a b : str) :
  contains c a = false -> split c (a ++ c :: b) = a :: split c b.
Proof.
  induction a as [|x a IH]; simpl.
  - intros _. now rewrite Ascii.eqb_refl.
  - intros H. apply orb_false_iff in H as [H1 H2].
    rewrite H1, IH by assumption. reflexivity.
Qed.

Lemma join_split (c : ascii) (s : str) : join [c] (split c s) = s.
Proof.
  induction s as [|x s IH]; [reflexivity|].
  simpl. destruct (Ascii.eqb c x) eqn:E.
  - apply Ascii.eqb_eq in E. subst x.
    destruct (split c s) eqn:S; [now apply split_not_nil in S|].
    simpl in *. now rewrite IH.
  - destruct (split c s) as [|w ws] eqn:S; [now apply split_not_nil in S|].
    destruct ws; simpl in *; now rewrite <- IH.
Qed.

Lemma join_length_ge (sep : str) (l : list str) (t : str) :
  In t l -> List.length t <= List.length (join sep l).
Proof.
  induction l as [|x l IH]; [intros []|].
  intros [->|H]; destruct l as [|y l]; simpl in *;
    rewrite ?length_app; try lia; try contradiction.
  specialize (IH H). simpl in IH. lia.
Qed.

Lemma join_length_gt (c : ascii) (l : list str) (t : str) :
  (1 < List.length l)%nat -> In t l ->
  (List.length t < List.length (join [c] l))%nat.
Proof.
  induction l as [|x l IH]; [intros _ []|].
  intros Hl [->|H]; destruct l as [|y l]; simpl in *;
    rewrite ?length_app; simpl; try lia.
  pose proof (join_length_ge [c] (y :: l) t H) as G. simpl in G. lia.
Qed.

Lemma split_length_le (c : ascii) (s t : str) :
  In t (split c s) -> List.length t <= List.length s.
Proof.
  intros H. rewrite <- (join_split c s). now apply join_length_ge.
Qed.

Lemma split_contains_length (c : ascii) (s : str) :
  contains c s = true -> (1 < List.length (split c s))%nat.
Proof.
  induction s as [|x s IH]; [discriminate|].
  rewrite contains_cons. simpl. destruct (Ascii.eqb c x); simpl.
  - intros _. pose proof (split_not_nil c s).
    destruct (split c s); [congruence | simpl; lia].
  - intros H. specialize (IH H). destruct (split c s); simpl in *; lia.
Qed.

Lemma split_length_lt (c : ascii) (s t : str) :
  contains c s = true -> In t (split c s) ->
  (List.length t < List.length s)%nat.
Proof.
  intros Hc H. rewrite <- (join_split c s).
  apply join_length_gt; [now apply split_contains_length | assumption].
Qed.

Lemma drop_while_length (p : ascii -> bool) (s : str) :
  List.length (drop_while p s) <= List.length s.
Proof.
  induction s as [|x s IH]; simpl; [lia|]. destruct (p x); simpl; lia.
Qed.

Lemma strip_length (s : str) : List.length (strip s) <= List.length s.
Proof.
  unfold strip, rstrip, lstrip. rewrite length_rev.
  etransitivity; [apply drop_while_length|]. rewrite length_rev.
  apply drop_while_length.
Qed.

End StringFacts.

(** ** The recursion of the value grammar *)

Section ValueRecursion.

Lemma weight_in (l : list str) (t : str) :
  In t l -> S (List.length t) <= weight l.
Proof.
  unfold weight. induction l as [|x l IH]; [intros []|].
  intros [->|H]; simpl; [lia|]. specialize (IH H). lia.
Qed.

Lemma weight_two (l : list str) (t : str) :
  (1 < List.length l)%nat -> In t l -> S (S (List.length t)) <= weight l.
Proof.
  unfold weight. destruct l as [|x [|y l]]; simpl; try lia.
  intros _ [->|[->|H]]; try lia.
  pose proof (weight_in l t H) as G. unfold weight in G. lia.
Qed.

Lemma split_ws_aux_weight (cur s : str) :
  weight (split_ws_aux cur s) <= S (List.length cur + List.length s).
Proof.
  revert cur; induction s as [|x s IH]; intros cur; simpl.
  - destruct cur; unfold weight; simpl; rewrite ?length_app, ?length_rev;
      simpl; lia.
  - destruct (is_space x).
    + destruct cur as [|c cur].
      * specialize (IH []). simpl in IH. lia.
      * specialize (IH []). unfold weight in *. simpl in *.
        rewrite length_app, length_rev. simpl. lia.
    + specialize (IH (x :: cur)). simpl in IH. lia.
Qed.

Lemma split_ws_length_lt (s t : str) :
  (1 < List.length (split_ws s))%nat -> In t (split_ws s) ->
  (List.length t < List.length s)%nat.
Proof.
  intros Hl Ht. pose proof (weight_two _ _ Hl Ht) as G.
  pose proof (split_ws_aux_weight [] s) as W. unfold split_ws in *.
  simpl in W. lia.
Qed.

Lemma split_two_length (c : ascii) (s a b : str) :
  split c s = [a; b] -> List.length s = S (List.length a + List.length b).
Proof.
  intros H. rewrite <- (join_split c s), H. simpl.
  rewrite length_app. simpl. lia.
Qed.

Lemma parse_token_ext (r1 r2 : str -> result value) (n : nat) (v : str) :
  (forall t, (List.length t < n)%nat -> r1 t = r2 t) ->
  small_token n v -> parse_token r1 v = parse_token r2 v.
Proof.
  intros Hr Hv. unfold parse_token.
  destruct (contains "*" v) eqn:Hc.
  - destruct (split "*" v) as [|mult [|val [|]]] eqn:Hs; try reflexivity.
    destruct (py_int mult); [|reflexivity].
    rewrite Hr; [reflexivity|].
    pose proof (split_two_length _ _ _ _ Hs).
    pose proof (strip_length val).
    destruct Hv as [?|[_ ?]]; lia.
  - destruct Hv as [?|[? _]]; [|congruence]. now rewrite Hr.
Qed.

Lemma _parse_array_ext (r1 r2 : str -> result value) (n : nat)
  (values : list str) :
  (forall t, (List.length t < n)%nat -> r1 t = r2 t) ->
  Forall (small_token n) values ->
  _parse_array r1 values = _parse_array r2 values.
Proof.
  intros Hr. induction 1 as [|v values Hv _ IH]; simpl; [reflexivity|].
  now rewrite (parse_token_ext r1 r2 n v Hr Hv), IH.
Qed.

Lemma is_slashed_length (s : str) :
  is_slashed s = true -> (List.length (inner s) < List.length s)%nat.
Proof.
  destruct s as [|c s]; [discriminate|]. intros _. unfold inner. simpl.
  destruct s as [|d s]; simpl; [lia|].
  assert (List.length (removelast (d :: s)) <= List.length (d :: s)) as G.
  { generalize (d :: s). intros l. induction l as [|a [|b l] IH]; simpl in *;
      lia. }
  simpl in *. lia.
Qed.

(** The tokens each branch of [_parse_value] hands to [_parse_array]
    only lead to recursive calls on shorter strings. *)
Lemma small_tokens_slashed (s : str) :
  is_slashed s = true ->
  Forall (small_token (List.length s)) (split "," (inner s)).
Proof.
  intros H. apply List.Forall_forall. intros t Ht. left.
  pose proof (split_length_le _ _ _ Ht). pose proof (is_slashed_length s H).
  lia.
Qed.

Lemma small_tokens_comma (s : str) :
  contains "," s = true -> Forall (small_token (List.length s)) (split "," s).
Proof.
  intros H. apply List.Forall_forall. intros t Ht. left.
  now apply (split_length_lt ","%char).
Qed.

Lemma small_tokens_star (s : str) :
  contains "*" s = true -> Forall (small_token (List.length s)) [s].
Proof. intros H. constructor; [right; auto | constructor]. Qed.

Lemma small_tokens_ws (s : str) :
  (1 <? List.length (split_ws s))%nat = true ->
  Forall (small_token (List.length s)) (split_ws s).
Proof.
  intros H. apply Nat.ltb_lt in H. apply List.Forall_forall. intros t Ht. left.
  now apply split_ws_length_lt.
Qed.

Lemma parse_value_body_ext (r1 r2 : str -> result value) (s : str) :
  (forall t, (List.length t < List.length s)%nat -> r1 t = r2 t) ->
  parse_value_body r1 s = parse_value_body r2 s.
Proof.
  intros Hr. unfold parse_value_body.
  destruct (py_int s); [reflexivity|].
  destruct (py_float s); [reflexivity|].
  destruct (is_true_word s); [reflexivity|].
  destruct (is_false_word s); [reflexivity|].
  destruct (is_quoted s); [reflexivity|].
  destruct (is_slashed s) eqn:E1.
  { now rewrite (_parse_array_ext r1 r2 _ _ Hr (small_tokens_slashed s E1)). }
  destruct (contains "," s) eqn:E2.
  { now rewrite (_parse_array_ext r1 r2 _ _ Hr (small_tokens_comma s E2)). }
  destruct (contains "*" s) eqn:E3.
  { now rewrite (_parse_array_ext r1 r2 _ _ Hr (small_tokens_star s E3)). }
  destruct (1 <? List.length (split_ws s))%nat eqn:E4; [|reflexivity].
  now rewrite (_parse_array_ext r1 r2 _ _ Hr (small_tokens_ws s E4)).
Qed.

Lemma parse_value_fuel_enough (f1 f2 : nat) (s : str) :
  (List.length s < f1)%nat -> (List.length s < f2)%nat ->
  parse_value_fuel f1 s = parse_value_fuel f2 s.
Proof.
  revert f2 s. induction f1 as [|f1 IH]; intros f2 s H1 H2; [lia|].
  destruct f2 as [|f2]; [lia|]. simpl.
  apply parse_value_body_ext. intros t Ht. apply IH; lia.
Qed.

(** The defining equation of [_parse_value], as in the source. *)
Lemma _parse_value_unfold (s : str) :
  _parse_value s = parse_value_body _parse_value s.
Proof.
  unfold _parse_value at 1. simpl.
  apply parse_value_body_ext. intros t Ht.
  unfold _parse_value. apply parse_value_fuel_enough; lia.
Qed.

End ValueRecursion.

Section ValueTotality.

Lemma parse_token_fuel_free (r : str -> result value) (n : nat) (v : str) :
  fuel_free r n -> small_token n v -> parse_token r v <> Err OutOfFuel.
Proof.
  intros Hr Hv. unfold parse_token.
  destruct (contains "*" v) eqn:Hc.
  - destruct (split "*" v) as [|mult [|val [|]]] eqn:Hs; try discriminate.
    destruct (py_int mult); [|discriminate].
    pose proof (split_two_length _ _ _ _ Hs).
    pose proof (strip_length val).
    assert (List.length (strip val) < n)%nat as L
      by (destruct Hv as [?|[_ ?]]; lia).
    specialize (Hr _ L). destruct (r (strip val)); simpl; congruence.
  - destruct Hv as [L|[? _]]; [|congruence].
    specialize (Hr _ L). destruct (r v); simpl; congruence.
Qed.

Lemma _parse_array_fuel_free (r : str -> result value) (n : nat)
  (values : list str) :
  fuel_free r n -> Forall (small_token n) values ->
  _parse_array r values <> Err OutOfFuel.
Proof.
  intros Hr. induction 1 as [|v values Hv _ IH]; simpl; [discriminate|].
  pose proof (parse_token_fuel_free r n v Hr Hv).
  destruct (parse_token r v); simpl; [|congruence].
  destruct (_parse_array r values); simpl; congruence.
Qed.

Lemma parse_value_body_fuel_free (r : str -> result value) (s : str) :
  fuel_free r (List.length s) -> parse_value_body r s <> Err OutOfFuel.
Proof.
  intros Hr. unfold parse_value_body.
  destruct (py_int s); [discriminate|].
  destruct (py_float s); [discriminate|].
  destruct (is_true_word s); [discriminate|].
  destruct (is_false_word s); [discriminate|].
  destruct (is_quoted s); [discriminate|].
  assert (forall l, Forall (small_token (List.length s)) l ->
            (let* l := _parse_array r l in Ok (VList l)) <> Err OutOfFuel) as A.
  { intros l Hl. pose proof (_parse_array_fuel_free r _ l Hr Hl).
    destruct (_parse_array r l); simpl; congruence. }
  destruct (is_slashed s) eqn:E1; [now apply A, small_tokens_slashed|].
  destruct (contains "," s) eqn:E2; [now apply A, small_tokens_comma|].
  destruct (contains "*" s) eqn:E3; [now apply A, small_tokens_star|].
  destruct (1 <? List.length (split_ws s))%nat eqn:E4;
    [now apply A, small_tokens_ws | discriminate].
Qed.

Lemma parse_value_fuel_total (f : nat) (s : str) :
  (List.length s < f)%nat -> parse_value_fuel f s <> Err OutOfFuel.
Proof.
  revert s. induction f as [|f IH]; intros s H; [lia|]. simpl.
  apply parse_value_body_fuel_free. intros t Ht. apply IH. lia.
Qed.

(** [_parse_value] never runs out of recursion depth: it returns a value
    or raises one of the exceptions of the source. *)
Lemma _parse_value_total (s : str) : _parse_value s <> Err OutOfFuel.
Proof. apply parse_value_fuel_total. lia. Qed.

End ValueTotality.

(** ** The precedence of the value grammar *)

Section Precedence_rules.

Import Precedence.

Lemma same_word_lower (s w : str) : same_word s w = PyStr.eqb (lower s) w.
Proof.
  revert w; induction s as [|c s IH]; intros [|x w]; try reflexivity.
  simpl. now rewrite IH.
Qed.

Lemma one_of_true (s : str) :
  one_of [".true."%string; "t"%string; "true"%string] s = is_true_word s.
Proof.
  unfold one_of, is_true_word, in_list. cbn [existsb].
  now rewrite !same_word_lower.
Qed.

Lemma one_of_false (s : str) :
  one_of [".false."%string; "f"%string; "false"%string] s = is_false_word s.
Proof.
  unfold one_of, is_false_word, in_list. cbn [existsb].
  now rewrite !same_word_lower.
Qed.

Lemma endswith_last_char (c q : ascii) (t : str) :
  endswith c (q :: t) = Ascii.eqb (List.last (q :: t) " ") c.
Proof.
  assert (q :: t <> []) as N by discriminate.
  destruct (exists_last N) as (s' & z & ->).
  rewrite List.last_last. unfold endswith. rewrite rev_app_distr. simpl.
  apply Ascii.eqb_sym.
Qed.

Lemma match_quoted_code (s : str) :
  match_quoted s = if is_quoted s then Some (Ok (VStr (inner s))) else None.
Proof.
  unfold match_quoted, is_quoted, inner.
  destruct s as [|q t]; [reflexivity|].
  rewrite !endswith_last_char. cbn [startswith tl].
  rewrite (Ascii.eqb_sym "'" q), (Ascii.eqb_sym DQ q).
  destruct (Ascii.eqb q "'") eqn:E1.
  - apply Ascii.eqb_eq in E1. subst q.
    change (Ascii.eqb "'" DQ) with false. cbn [orb andb].
    now rewrite orb_false_r.
  - destruct (Ascii.eqb q DQ) eqn:E2; cbn [orb andb]; [|reflexivity].
    apply Ascii.eqb_eq in E2. now subst q.
Qed.

Lemma match_slash_code (s : str) :
  match_slash_array s =
  if is_slashed s then Some (array_of (split "," (inner s))) else None.
Proof.
  unfold match_slash_array, is_slashed, inner.
  destruct s as [|q t]; [reflexivity|].
  rewrite endswith_last_char. cbn [startswith tl].
  destruct (Ascii.eqb "/" q) eqn:E.
  - apply Ascii.eqb_eq in E. subst q. reflexivity.
  - cbn [andb].
    destruct q as [[] [] [] [] [] [] [] []]; try reflexivity; discriminate.
Qed.

Lemma match_whitespace_code (s : str) :
  match_whitespace_array s =
  if (1 <? List.length (split_ws s))%nat then Some (array_of (split_ws s))
  else None.
Proof.
  unfold match_whitespace_array.
  now destruct (split_ws s) as [|a [|b l]].
Qed.

(** [_parse_value] is the outcome of the first rule that applies. *)
Lemma parse_value_first_applicable (s : str) :
  _parse_value s = first_applicable matchers s.
Proof.
  rewrite _parse_value_unfold. unfold parse_value_body.
  cbn [first_applicable matchers].
  rewrite match_quoted_code, match_slash_code, match_whitespace_code.
  unfold match_integer, match_float, match_boolean, match_comma_array,
    match_repeat_array, array_of.
  rewrite one_of_true, one_of_false.
  destruct (py_int s); [reflexivity|]. cbn [option_map].
  destruct (py_float s); [reflexivity|]. cbn [option_map].
  destruct (is_true_word s); [reflexivity|].
  destruct (is_false_word s); [reflexivity|].
  destruct (is_quoted s); [reflexivity|].
  destruct (is_slashed s); [reflexivity|].
  destruct (contains "," s); [reflexivity|].
  destruct (contains "*" s); [reflexivity|].
  destruct (1 <? List.length (split_ws s))%nat; reflexivity.
Qed.

(** A value of the first rule that applies is the value of the first
    rule that gives one. *)
Lemma first_applicable_success (ms : list rule) (s : str) (v : value) :
  first_applicable ms s = Ok v -> first_success ms s = Ok v.
Proof.
  induction ms as [|m ms IH]; [discriminate|]. simpl.
  destruct (m s) as [[v'|e]|]; [auto | discriminate | exact IH].
Qed.

End Precedence_rules.

(** C2 as stated fails: the first success does not win. On ["1 3*4"]
    the repeat-count rule applies and raises, since ["1 3"] is no
    count, and [_parse_value] raises with it; the whitespace rule, next
    in the order, would give the list of 1 and three times 4. *)
Lemma parse_value_first_success_counterexample :
  _parse_value (lit "1 3*4") = Err (IntError (lit "1 3"))
  /\ Precedence.match_repeat_array (lit "1 3*4")
     = Some (Err (IntError (lit "1 3")))
  /\ Precedence.match_whitespace_array (lit "1 3*4")
     = Some (Ok (VList [VInt 1; VInt 4; VInt 4; VInt 4]))
  /\ Precedence.first_success Precedence.matchers (lit "1 3*4")
     = Ok (VList [VInt 1; VInt 4; VInt 4; VInt 4]).
Proof. repeat split; vm_compute; reflexivity. Qed.

(** C2, amended. [_parse_value] goes through the rules integer, float,
    boolean, quoted string, slash array, comma array, repeat-count
    array and whitespace array in this order; the first rule that
    applies decides, with its value or with its exception, and none is
    the value-parse error. Whenever [_parse_value] returns a value, it
    is the value of the first rule that gives one. So ["10"] is the
    integer 10 and not the float 10.0, ["10.0"] is the float 10.0 (the
    binary64 datum [5629499534213120 * 2^-49]), [".true."] is true,
    ['x'] in quotes is the string x, and ["1,2"] is a list although
    ["1"] and ["2"] alone are integers. *)
Theorem parse_value_precedence :
  (forall s,
     _parse_value s = Precedence.first_applicable Precedence.matchers s)
  /\ (forall s v,
        _parse_value s = Ok v ->
        Precedence.first_success Precedence.matchers s = Ok v)
  /\ _parse_value (lit "10") = Ok (VInt 10)
  /\ _parse_value (lit "10")
     <> Ok (VFloat (FFin false 5629499534213120 (-49)))
  /\ _parse_value (lit "10.0")
     = Ok (VFloat (FFin false 5629499534213120 (-49)))
  /\ _parse_value (lit ".true.") = Ok (VBool true)
  /\ _parse_value (lit "'x'") = Ok (VStr (lit "x"))
  /\ _parse_value (lit "1") = Ok (VInt 1)
  /\ _parse_value (lit "2") = Ok (VInt 2)
  /\ _parse_value (lit "1,2") = Ok (VList [VInt 1; VInt 2]).
Proof.
  split; [exact parse_value_first_applicable|].
  split.
  { intros s v H. apply first_applicable_success.
    now rewrite <- parse_value_first_applicable. }
  repeat split; try (vm_compute; reflexivity).
  vm_compute. discriminate.
Qed.

Lemma parse_value_precedence_witness :
  Precedence.first_success Precedence.matchers (lit "1,2")
  = Ok (VList [VInt 1; VInt 2]).
Proof.
  apply (proj1 (proj2 parse_value_precedence) (lit "1,2")).
  vm_compute. reflexivity.
Defined.

(** ** The group extractor *)

Section GroupExtractor.

Lemma match_group_shorter (t g rest : str) :
  match_group t = Some (g, rest) -> List.length rest < List.length t.
Proof.
  unfold match_group.
  destruct (take_while _ t) as [|c0 run] eqn:E; [discriminate|].
  destruct (rfind "/" run) as [j|]; [|discriminate].
  intros [= <- <-]. rewrite length_skipn.
  destruct t; [discriminate | simpl; lia].
Qed.

Lemma findall_fuel_enough (f1 f2 : nat) (s : str) :
  List.length s <= f1 -> List.length s <= f2 ->
  findall_fuel f1 s = findall_fuel f2 s.
Proof.
  revert f2 s. induction f1 as [|f1 IH]; intros f2 s H1 H2.
  - destruct s; [|simpl in H1; lia]. now destruct f2.
  - destruct f2 as [|f2]; [destruct s; [reflexivity | simpl in H2; lia]|].
    destruct s as [|c t]; [reflexivity|]. simpl in *.
    destruct (Ascii.eqb "&" c); [|apply IH; lia].
    destruct (match_group t) as [[g rest]|] eqn:M; [|apply IH; lia].
    apply match_group_shorter in M. f_equal. apply IH; lia.
Qed.

(** The defining equation of the scan. *)
Lemma findall_cons (c : ascii) (t : str) :
  findall_group_re (c :: t) =
  if Ascii.eqb "&" c then
    match match_group t with
    | Some (g, rest) => g :: findall_group_re rest
    | None => findall_group_re t
    end
  else findall_group_re t.
Proof.
  unfold findall_group_re. simpl.
  destruct (Ascii.eqb "&" c); [|reflexivity].
  destruct (match_group t) as [[g rest]|] eqn:M; [|reflexivity].
  apply match_group_shorter in M. f_equal.
  apply findall_fuel_enough; lia.
Qed.

Lemma findall_nil : findall_group_re [] = [].
Proof. reflexivity. Qed.

Lemma rfind_none (c : ascii) (s : str) :
  contains c s = false -> rfind c s = None.
Proof.
  induction s as [|x s IH]; [reflexivity|].
  rewrite contains_cons. intros H. apply orb_false_iff in H as [H1 H2].
  simpl. now rewrite IH, H1.
Qed.

Lemma rfind_app_none (c : ascii) (s e : str) :
  contains c e = false -> rfind c (s ++ e) = rfind c s.
Proof.
  intros H. induction s as [|x s IH]; simpl.
  - now apply rfind_none.
  - now rewrite IH.
Qed.

Lemma rfind_lt (c : ascii) (s : str) (j : nat) :
  rfind c s = Some j -> j < List.length s.
Proof.
  revert j; induction s as [|x s IH]; intros j; simpl; [discriminate|].
  destruct (rfind c s) as [k|].
  - intros [= <-]. specialize (IH k eq_refl). lia.
  - destruct (Ascii.eqb c x); [intros [= <-]; lia | discriminate].
Qed.

Lemma take_while_app (p : ascii -> bool) (a b : str) :
  take_while p (a ++ b) =
  take_while p a ++ (if forallb p a then take_while p b else []).
Proof.
  induction a as [|x a IH]; simpl; [reflexivity|].
  destruct (p x); simpl; [now rewrite IH | reflexivity].
Qed.

Lemma take_while_length (p : ascii -> bool) (s : str) :
  List.length (take_while p s) <= List.length s.
Proof.
  induction s as [|x s IH]; simpl; [lia|]. destruct (p x); simpl; lia.
Qed.

Lemma take_while_contains (p : ascii -> bool) (c : ascii) (s : str) :
  contains c s = false -> contains c (take_while p s) = false.
Proof.
  induction s as [|x s IH]; [reflexivity|].
  rewrite contains_cons. intros H. apply orb_false_iff in H as [H1 H2].
  simpl. destruct (p x); [|reflexivity].
  rewrite contains_cons, H1. now apply IH.
Qed.

(** Text without [/] after a match attempt changes neither the match
    nor, up to the appended text, what is left after it. *)
Lemma match_group_app (t b : str) :
  contains "/" b = false ->
  match_group (t ++ b) =
  option_map (fun gr => (fst gr, snd gr ++ b)) (match_group t).
Proof.
  intros Hb. unfold match_group. rewrite take_while_app.
  set (e := if forallb _ t then take_while _ b else []).
  assert (contains "/" e = false) as He.
  { subst e. destruct (forallb _ t); [|reflexivity].
    now apply take_while_contains. }
  pose proof (take_while_length (fun c => negb (Ascii.eqb "&" c)) t) as L.
  destruct (take_while _ t) as [|c0 run] eqn:E; simpl.
  - destruct e as [|c0 r]; [reflexivity|].
    rewrite contains_cons in He. apply orb_false_iff in He as [_ He].
    now rewrite rfind_none.
  - rewrite rfind_app_none by assumption.
    destruct (rfind "/" run) as [j|] eqn:R; [|reflexivity]. simpl.
    apply rfind_lt in R. rewrite firstn_app.
    replace (j - List.length run) with 0 by lia.
    rewrite firstn_O, app_nil_r.
    destruct t as [|x t]; [discriminate|]. simpl in *.
    rewrite skipn_app.
    replace (S j - List.length t) with 0 by lia. reflexivity.
Qed.

(** Text without [/] at the end of the input yields no further group: an
    opened group that is never closed is dropped. *)
Lemma findall_app_no_slash (a b : str) :
  contains "/" b = false -> findall_group_re (a ++ b) = findall_group_re a.
Proof.
  intros Hb. remember (List.length a) as n eqn:Hn.
  revert a Hn. induction n as [n IH] using lt_wf_ind. intros a Hn.
  destruct a as [|c t].
  - clear IH Hn. simpl. induction b as [|c b IHb]; [reflexivity|].
    rewrite contains_cons in Hb. apply orb_false_iff in Hb as [_ Hb].
    rewrite findall_cons. specialize (IHb Hb).
    destruct (Ascii.eqb "&" c); [|assumption].
    pose proof (match_group_app [] b Hb) as M. simpl in M.
    rewrite M. unfold match_group. simpl. assumption.
  - simpl. rewrite !findall_cons. simpl in Hn.
    destruct (Ascii.eqb "&" c); [|apply (IH (List.length t)); lia].
    rewrite match_group_app by assumption.
    destruct (match_group t) as [[g rest]|] eqn:M; simpl.
    + apply match_group_shorter in M. f_equal.
      apply (IH (List.length rest)); lia.
    + apply (IH (List.length t)); lia.
Qed.

Lemma split_app_sep (c : ascii) (a b : str) :
  split c (a ++ c :: b) = split c a ++ split c b.
Proof.
  induction a as [|x a IH]; simpl.
  - now rewrite Ascii.eqb_refl.
  - destruct (Ascii.eqb c x); [now rewrite IH|].
    rewrite IH. pose proof (split_not_nil c a).
    destruct (split c a); [congruence | reflexivity].
Qed.

Lemma drop_while_contains (p : ascii -> bool) (c : ascii) (s : str) :
  contains c s = false -> contains c (drop_while p s) = false.
Proof.
  induction s as [|x s IH]; [reflexivity|]. intros H. simpl.
  destruct (p x); [|assumption].
  rewrite contains_cons in H. apply orb_false_iff in H as [_ H]. auto.
Qed.

Lemma contains_rev (c : ascii) (s : str) :
  contains c (rev s) = contains c s.
Proof.
  induction s as [|x s IH]; [reflexivity|]. simpl.
  rewrite contains_app, IH. simpl. rewrite orb_false_r. apply orb_comm.
Qed.

Lemma strip_contains (c : ascii) (s : str) :
  contains c s = false -> contains c (strip s) = false.
Proof.
  intros H. unfold strip, rstrip, lstrip.
  rewrite contains_rev. apply drop_while_contains.
  rewrite contains_rev. now apply drop_while_contains.
Qed.

Lemma contains_split (c d : ascii) (s t : str) :
  contains c s = false -> In t (split d s) -> contains c t = false.
Proof.
  revert t; induction s as [|x s IH]; intros t H; simpl.
  - intros [<-|[]]. reflexivity.
  - rewrite contains_cons in H. apply orb_false_iff in H as [H1 H2].
    destruct (Ascii.eqb d x).
    + intros [<-|Ht]; [reflexivity | auto].
    + pose proof (split_not_nil d s).
      destruct (split d s) as [|w ws]; [congruence|].
      intros [<-|Ht].
      * rewrite contains_cons, H1. apply IH; simpl; auto.
      * apply IH; simpl; auto.
Qed.

Lemma filter_line_contains (ic : bool) (c : ascii) (line t : str) :
  contains c line = false -> In t (filter_line ic line) ->
  contains c t = false.
Proof.
  intros H. unfold filter_line. apply (strip_contains c) in H.
  destruct (PyStr.eqb (strip line) []); [intros []|].
  destruct (startswith "!" (strip line)); [intros []|].
  destruct (ic && contains "!" (strip line)); intros [<-|[]];
    [now apply take_while_contains | assumption].
Qed.

Lemma join_contains (c : ascii) (sep : str) (l : list str) :
  contains c sep = false -> Forall (fun t => contains c t = false) l ->
  contains c (join sep l) = false.
Proof.
  intros Hs. induction 1 as [|x l Hx Hl IH]; [reflexivity|].
  destruct l as [|y l]; [assumption|].
  change (contains c (x ++ sep ++ join sep (y :: l)) = false).
  now rewrite !contains_app, Hx, Hs, IH.
Qed.

Lemma join_cons2 (sep x y : str) (l : list str) :
  join sep (x :: y :: l) = x ++ sep ++ join sep (y :: l).
Proof. reflexivity. Qed.

Lemma join_app (sep : str) (l1 l2 : list str) :
  join sep (l1 ++ l2) =
  join sep l1 ++
  match l1, l2 with
  | _ :: _, _ :: _ => sep ++ join sep l2
  | _, _ => join sep l2
  end.
Proof.
  induction l1 as [|x l1 IH]; [reflexivity|].
  destruct l1 as [|y l1].
  - destruct l2; simpl; [now rewrite app_nil_r | reflexivity].
  - rewrite <- !app_comm_cons, !join_cons2, app_comm_cons, IH.
    destruct l2; now rewrite <- !app_assoc.
Qed.

(** Whatever follows a line break and contains no [/] does not change
    the outcome of [parse_nml]. *)
Lemma parse_nml_app_no_slash (ic : bool) (pre body : str) :
  contains "/" body = false ->
  parse_nml_with ic (pre ++ NL :: body) = parse_nml_with ic pre.
Proof.
  intros Hb. unfold parse_nml_with, filtered_lines.
  rewrite split_app_sep, flat_map_app, join_app.
  set (l1 := flat_map (filter_line ic) (split NL pre)).
  set (l2 := flat_map (filter_line ic) (split NL body)).
  assert (Forall (fun t => contains "/" t = false) l2) as F.
  { apply List.Forall_forall. intros t Ht. subst l2.
    apply in_flat_map in Ht as (line & Hl & Ht).
    eapply filter_line_contains; [|exact Ht].
    now apply (contains_split _ NL body). }
  rewrite findall_app_no_slash; [reflexivity|].
  pose proof (join_contains "/" [NL] l2 eq_refl F) as J.
  destruct l1, l2; assumption.
Qed.

End GroupExtractor.

(** C3 as stated fails: a group opened by [&g] and never closed raises
    nothing; [parse_nml] and [loads] return the empty result. *)
Lemma unterminated_group_counterexample :
  parse_nml (lit "&g" ++ NL :: lit " a = 1" ++ [NL]) = Ok []
  /\ loads "." (lit "&g" ++ NL :: lit " a = 1" ++ [NL]) = Ok [].
Proof. split; vm_compute; reflexivity. Qed.

(** C3, amended. When a group is opened by a line starting with [&] and
    no [/] follows anywhere in the rest of the text, parsing raises no
    unterminated-group error: the group is silently left out, and the
    outcome is that of the text before the opening line (the empty
    result when the text starts with that line). *)
Theorem unterminated_group_omitted (pre body : str) :
  contains "/" body = false ->
  parse_nml (pre ++ NL :: "&" :: body) = parse_nml pre
  /\ parse_nml ("&" :: body) = Ok []
  /\ loads "." ("&" :: body) = Ok [].
Proof.
  intros Hb.
  assert (contains "/" ("&" :: body) = false) as Hb' by exact Hb.
  assert (parse_nml ("&" :: body) = Ok []) as E.
  { unfold parse_nml, parse_nml_with.
    change ("&" :: body) with ([] ++ "&" :: body).
    set (l := filtered_lines false ([] ++ "&" :: body)).
    assert (Forall (fun t => contains "/" t = false) l) as F.
    { apply List.Forall_forall. intros t Ht. subst l.
      apply in_flat_map in Ht as (line & Hl & Ht).
      eapply filter_line_contains; [|exact Ht].
      now apply (contains_split _ NL ("&" :: body)). }
    pose proof (join_contains "/" [NL] l eq_refl F) as J.
    pose proof (findall_app_no_slash [] _ J) as G. simpl in G.
    now rewrite G. }
  split; [|split].
  - unfold parse_nml. now apply parse_nml_app_no_slash.
  - exact E.
  - unfold loads. now rewrite E.
Qed.

Lemma unterminated_group_omitted_witness :
  parse_nml (lit "&a" ++ NL :: lit "x = 1" ++ NL :: lit "/"
             ++ NL :: "&" :: lit "g" ++ NL :: lit "y = 2")
  = parse_nml (lit "&a" ++ NL :: lit "x = 1" ++ NL :: lit "/").
Proof.
  apply (unterminated_group_omitted
           (lit "&a" ++ NL :: lit "x = 1" ++ NL :: lit "/")
           (lit "g" ++ NL :: lit "y = 2")).
  reflexivity.
Defined.

(** ** Sequencing over lists *)

Section MapM.

Context {A B : Type} (f : A -> result B).

Lemma mapM_app_err (pre post : list A) (a : A) (bs : list B) (e : exn) :
  mapM f pre = Ok bs -> f a = Err e -> mapM f (pre ++ a :: post) = Err e.
Proof.
  revert bs; induction pre as [|x pre IH]; intros bs; simpl.
  - intros _ ->. reflexivity.
  - destruct (f x); simpl; [|discriminate].
    destruct (mapM f pre) eqn:E; simpl; [|discriminate].
    intros _ Ha. now rewrite (IH _ eq_refl Ha).
Qed.

Lemma mapM_ok_all (l : list A) :
  Forall (fun a => is_ok (f a) = true) l -> exists bs, mapM f l = Ok bs.
Proof.
  induction 1 as [|a l Ha _ [bs IH]]; simpl; [now exists []|].
  destruct (f a); [|discriminate]. rewrite IH. simpl. eauto.
Qed.

Lemma mapM_ok_inv (l : list A) (bs : list B) :
  mapM f l = Ok bs -> Forall2 (fun a b => f a = Ok b) l bs.
Proof.
  revert bs; induction l as [|a l IH]; intros bs; simpl.
  - intros [= <-]. constructor.
  - destruct (f a) eqn:Ea; simpl; [|discriminate].
    destruct (mapM f l); simpl; [|discriminate].
    intros [= <-]. constructor; auto.
Qed.

Lemma mapM_ok_intro (l : list A) (bs : list B) :
  Forall2 (fun a b => f a = Ok b) l bs -> mapM f l = Ok bs.
Proof.
  induction 1 as [|a b l bs Hab _ IH]; simpl; [reflexivity|].
  now rewrite Hab, IH.
Qed.

Lemma mapM_app (l1 l2 : list A) (b1 b2 : list B) :
  mapM f l1 = Ok b1 -> mapM f l2 = Ok b2 -> mapM f (l1 ++ l2) = Ok (b1 ++ b2).
Proof.
  intros H1 H2. apply mapM_ok_intro. apply Forall2_app; now apply mapM_ok_inv.
Qed.

(** The first item that fails decides the exception. *)
Lemma mapM_first_err (l : list A) :
  (exists bs, mapM f l = Ok bs)
  \/ (exists pre a post bs e,
        l = pre ++ a :: post /\ mapM f pre = Ok bs /\ f a = Err e
        /\ mapM f l = Err e).
Proof.
  induction l as [|a l IH]; [left; now exists []|].
  simpl. destruct (f a) as [b|e] eqn:Ea.
  - destruct IH as [[bs ->]|(pre & a' & post & bs & e & -> & Hp & Ha & ->)].
    + left. simpl. eauto.
    + right. exists (a :: pre), a', post, (b :: bs), e. simpl.
      rewrite Ea, Hp. auto.
  - right. exists [], a, l, [], e. auto.
Qed.

End MapM.

(** ** The formatter: groups *)

Section Formatter.

Lemma groupby_keys {A} (key : A -> str) (l : list A) (x : A) :
  In x l -> In (key x) (map fst (groupby key l)).
Proof.
  induction l as [|y l IH]; [intros []|]. simpl.
  intros [->|H].
  - destruct (groupby key l) as [|[k xs] gs]; [simpl; auto|].
    destruct (PyStr.eqb (key x) k) eqn:E; [|simpl; auto].
    apply eqb_eq in E. simpl. auto.
  - specialize (IH H).
    destruct (groupby key l) as [|[k xs] gs]; [contradiction|].
    destruct (PyStr.eqb (key y) k); simpl in *; auto.
Qed.

Lemma format_groups_empty_name (groups : list (str * list ParamNml))
  (lines : list str) :
  In [] (map fst groups) -> format_groups groups lines = Err GroupNotDefined.
Proof.
  revert lines; induction groups as [|[g ps] groups IH]; intros lines;
    [intros []|].
  simpl. intros [->|H]; [reflexivity|].
  destruct (PyStr.eqb g []); [reflexivity | now apply IH].
Qed.

Lemma dumps_param_ok (sep : ascii) (k : str) (v : value) (p : ParamNml) :
  dumps_param sep (k, v) = Ok p <->
  split sep k = [group p; name p] /\ pvalue p = v /\ help p = None.
Proof.
  unfold dumps_param. simpl.
  destruct (split sep k) as [|g [|n [|]]]; split;
    try discriminate; try (intros [[=] _]; fail).
  - intros [= <-]. auto.
  - intros ([= -> ->] & <- & E). destruct p; simpl in *. now subst.
Qed.

Lemma dumps_param_err (sep : ascii) (k : str) (v : value) :
  List.length (split sep k) <> 2 ->
  dumps_param sep (k, v) = Err (UnpackError 2 (List.length (split sep k))).
Proof.
  unfold dumps_param. simpl.
  destruct (split sep k) as [|g [|n [|]]]; simpl; congruence.
Qed.

Lemma split_startswith (c : ascii) (s : str) :
  startswith c s = true -> hd [] (split c s) = [].
Proof.
  destruct s as [|x s]; [discriminate|]. simpl. now intros ->.
Qed.

End Formatter.

(** C5 as stated fails: for a key without separator the exception is the
    one of the tuple unpacking in [dumps], not the empty-group error of
    [format_nml]. *)
Lemma dumps_no_separator_counterexample :
  dumps "." [(lit "x", VInt 1)] = Err (UnpackError 2 1)
  /\ dumps "." [(lit "x", VInt 1)] <> Err GroupNotDefined.
Proof. split; [vm_compute; reflexivity | vm_compute; discriminate]. Qed.

(** C5, amended. For every mapping with a key that has no separator or
    an empty group segment, [dumps] raises and returns no text. The
    exception is the empty-group-name error when every key splits into
    exactly two segments; otherwise it is the unpacking error of the
    first key that does not. *)
Theorem dumps_bad_group_raises (sep : ascii) (d : odict value)
  (k : str) (v : value) :
  In (k, v) d ->
  contains sep k = false \/ startswith sep k = true ->
  (exists e, dumps sep d = Err e)
  /\ (Forall (fun kv => List.length (split sep (fst kv)) = 2) d ->
      dumps sep d = Err GroupNotDefined)
  /\ (forall pre k' v' post,
        d = pre ++ (k', v') :: post ->
        Forall (fun kv => List.length (split sep (fst kv)) = 2) pre ->
        List.length (split sep k') <> 2 ->
        dumps sep d = Err (UnpackError 2 (List.length (split sep k')))).
Proof.
  intros Hin Hbad.
  assert (forall pars, mapM (dumps_param sep) d = Ok pars ->
            dumps sep d = Err GroupNotDefined) as Hgrp.
  { intros pars Hp. unfold dumps, format_nml. rewrite Hp. simpl.
    rewrite format_groups_empty_name; [reflexivity|].
    apply mapM_ok_inv in Hp.
    assert (exists p, In p pars /\ dumps_param sep (k, v) = Ok p)
      as (p & Hpin & Hpk).
    { clear Hbad. induction Hp as [|a b l bs Hab _ IH]; [destruct Hin|].
      destruct Hin as [->|Hin].
      - exists b. simpl; auto.
      - destruct (IH Hin) as (p & ? & ?). exists p. simpl; auto. }
    apply dumps_param_ok in Hpk as (Hs & _ & _).
    assert (group p = []) as Eg.
    { destruct Hbad as [Hc|Hs'].
      - rewrite (split_none _ _ Hc) in Hs. discriminate.
      - apply split_startswith in Hs'. rewrite Hs in Hs'. exact Hs'. }
    rewrite <- Eg. now apply groupby_keys. }
  assert (forall l : odict value,
            Forall (fun kv => List.length (split sep (fst kv)) = 2) l ->
            exists pars, mapM (dumps_param sep) l = Ok pars) as Hok.
  { intros l Hl. apply mapM_ok_all. eapply List.Forall_impl; [|exact Hl].
    intros [k0 v0] H0. unfold dumps_param. simpl in *.
    destruct (split sep k0) as [|g [|n [|]]]; simpl in *; congruence. }
  split; [|split].
  - destruct (mapM_first_err (dumps_param sep) d)
      as [[pars Hp]|(pre & a & post & bs & e & _ & _ & _ & He)].
    + exists GroupNotDefined. eauto.
    + exists e. unfold dumps. now rewrite He.
  - intros Hall. destruct (Hok d Hall) as [pars Hp]. eauto.
  - intros pre k' v' post -> Hpre Hk'.
    destruct (Hok pre Hpre) as [bs Hbs].
    unfold dumps.
    rewrite (mapM_app_err _ pre post (k', v') bs _ Hbs
               (dumps_param_err sep k' v' Hk')).
    reflexivity.
Qed.

Lemma dumps_bad_group_raises_witness :
  dumps "." [(lit "a.x", VInt 1); (lit ".y", VInt 2)] = Err GroupNotDefined.
Proof.
  refine (proj1 (proj2 (dumps_bad_group_raises "."
            [(lit "a.x", VInt 1); (lit ".y", VInt 2)] (lit ".y") (VInt 2)
            _ _)) _).
  - simpl. auto.
  - right. reflexivity.
  - repeat constructor.
Defined.

(** ** The line parser *)

Section LineParser.

Lemma split_before_after (c : ascii) (s : str) :
  split c s =
  before c s :: (if contains c s then split c (after c s) else []).
Proof.
  unfold before, after. induction s as [|x s IH]; [reflexivity|].
  rewrite contains_cons. simpl. destruct (Ascii.eqb c x); simpl.
  - reflexivity.
  - rewrite IH. reflexivity.
Qed.

Lemma count_cons (c x : ascii) (s : str) :
  count c (x :: s) = (if Ascii.eqb c x then 1 else 0) + count c s.
Proof.
  unfold count. cbn -[Ascii.eqb]. now destruct (Ascii.eqb c x).
Qed.

Lemma count_zero (c : ascii) (s : str) :
  count c s = 0 -> contains c s = false.
Proof.
  induction s as [|x s IH]; [reflexivity|].
  rewrite contains_cons, count_cons.
  destruct (Ascii.eqb c x); simpl; [discriminate | exact IH].
Qed.

Lemma count_pos (c : ascii) (s : str) :
  0 < count c s -> contains c s = true.
Proof.
  induction s as [|x s IH]; [unfold count; simpl; lia|].
  rewrite contains_cons, count_cons.
  destruct (Ascii.eqb c x); simpl; auto.
Qed.

Lemma count_after (c : ascii) (s : str) :
  count c (after c s) = count c s - 1.
Proof.
  unfold after. induction s as [|x s IH]; [reflexivity|].
  rewrite count_cons. cbn [drop_while].
  destruct (Ascii.eqb c x) eqn:E; simpl; [lia | exact IH].
Qed.

Lemma split_single (c : ascii) (s : str) :
  count c s = 1 -> split c s = [before c s; after c s].
Proof.
  intros H. rewrite split_before_after.
  rewrite count_pos by lia.
  rewrite (split_none c (after c s)); [reflexivity|].
  apply count_zero. rewrite count_after. lia.
Qed.

Lemma _parse_line_split (line : str) :
  _parse_line line =
  match split "=" (working_line line) with
  | [k; v] =>
      let* value := _parse_value (strip v) in
      Ok (strip k, value, line_comment line)
  | parts => Err (UnpackError 2 (List.length parts))
  end.
Proof.
  unfold _parse_line, working_line, line_comment.
  destruct (contains "!" line); reflexivity.
Qed.

End LineParser.

(** C7 as stated fails: a quoted value that contains [=] makes the line
    parser raise the unpacking error of [k, v = line.split('=')]. *)
Lemma parse_line_second_equals_counterexample :
  _parse_line (lit "a = 'x=y'") = Err (UnpackError 2 3)
  /\ _parse_value (lit "'x=y'") = Ok (VStr (lit "x=y")).
Proof. split; vm_compute; reflexivity. Qed.

(** C7, amended. For every logical line whose working text (the text
    before a [!] comment, without a trailing comma) contains exactly one
    [=], the trimmed left side is the name and the trimmed right side is
    what the value grammar receives; the comment is the trimmed text
    after the [!]. *)
Theorem parse_line_single_equals (line : str) :
  count "=" (working_line line) = 1 ->
  _parse_line line =
  let* value := _parse_value (strip (after "=" (working_line line))) in
  Ok (strip (before "=" (working_line line)), value, line_comment line).
Proof.
  intros H. rewrite _parse_line_split, (split_single _ _ H). reflexivity.
Qed.

Lemma parse_line_single_equals_witness :
  _parse_line (lit "a = 1, 2, ! x=y") =
  Ok (lit "a", VList [VInt 1; VInt 2], lit "x=y").
Proof.
  rewrite (parse_line_single_equals (lit "a = 1, 2, ! x=y")).
  - vm_compute. reflexivity.
  - vm_compute. reflexivity.
Defined.

(** ** Ordered dictionaries *)

Section Odict.

Context {V : Type}.
Implicit Types (d : odict V) (k : str) (v : V).

Lemma odict_get_set_same k v d : odict_get k (odict_set k v d) = Some v.
Proof.
  induction d as [|[k' v'] d IH]; simpl.
  - now rewrite eqb_refl.
  - destruct (PyStr.eqb k k') eqn:E; simpl; rewrite E; auto.
Qed.

Lemma odict_get_set_other k k' v d :
  k <> k' -> odict_get k (odict_set k' v d) = odict_get k d.
Proof.
  intros N. apply eqb_neq in N.
  induction d as [|[k0 v0] d IH]; simpl.
  - now rewrite N.
  - destruct (PyStr.eqb k' k0) eqn:E; simpl.
    + apply eqb_eq in E. subst k0. now rewrite N.
    + now rewrite IH.
Qed.

Lemma keys_odict_set k v d :
  keys (odict_set k v d) =
  if in_list k (keys d) then keys d else keys d ++ [k].
Proof.
  unfold keys, in_list. induction d as [|[k' v'] d IH]; simpl; [reflexivity|].
  destruct (PyStr.eqb k k') eqn:E; simpl; [reflexivity|].
  rewrite IH. now destruct (existsb _ _).
Qed.

Lemma in_list_true (k : str) (l : list str) : in_list k l = true <-> In k l.
Proof.
  unfold in_list. rewrite existsb_exists. split.
  - intros (x & Hx & E). apply eqb_eq in E. now subst.
  - intros H. exists k. split; [assumption | apply eqb_refl].
Qed.

Lemma in_list_false (k : str) (l : list str) :
  in_list k l = false <-> ~ In k l.
Proof.
  rewrite <- in_list_true. destruct (in_list k l); split; congruence.
Qed.

Lemma odict_set_nodup k v d : List.NoDup (keys d) -> List.NoDup (keys (odict_set k v d)).
Proof.
  intros H. rewrite keys_odict_set.
  destruct (in_list k (keys d)) eqn:E; [assumption|].
  apply in_list_false in E. apply List.NoDup_app; auto.
  - constructor; [intros []|constructor].
  - intros x Hx [<-|[]]. contradiction.
Qed.

Lemma odict_get_none k d : ~ In k (keys d) -> odict_get k d = None.
Proof.
  induction d as [|[k' v'] d IH]; simpl; [reflexivity|].
  intros N. destruct (PyStr.eqb k k') eqn:E.
  - apply eqb_eq in E. subst k'. tauto.
  - tauto.
Qed.

Lemma odict_get_app k (a b : odict V) :
  odict_get k (a ++ b) =
  match odict_get k a with
  | Some v => Some v
  | None => odict_get k b
  end.
Proof.
  induction a as [|[k' v'] a IH]; simpl; [reflexivity|].
  now destruct (PyStr.eqb k k').
Qed.

Lemma odict_get_in k v d : odict_get k d = Some v -> In (k, v) d.
Proof.
  induction d as [|[k' v'] d IH]; simpl; [discriminate|].
  destruct (PyStr.eqb k k') eqn:E.
  - apply eqb_eq in E. intros [= ->]. subst. auto.
  - auto.
Qed.

(** What [odict(items)] binds a key to is its last item. *)
Lemma odict_fold_get k (items : list (str * V)) (acc : odict V) :
  odict_get k
    (fold_left (fun d kv => odict_set (fst kv) (snd kv) d) items acc) =
  match odict_get k (rev items) with
  | Some v => Some v
  | None => odict_get k acc
  end.
Proof.
  revert acc; induction items as [|[k' v'] items IH]; intros acc;
    [reflexivity|].
  simpl. rewrite IH, odict_get_app. simpl.
  destruct (odict_get k (rev items)); [reflexivity|].
  destruct (PyStr.eqb k k') eqn:E.
  - apply eqb_eq in E. subst. apply odict_get_set_same.
  - apply eqb_neq in E. now apply odict_get_set_other.
Qed.

Lemma odict_fold_nodup (items : list (str * V)) (acc : odict V) :
  List.NoDup (keys acc) ->
  List.NoDup (keys (fold_left (fun d kv => odict_set (fst kv) (snd kv) d)
                 items acc)).
Proof.
  revert acc; induction items as [|[k' v'] items IH]; intros acc H;
    [assumption|].
  simpl. apply IH. now apply odict_set_nodup.
Qed.

Lemma odict_of_list_nodup (items : list (str * V)) :
  List.NoDup (keys (odict_of_list items)).
Proof. apply odict_fold_nodup. constructor. Qed.

Lemma odict_of_list_last (pre post : list (str * V)) k v :
  ~ In k (keys post) ->
  odict_get k (odict_of_list (pre ++ (k, v) :: post)) = Some v.
Proof.
  intros N. unfold odict_of_list. rewrite odict_fold_get.
  rewrite rev_app_distr. simpl. rewrite <- app_assoc, odict_get_app.
  rewrite odict_get_none.
  - simpl. now rewrite eqb_refl.
  - unfold keys. rewrite map_rev. now rewrite <- in_rev.
Qed.

(** A dictionary without repeated keys is what [odict] makes of its own
    items. *)
Lemma odict_fold_fresh (items : list (str * V)) (acc : odict V) :
  List.NoDup (keys (acc ++ items)) ->
  fold_left (fun d kv => odict_set (fst kv) (snd kv) d) items acc
  = acc ++ items.
Proof.
  revert acc; induction items as [|[k v] items IH]; intros acc H; simpl.
  - now rewrite app_nil_r.
  - assert (odict_set k v acc = acc ++ [(k, v)]) as ->.
    { assert (~ In k (keys acc)) as N.
      { unfold keys in *. rewrite map_app in H. simpl in H.
        apply NoDup_remove_2 in H. rewrite in_app_iff in H. tauto. }
      clear H IH. induction acc as [|[k' v'] acc IHa]; [reflexivity|].
      simpl in *. destruct (PyStr.eqb k k') eqn:E.
      - apply eqb_eq in E. subst. tauto.
      - rewrite IHa; tauto. }
    rewrite IH; rewrite <- app_assoc; [reflexivity | exact H].
Qed.

Lemma odict_of_list_fresh (items : list (str * V)) :
  List.NoDup (keys items) -> odict_of_list items = items.
Proof. intros H. now apply (odict_fold_fresh items []). Qed.

Lemma filter_eqb_absent (k : str) (l : list str) :
  ~ In k l -> List.filter (PyStr.eqb k) l = [].
Proof.
  induction l as [|y l IH]; [reflexivity|]. cbn [List.filter In]. intros N.
  destruct (PyStr.eqb k y) eqn:E.
  - apply eqb_eq in E. subst y. tauto.
  - apply IH. tauto.
Qed.

Lemma nodup_count_one (k : str) (l : list str) :
  List.NoDup l -> In k l -> List.length (List.filter (PyStr.eqb k) l) = 1.
Proof.
  intros Hl. induction Hl as [|x l Hx Hl IH]; [intros []|].
  cbn [List.filter In]. destruct (PyStr.eqb k x) eqn:E.
  - apply eqb_eq in E. subst x. intros _.
    now rewrite filter_eqb_absent.
  - apply eqb_neq in E. intros [->|H]; [congruence | auto].
Qed.

End Odict.

(** C9. When the same flattened key arises more than once in a document
    (a name repeated in a group, or a group opened twice), the mapping
    [loads] returns holds that key exactly once, bound to the value of
    its last occurrence in text order. *)
Theorem loads_last_occurrence_wins (sep : ascii) (text : str)
  (pre post : list ParamNml) (p : ParamNml) :
  parse_nml text = Ok (pre ++ p :: post) ->
  Forall (fun q => flat_key sep q <> flat_key sep p) post ->
  exists m,
    loads sep text = Ok m
    /\ List.NoDup (keys m)
    /\ List.length (List.filter (PyStr.eqb (flat_key sep p)) (keys m)) = 1
    /\ odict_get (flat_key sep p) m = Some (pvalue p).
Proof.
  intros Hp Hpost. unfold loads. rewrite Hp. simpl.
  eexists. split; [reflexivity|].
  assert (odict_get (flat_key sep p)
            (odict_of_list
               (map (fun q => (flat_key sep q, pvalue q)) (pre ++ p :: post)))
          = Some (pvalue p)) as G.
  { rewrite map_app. simpl. apply odict_of_list_last.
    unfold keys. rewrite map_map. simpl. rewrite in_map_iff.
    intros (q & Hq & Hin). rewrite List.Forall_forall in Hpost.
    now apply (Hpost q Hin). }
  split; [apply odict_of_list_nodup|]. split; [|exact G].
  apply nodup_count_one; [apply odict_of_list_nodup|].
  apply odict_get_in in G. apply (in_map fst) in G. exact G.
Qed.

Lemma loads_last_occurrence_wins_witness :
  exists m,
    loads "." (lit "&g" ++ NL :: lit "a = 1" ++ NL :: lit "b = 5" ++ NL ::
               lit "a = 2" ++ NL :: lit "/" ++ NL ::
               lit "&g" ++ NL :: lit "a = 3" ++ NL :: lit "/") = Ok m
    /\ List.NoDup (keys m)
    /\ List.length (List.filter (PyStr.eqb (lit "g.a")) (keys m)) = 1
    /\ odict_get (lit "g.a") m = Some (VInt 3).
Proof.
  apply (loads_last_occurrence_wins "." _
           [mkParamNml (lit "g") (lit "a") (VInt 1) (Some []);
            mkParamNml (lit "g") (lit "b") (VInt 5) (Some []);
            mkParamNml (lit "g") (lit "a") (VInt 2) (Some [])]
           []
           (mkParamNml (lit "g") (lit "a") (VInt 3) (Some []))).
  - vm_compute. reflexivity.
  - constructor.
Defined.

(** ** Group aliases: [param_map_groups] *)

Section MapGroups.

Lemma before_after (c : ascii) (s : str) :
  contains c s = true -> s = before c s ++ c :: after c s.
Proof.
  unfold before, after. induction s as [|x s IH]; [discriminate|].
  rewrite contains_cons. cbn [take_while drop_while].
  destruct (Ascii.eqb c x) eqn:E; simpl.
  - apply Ascii.eqb_eq in E. now subst.
  - intros H. now rewrite <- IH.
Qed.

Lemma before_contains (c : ascii) (s : str) : contains c (before c s) = false.
Proof.
  unfold before. induction s as [|x s IH]; [reflexivity|].
  cbn [take_while]. destruct (Ascii.eqb c x) eqn:E; cbn [negb];
    [reflexivity|].
  now rewrite contains_cons, E.
Qed.

(** Every key with a [.] is a first segment, a second segment and a
    rest that is empty or starts with a further [.]. *)
Lemma key_segments (k : str) :
  contains "." k = true ->
  exists g p rest,
    k = g ++ "." :: p ++ rest
    /\ contains "." g = false /\ contains "." p = false
    /\ (rest = [] \/ startswith "." rest = true).
Proof.
  intros H. exists (before "." k), (before "." (after "." k)).
  destruct (contains "." (after "." k)) eqn:E.
  - exists ("." :: after "." (after "." k)).
    rewrite <- (before_after _ _ E), <- (before_after _ _ H).
    repeat split; try apply before_contains. now right.
  - exists []. rewrite app_nil_r.
    assert (before "." (after "." k) = after "." k) as ->.
    { pose proof (split_none _ _ E) as S.
      rewrite split_before_after in S. now injection S. }
    rewrite <- (before_after _ _ H).
    repeat split; auto. apply before_contains.
Qed.

Lemma map_group_key_segments (grp_aliases : gmap str str) (g p rest : str) :
  contains "." g = false -> contains "." p = false ->
  rest = [] \/ startswith "." rest = true ->
  map_group_key grp_aliases (g ++ "." :: p ++ rest)
  = alias_of grp_aliases g ++ "." :: p.
Proof.
  intros Hg Hp Hr. unfold map_group_key, alias_of.
  rewrite contains_app, contains_cons, Ascii.eqb_refl, orb_true_r.
  rewrite (split_app _ _ _ Hg). cbn [nth].
  destruct Hr as [->|Hr].
  - rewrite app_nil_r, (split_none _ _ Hp). reflexivity.
  - destruct rest as [|x rest]; [discriminate|]. simpl in Hr.
    apply Ascii.eqb_eq in Hr. subst x.
    rewrite (split_app _ _ _ Hp). reflexivity.
Qed.

Lemma map_group_key_no_dot (grp_aliases : gmap str str) (k : str) :
  contains "." k = false -> map_group_key grp_aliases k = k.
Proof. intros H. unfold map_group_key. now rewrite H. Qed.

Lemma param_map_groups_odict (params : odict value)
  (grp_aliases : gmap str str) :
  param_map_groups params grp_aliases =
  odict_of_list
    (map (fun kv => (map_group_key grp_aliases (fst kv), snd kv)) params).
Proof.
  unfold param_map_groups, odict_of_list. generalize (@nil (str * value)).
  induction params as [|[k v] params IH]; intros acc; [reflexivity|].
  simpl. apply IH.
Qed.

Lemma odict_set_in {V} (k k' : str) (v v' : V) (d : odict V) :
  In (k', v') (odict_set k v d) -> In (k', v') d \/ (k', v') = (k, v).
Proof.
  induction d as [|[k0 v0] d IH]; simpl.
  - intros [E|[]]. now right.
  - destruct (PyStr.eqb k k0) eqn:E.
    + apply eqb_eq in E. subst k0. intros [<-|H]; auto.
    + intros [<-|H]; auto. destruct (IH H); auto.
Qed.

Lemma odict_of_list_in {V} (items : list (str * V)) (k : str) (v : V) :
  In (k, v) (odict_of_list items) -> In (k, v) items.
Proof.
  unfold odict_of_list.
  assert (forall acc,
            In (k, v) (fold_left (fun d kv => odict_set (fst kv) (snd kv) d)
                         items acc) ->
            In (k, v) acc \/ In (k, v) items) as G.
  { induction items as [|[k0 v0] items IH]; intros acc; simpl; [auto|].
    intros H. destruct (IH _ H) as [H1|H1]; [|auto].
    destruct (odict_set_in _ _ _ _ _ H1) as [?|E]; auto. }
  intros H. destruct (G [] H) as [[]|?]. assumption.
Qed.

End MapGroups.

(** C10 as stated fails: not all values pass through. Two keys that
    agree on their first two segments are rewritten to one key, and the
    value of the first of them is in the result under no key. *)
Lemma param_map_groups_collision_counterexample :
  param_map_groups [(lit "a.b.c", VInt 1); (lit "a.b.d", VInt 2)] ∅
  = [(lit "a.b", VInt 2)]
  /\ forall k,
       odict_get k
         (param_map_groups [(lit "a.b.c", VInt 1); (lit "a.b.d", VInt 2)] ∅)
       <> Some (VInt 1).
Proof.
  assert (param_map_groups [(lit "a.b.c", VInt 1); (lit "a.b.d", VInt 2)] ∅
          = [(lit "a.b", VInt 2)]) as E by (vm_compute; reflexivity).
  split; [exact E|]. intros k. rewrite E. cbn [odict_get].
  destruct (PyStr.eqb k (lit "a.b")); discriminate.
Qed.

(** C10, amended. [param_map_groups] keeps the first two segments of a
    key: a key with a [.] becomes its first segment, replaced by its
    alias when there is one, joined by [.] to its second segment,
    whatever follows a second [.] being dropped; a key without [.] is
    kept. An item whose new key no later item produces is in the result
    under the new key with its own value, and every item of the result
    comes from an item of the input in this way; the value of an item
    whose new key a later item produces again is overwritten. *)
Theorem param_map_groups_first_two_segments (grp_aliases : gmap str str)
  (params pre post : odict value) (k : str) (v : value) :
  params = pre ++ (k, v) :: post ->
  Forall (fun kv => map_group_key grp_aliases (fst kv)
                    <> map_group_key grp_aliases k) post ->
  exists key_new,
    odict_get key_new (param_map_groups params grp_aliases) = Some v
    /\ (contains "." k = false -> key_new = k)
    /\ (contains "." k = true ->
        exists g p rest,
          k = g ++ "." :: p ++ rest
          /\ contains "." g = false /\ contains "." p = false
          /\ (rest = [] \/ startswith "." rest = true)
          /\ key_new = alias_of grp_aliases g ++ "." :: p)
    /\ (forall k' v',
          In (k', v') (param_map_groups params grp_aliases) ->
          exists k0, In (k0, v') params
                     /\ k' = map_group_key grp_aliases k0).
Proof.
  intros -> Hpost. exists (map_group_key grp_aliases k).
  rewrite param_map_groups_odict. repeat split.
  - rewrite map_app. simpl. apply odict_of_list_last.
    unfold keys. rewrite map_map. simpl. rewrite in_map_iff.
    intros (q & Hq & Hin). rewrite List.Forall_forall in Hpost.
    now apply (Hpost q Hin).
  - apply map_group_key_no_dot.
  - intros H. destruct (key_segments k H) as (g & p & rest & E & Hg & Hp & Hr).
    exists g, p, rest. repeat split; auto.
    rewrite E at 1. now apply map_group_key_segments.
  - intros k' v' H. apply odict_of_list_in in H.
    apply in_map_iff in H as ([k0 v0] & [= <- <-] & Hin). eauto.
Qed.

Lemma param_map_groups_first_two_segments_witness :
  exists key_new,
    odict_get key_new
      (param_map_groups [(lit "x", VInt 0); (lit "p.b.c", VInt 1)]
         {[ lit "p" := lit "params" ]}) = Some (VInt 1)
    /\ exists g p rest,
         lit "p.b.c" = g ++ "." :: p ++ rest
         /\ contains "." g = false /\ contains "." p = false
         /\ (rest = [] \/ startswith "." rest = true)
         /\ key_new = alias_of {[ lit "p" := lit "params" ]} g ++ "." :: p.
Proof.
  destruct (param_map_groups_first_two_segments
              {[ lit "p" := lit "params" ]}
              [(lit "x", VInt 0); (lit "p.b.c", VInt 1)]
              [(lit "x", VInt 0)] [] (lit "p.b.c") (VInt 1)
              eq_refl (List.Forall_nil _))
    as (key_new & H1 & _ & H3 & _).
  exists key_new. split; [exact H1 | exact (H3 eq_refl)].
Defined.

(** ** The file-level helpers *)

Section Files.

Lemma read_file_fs (path : str) (fs : files) : snd (read_file path fs) = fs.
Proof. unfold read_file. now destruct (fs !! path). Qed.

Lemma load_fs (path : str) (fs : files) : snd (load path fs) = fs.
Proof.
  unfold load, io_bind, read_file, io_lift. now destruct (fs !! path).
Qed.

(** Loading the source files reads only. *)
Lemma io_mapM_load_fs (paths : list str) (fs : files) :
  snd (io_mapM load paths fs) = fs.
Proof.
  induction paths as [|p paths IH]; [reflexivity|].
  simpl. unfold io_bind at 1.
  pose proof (load_fs p fs) as L. destruct (load p fs) as [[d|e] fs1].
  - simpl in L. subst fs1. unfold io_bind, io_ret.
    destruct (io_mapM load paths fs) as [[ds|e] fs2]; simpl in *; assumption.
  - exact L.
Qed.

Lemma param_check_all_fs (params : odict value) (paths : list str)
  (fs : files) : snd (param_check_all params paths fs) = fs.
Proof.
  unfold param_check_all, io_bind.
  pose proof (io_mapM_load_fs paths fs) as L.
  destruct (io_mapM load paths fs) as [[ds|e] fs1]; simpl in L; subst fs1.
  - now destruct (0 <? size _)%nat.
  - reflexivity.
Qed.

Lemma elem_of_missing_from (params : odict value)
  (loaded : list (odict value)) (k : str) :
  k ∈ missing_from params loaded <->
  In k (keys params) /\ forall d, In d loaded -> ~ In k (keys d).
Proof.
  unfold missing_from.
  rewrite elem_of_difference, !elem_of_list_to_set, !list_elem_of_In.
  rewrite in_concat. split.
  - intros [H N]. split; [assumption|]. intros d Hd Hk. apply N.
    exists (keys d). split; [now apply in_map | assumption].
  - intros [H N]. split; [assumption|]. intros (ks & Hks & Hk).
    apply in_map_iff in Hks as (d & <- & Hd). now apply (N d).
Qed.

Lemma param_check_all_missing (params : odict value) (paths : list str)
  (fs : files) (loaded : list (odict value)) (k0 : str) :
  io_mapM load paths fs = (Ok loaded, fs) ->
  k0 ∈ missing_from params loaded ->
  param_check_all params paths fs
  = (Err (MissingParameters (missing_from params loaded) paths), fs).
Proof.
  intros L H. unfold param_check_all, io_bind. rewrite L.
  fold (missing_from params loaded).
  assert (0 < size (missing_from params loaded)) as S.
  { destruct (size (missing_from params loaded)) eqn:E; [|lia].
    apply size_empty_inv in E. apply leibniz_equiv in E.
    rewrite E in H. now apply not_elem_of_empty in H. }
  apply Nat.ltb_lt in S. now rewrite S.
Qed.

End Files.

(** C8. [param_write_to_files] verifies before it writes: when the
    check of the requested keys (after the expansion of group aliases)
    against the source files fails, for whatever reason, the exception
    is passed on and the files are as they were; and when every source
    file has been parsed and some requested key is in none of them, the
    exception is the single missing-parameter error, which carries all
    the requested keys that are in none of the source files and the list
    of the files checked. *)
Theorem param_write_to_files_checks_first (params : odict value)
  (nml_src_paths nml_dst_paths : list str)
  (grp_aliases : option (gmap str str)) (fs : files) :
  let params_mapped := expand_aliases params grp_aliases in
  (forall e fs',
     param_check_all params_mapped nml_src_paths fs = (Err e, fs') ->
     param_write_to_files params nml_src_paths nml_dst_paths grp_aliases fs
     = (Err e, fs))
  /\ (forall loaded k0,
        io_mapM load nml_src_paths fs = (Ok loaded, fs) ->
        In k0 (keys params_mapped) ->
        (forall d, In d loaded -> ~ In k0 (keys d)) ->
        exists missing : gset str,
          param_write_to_files params nml_src_paths nml_dst_paths
            grp_aliases fs
          = (Err (MissingParameters missing nml_src_paths), fs)
          /\ forall k,
               k ∈ missing <->
               In k (keys params_mapped)
               /\ forall d, In d loaded -> ~ In k (keys d)).
Proof.
  intros params_mapped.
  assert (forall e fs',
            param_check_all params_mapped nml_src_paths fs = (Err e, fs') ->
            param_write_to_files params nml_src_paths nml_dst_paths
              grp_aliases fs = (Err e, fs)) as A.
  { intros e fs' H. unfold param_write_to_files.
    fold params_mapped. unfold io_bind at 1. rewrite H.
    pose proof (param_check_all_fs params_mapped nml_src_paths fs) as F.
    rewrite H in F. simpl in F. now subst. }
  split; [exact A|].
  intros loaded k0 L Hin Hno.
  exists (missing_from params_mapped loaded). split.
  - apply (A _ fs). apply (param_check_all_missing _ _ _ _ k0 L).
    now apply elem_of_missing_from.
  - apply elem_of_missing_from.
Qed.

Lemma param_write_to_files_checks_first_witness :
  let fs : files :=
    {[ lit "in.nml" := lit "&g" ++ NL :: lit " a = 1" ++ NL :: lit "/" ]} in
  exists missing : gset str,
    param_write_to_files
      [(lit "g.a", VInt 5); (lit "g.b", VInt 2); (lit "h.c", VInt 3)]
      [lit "in.nml"] [lit "out.nml"] None fs
    = (Err (MissingParameters missing [lit "in.nml"]), fs)
    /\ lit "g.b" ∈ missing /\ lit "h.c" ∈ missing /\ lit "g.a" ∉ missing.
Proof.
  intros fs.
  destruct (param_write_to_files_checks_first
              [(lit "g.a", VInt 5); (lit "g.b", VInt 2); (lit "h.c", VInt 3)]
              [lit "in.nml"] [lit "out.nml"] None fs) as [_ B].
  destruct (B [[(lit "g.a", VInt 1)]] (lit "g.b")) as (missing & E & M).
  - vm_compute. reflexivity.
  - simpl. auto.
  - intros d [<-|[]] [H|[]]. discriminate H.
  - exists missing. split; [exact E|].
    assert (forall k, lit "g.a" <> k ->
              forall d, In d [[(lit "g.a", VInt 1)]] -> ~ In k (keys d)) as N.
    { intros k Hk d [<-|[]] [H|[]]. now apply Hk. }
    repeat split.
    + apply M. split; [simpl; auto | apply N; discriminate].
    + apply M. split; [simpl; auto | apply N; discriminate].
    + intros H. apply M in H as [_ H].
      apply (H [(lit "g.a", VInt 1)]); simpl; auto.
Defined.

(** ** The formatter: one block per group *)

Section Blocks.

Lemma first_seen_in (g : str) (gs : list str) :
  In g (first_seen gs) <-> In g gs.
Proof.
  induction gs as [|h gs IH]; [reflexivity|]. simpl.
  rewrite filter_In, IH. split.
  - intros [?|[? _]]; auto.
  - intros [?|?]; auto.
    destruct (PyStr.eqb h g) eqn:E.
    + apply eqb_eq in E. auto.
    + right. auto.
Qed.

Lemma first_seen_nodup (gs : list str) : List.NoDup (first_seen gs).
Proof.
  induction gs as [|h gs IH]; simpl; constructor.
  - rewrite filter_In. intros [_ E]. now rewrite eqb_refl in E.
  - now apply List.NoDup_filter.
Qed.

Lemma filter_all {A} (f : A -> bool) (l : list A) :
  (forall x, In x l -> f x = true) -> List.filter f l = l.
Proof.
  induction l as [|x l IH]; [reflexivity|]. intros H. cbn [List.filter].
  rewrite (H x (or_introl eq_refl)), IH; [reflexivity|].
  intros y Hy. apply H. now right.
Qed.

Lemma filter_none {A} (f : A -> bool) (l : list A) :
  (forall x, In x l -> f x = false) -> List.filter f l = [].
Proof.
  induction l as [|x l IH]; [reflexivity|]. intros H. cbn [List.filter].
  rewrite (H x (or_introl eq_refl)), IH; [reflexivity|].
  intros y Hy. apply H. now right.
Qed.

Lemma filter_idem {A} (f : A -> bool) (l : list A) :
  List.filter f (List.filter f l) = List.filter f l.
Proof.
  apply filter_all. intros x Hx. now apply filter_In in Hx.
Qed.

Lemma records_of_cons (g : str) (x : ParamNml) (l : list ParamNml) :
  records_of g (x :: l) =
  if PyStr.eqb (group x) g then x :: records_of g l else records_of g l.
Proof. reflexivity. Qed.

Lemma records_of_other (g : str) (x : ParamNml) (l : list ParamNml) :
  g <> group x -> records_of g (x :: l) = records_of g l.
Proof.
  intros N. rewrite records_of_cons.
  assert (PyStr.eqb (group x) g = false) as ->; [|reflexivity].
  apply eqb_neq. congruence.
Qed.

Lemma groupby_contiguous (pars : list ParamNml) :
  contiguous (map group pars) = true -> groupby group pars = groups_of pars.
Proof.
  unfold groups_of.
  induction pars as [|x pars IH]; [reflexivity|].
  cbn [map contiguous]. intros H. apply andb_true_iff in H as [H1 H2].
  specialize (IH H2). cbn [groupby]. rewrite IH.
  destruct pars as [|y pars].
  { cbn [map first_seen List.filter]. now rewrite records_of_cons, eqb_refl. }
  cbn [map first_seen] in *.
  set (rest := List.filter (fun h => negb (PyStr.eqb (group y) h))
                 (first_seen (map group pars))) in *.
  assert (forall g, In g rest -> g <> group y) as Hrest.
  { intros g Hg. apply filter_In in Hg as [_ E].
    apply negb_true_iff, eqb_neq in E. congruence. }
  destruct (PyStr.eqb (group x) (group y)) eqn:E.
  - apply eqb_eq in E. rewrite E in *.
    cbn [List.filter]. rewrite eqb_refl. cbn [negb].
    assert (List.filter (fun h => negb (PyStr.eqb (group y) h)) rest = rest)
      as -> by apply filter_idem.
    f_equal.
    + now rewrite (records_of_cons _ x), E, eqb_refl.
    + apply map_ext_in. intros g Hg. f_equal. symmetry.
      apply records_of_other. rewrite E. now apply Hrest.
  - cbn [skip_run] in H1. rewrite E in H1.
    apply negb_true_iff, in_list_false in H1.
    cbn [negb List.filter]. rewrite E. cbn [negb map].
    assert (forall g, In g rest -> g <> group x) as Hx.
    { intros g Hg Eg. subst g. apply H1. right.
      apply filter_In in Hg as [Hg _].
      exact (proj1 (first_seen_in _ _) Hg). }
    rewrite filter_all.
    2:{ intros g Hg. apply negb_true_iff, eqb_neq. intros Eg.
        now apply (Hx _ Hg). }
    assert (records_of (group x) (x :: y :: pars) = [x]) as ->.
    { rewrite records_of_cons, eqb_refl. f_equal.
      apply filter_none. intros p Hp. apply eqb_neq. intros Ep.
      apply H1. rewrite <- Ep. now apply (in_map group) in Hp. }
    f_equal. f_equal.
    + f_equal. symmetry. apply records_of_other.
      apply eqb_neq in E. congruence.
    + apply map_ext_in. intros g Hg. f_equal. symmetry.
      apply records_of_other. now apply Hx.
Qed.

Lemma format_groups_ok (groups : list (str * list ParamNml))
  (lines : list str) :
  Forall (fun g => fst g <> []) groups ->
  format_groups groups lines =
  Ok (lines ++ flat_map (fun g => block_lines (fst g) (snd g)) groups).
Proof.
  intros H. revert lines.
  induction H as [|[g ps] groups Hg _ IH]; intros lines; simpl.
  - now rewrite app_nil_r.
  - apply eqb_neq in Hg. simpl in Hg. rewrite Hg, IH.
    f_equal. rewrite <- app_assoc. reflexivity.
Qed.

Lemma mapM_dumps_param (sep : ascii) (d : odict value) :
  Forall (fun kv => count sep (fst kv) = 1) d ->
  mapM (dumps_param sep) d = Ok (map (record_of sep) d).
Proof.
  induction 1 as [|[k v] d Hk _ IH]; [reflexivity|].
  simpl. rewrite IH. unfold dumps_param. simpl in *.
  now rewrite (split_single _ _ Hk).
Qed.

End Blocks.

Lemma format_param_not_nil (p : ParamNml) : format_param p <> [].
Proof.
  unfold format_param.
  assert (forall s, ljust 30 (lit " " ++ s) <> []) as L by (intros s; discriminate).
  destruct (pvalue p); destruct (help p) as [[|c h]|];
    try apply L; intros E; apply app_eq_nil in E as [E _];
    revert E; apply L.
Qed.

(** C4 as stated fails: no blank line separates two blocks (the line
    after [/] is the next header), and when the keys of a group are not
    next to each other the group gets a block for each run of them. *)
Lemma dumps_blocks_counterexample :
  dumps "." [(lit "a.x", VInt 1); (lit "b.y", VInt 2)]
  = Ok (join [NL]
          [lit "&a"; lit " x               = 1          "; lit "/";
           lit "&b"; lit " y               = 2          "; lit "/"; []])
  /\ dumps "." [(lit "a.x", VInt 1); (lit "b.y", VInt 2); (lit "a.z", VInt 3)]
     = Ok (join [NL]
             [lit "&a"; lit " x               = 1          "; lit "/";
              lit "&b"; lit " y               = 2          "; lit "/";
              lit "&a"; lit " z               = 3          "; lit "/"; []]).
Proof. split; vm_compute; reflexivity. Qed.

(** C4, amended. For every mapping whose keys each hold the separator
    once, after a group segment that is not empty, and whose keys of one
    group are next to each other, [dumps] emits exactly one block per
    distinct group name, in the order the groups are first seen, each
    with the header [&GROUP], the lines of all the records of that
    group and the terminator [/]; the lines are joined by single line
    breaks, so no blank line stands between two blocks. *)
Theorem dumps_one_block_per_group (sep : ascii) (d : odict value) :
  let pars := map (record_of sep) d in
  let groups := first_seen (map group pars) in
  let lines := flat_map (fun g => block_lines g (records_of g pars)) groups in
  Forall (fun kv => count sep (fst kv) = 1 /\ before sep (fst kv) <> []) d ->
  contiguous (map group pars) = true ->
  dumps sep d = Ok (join [NL] lines ++ [NL])
  /\ List.NoDup groups
  /\ (forall p, In p pars ->
        In (group p) groups /\ In p (records_of (group p) pars))
  /\ Forall (fun line => line <> []) lines.
Proof.
  intros pars groups lines Hd Hc. repeat split.
  - unfold dumps. rewrite mapM_dumps_param.
    2:{ eapply List.Forall_impl; [|exact Hd]. now intros kv [? _]. }
    cbn [bind]. fold pars. unfold format_nml.
    rewrite (groupby_contiguous pars Hc), format_groups_ok.
    + cbn [bind app]. unfold groups_of.
      rewrite flat_map_concat_map, map_map.
      cbn [fst snd]. rewrite <- flat_map_concat_map. reflexivity.
    + unfold groups_of. apply List.Forall_forall. intros [g ps] Hg.
      apply in_map_iff in Hg as (g' & [= <- <-] & Hg).
      apply first_seen_in, in_map_iff in Hg as (p & <- & Hp).
      subst pars. apply in_map_iff in Hp as (kv & <- & Hkv).
      rewrite List.Forall_forall in Hd. now apply (Hd kv).
  - apply first_seen_nodup.
  - apply first_seen_in. now apply in_map.
  - apply filter_In. split; [assumption | apply eqb_refl].
  - apply List.Forall_forall. intros line Hl. subst lines.
    apply in_flat_map in Hl as (g & _ & Hl). unfold block_lines in Hl.
    destruct Hl as [<-|Hl]; [discriminate|].
    apply in_app_iff in Hl as [Hl|[<-|[]]]; [|discriminate].
    apply in_map_iff in Hl as (p & <- & _). apply format_param_not_nil.
Qed.

Lemma dumps_one_block_per_group_witness :
  dumps "." [(lit "a.x", VInt 1); (lit "a.z", VInt 3); (lit "b.y", VInt 2)]
  = Ok (join [NL]
          [lit "&a"; lit " x               = 1          ";
           lit " z               = 3          "; lit "/";
           lit "&b"; lit " y               = 2          "; lit "/"]
        ++ [NL]).
Proof.
  refine (proj1 (dumps_one_block_per_group "."
            [(lit "a.x", VInt 1); (lit "a.z", VInt 3); (lit "b.y", VInt 2)]
            _ _)).
  - repeat constructor; discriminate.
  - reflexivity.
Defined.

(** ** Numbers and their texts *)

Section Numbers.

Lemma digit_val_char (d : N) : (d < 10)%N -> digit_val (digit_char d) = d.
Proof.
  intros H. unfold digit_val, digit_char, code.
  rewrite N_ascii_embedding by lia. lia.
Qed.

Lemma is_digit_char (d : N) : (d < 10)%N -> is_digit (digit_char d) = true.
Proof.
  intros H. unfold is_digit, digit_char, code.
  rewrite N_ascii_embedding by lia.
  apply andb_true_iff. split; apply N.leb_le; lia.
Qed.

Lemma repr_N_fuel_value (fuel : nat) (n : N) (acc : str) :
  (n < 2 ^ N.of_nat fuel)%N ->
  fold_left dstep (repr_N_fuel fuel n acc) 0%N = fold_left dstep acc n.
Proof.
  revert n acc. induction fuel as [|fuel IH]; intros n acc H.
  - simpl in *. assert (n = 0%N) as -> by lia. reflexivity.
  - cbn [repr_N_fuel].
    assert (n mod 10 < 10)%N as M by (apply N.mod_lt; lia).
    pose proof (N.div_mod n 10 ltac:(lia)) as D.
    destruct (n <? 10)%N eqn:E.
    + apply N.ltb_lt in E. cbn [fold_left]. unfold dstep at 2.
      rewrite digit_val_char, N.mod_small by assumption. reflexivity.
    + apply N.ltb_ge in E. rewrite IH.
      * cbn [fold_left]. unfold dstep at 2.
        rewrite digit_val_char by assumption. f_equal. lia.
      * rewrite Nat2N.inj_succ, N.pow_succ_r' in H.
        assert (n / 10 <= n / 2)%N.
        { apply N.div_le_compat_l. lia. }
        assert (n / 2 < 2 ^ N.of_nat fuel)%N.
        { apply N.Div0.div_lt_upper_bound. lia. }
        lia.
Qed.

Lemma repr_N_fuel_digits (fuel : nat) (n : N) (acc : str) :
  Forall (fun c => is_digit c = true) acc ->
  Forall (fun c => is_digit c = true) (repr_N_fuel fuel n acc).
Proof.
  revert n acc. induction fuel as [|fuel IH]; intros n acc H; [assumption|].
  cbn [repr_N_fuel].
  assert (Forall (fun c => is_digit c = true) (digit_char (n mod 10) :: acc)).
  { constructor; [|assumption]. apply is_digit_char. apply N.mod_lt. lia. }
  destruct (n <? 10)%N; auto.
Qed.

Lemma repr_N_fuel_not_nil (fuel : nat) (n : N) (acc : str) :
  repr_N_fuel (S fuel) n acc <> [].
Proof.
  revert n acc. induction fuel as [|fuel IH]; intros n acc.
  - simpl. destruct (n <? 10)%N; discriminate.
  - change (repr_N_fuel (S (S fuel)) n acc)
      with (if (n <? 10)%N then digit_char (n mod 10) :: acc
            else repr_N_fuel (S fuel) (n / 10) (digit_char (n mod 10) :: acc)).
    destruct (n <? 10)%N; [discriminate | apply IH].
Qed.

Lemma repr_N_digits (n : N) : Forall (fun c => is_digit c = true) (repr_N n).
Proof. apply repr_N_fuel_digits. constructor. Qed.

Lemma repr_N_not_nil (n : N) : repr_N n <> [].
Proof. apply repr_N_fuel_not_nil. Qed.

Lemma repr_N_value (n : N) : digits_value (repr_N n) = n.
Proof.
  unfold digits_value, repr_N.
  change (fold_left dstep (repr_N_fuel (S (N.to_nat (N.log2 n))) n []) 0%N = n).
  rewrite repr_N_fuel_value; [reflexivity|].
  rewrite Nat2N.inj_succ, N2Nat.id.
  destruct n as [|p]; [reflexivity|].
  apply N.log2_spec. lia.
Qed.

Lemma digitpart_aux_digits (b : bool) (ds : str) :
  Forall (fun c => is_digit c = true) ds ->
  ds <> [] \/ b = true ->
  digitpart_aux b ds = Some ds.
Proof.
  intros H. revert b. induction H as [|c ds Hc _ IH]; intros b Hb.
  - destruct Hb as [? | ->]; [congruence | reflexivity].
  - simpl. rewrite Hc, IH; [reflexivity | now right].
Qed.

Lemma is_digit_not_space (c : ascii) : is_digit c = true -> is_space c = false.
Proof.
  unfold is_digit, is_space. intros H.
  apply andb_true_iff in H as [H1 H2].
  apply N.leb_le in H1, H2.
  repeat (apply orb_false_iff; split);
    try (apply andb_false_iff; (left; apply N.leb_gt; lia)
                               || (right; apply N.leb_gt; lia));
    apply N.eqb_neq; lia.
Qed.

End Numbers.

Section Trimming.

Lemma drop_while_app (p : ascii -> bool) (a b : str) :
  drop_while p (a ++ b) =
  if forallb p a then drop_while p b else drop_while p a ++ b.
Proof.
  induction a as [|x a IH]; [reflexivity|]. simpl.
  destruct (p x); [exact IH | reflexivity].
Qed.

Lemma drop_while_all (p : ascii -> bool) (a : str) :
  forallb p a = true -> drop_while p a = [].
Proof.
  induction a as [|x a IH]; [reflexivity|]. simpl.
  destruct (p x); [exact IH | discriminate].
Qed.

Lemma forallb_rev (p : ascii -> bool) (a : str) :
  forallb p (rev a) = forallb p a.
Proof.
  induction a as [|x a IH]; [reflexivity|]. simpl.
  rewrite forallb_app, IH. simpl. rewrite andb_true_r. apply andb_comm.
Qed.

(** White space around a text does not survive [strip]. *)
Lemma strip_pad (a b s : str) :
  forallb is_space a = true -> forallb is_space b = true ->
  strip (a ++ s ++ b) = strip s.
Proof.
  intros Ha Hb. unfold strip, lstrip, rstrip.
  rewrite drop_while_app, Ha, drop_while_app.
  destruct (forallb is_space s) eqn:Hs.
  - rewrite (drop_while_all _ b Hb), (drop_while_all _ s Hs). reflexivity.
  - rewrite rev_app_distr, drop_while_app, forallb_rev, Hb. reflexivity.
Qed.

Lemma strip_pad_l (a s : str) :
  forallb is_space a = true -> strip (a ++ s) = strip s.
Proof.
  intros Ha. rewrite <- (app_nil_r s) at 1. now apply strip_pad.
Qed.

Lemma strip_pad_r (b s : str) :
  forallb is_space b = true -> strip (s ++ b) = strip s.
Proof. intros Hb. now apply (strip_pad [] b s). Qed.

Lemma drop_while_start (s : str) :
  starts_space s = false -> drop_while is_space s = s.
Proof. destruct s as [|c s]; [reflexivity|]. simpl. now intros ->. Qed.

Lemma strip_trimmed (s : str) : trimmed s = true -> strip s = s.
Proof.
  unfold trimmed. intros H. apply andb_true_iff in H as [H1 H2].
  apply negb_true_iff in H1, H2. unfold strip, lstrip, rstrip.
  rewrite (drop_while_start s H1), (drop_while_start _ H2).
  apply rev_involutive.
Qed.

Lemma drop_while_trimmed (s : str) :
  starts_space (drop_while is_space s) = false.
Proof.
  induction s as [|c s IH]; [reflexivity|]. simpl.
  destruct (is_space c) eqn:E; [exact IH | simpl; exact E].
Qed.

Lemma drop_while_rev_start (s : str) :
  starts_space s = false ->
  starts_space (rev (drop_while is_space (rev s))) = false.
Proof.
  intros H. destruct s as [|c s]; [reflexivity|]. simpl in H.
  simpl. rewrite drop_while_app.
  destruct (forallb is_space (rev s)).
  - simpl. rewrite H. simpl. exact H.
  - rewrite rev_app_distr. simpl. exact H.
Qed.

Lemma strip_is_trimmed (s : str) : trimmed (strip s) = true.
Proof.
  unfold trimmed, strip, rstrip, lstrip. apply andb_true_iff. split;
    apply negb_true_iff.
  - apply drop_while_rev_start, drop_while_trimmed.
  - rewrite rev_involutive. apply drop_while_trimmed.
Qed.

Lemma strip_idem (s : str) : strip (strip s) = strip s.
Proof. apply strip_trimmed, strip_is_trimmed. Qed.

Lemma strip_in (c : ascii) (s : str) : In c (strip s) -> In c s.
Proof.
  assert (forall p t, In c (drop_while p t) -> In c t) as D.
  { intros p t. induction t as [|x t IH]; [auto|]. simpl.
    destruct (p x); [right; auto | auto]. }
  unfold strip, rstrip, lstrip. intros H.
  apply in_rev, D, in_rev, D in H. exact H.
Qed.

(** The white space of [int()] and [float()] is white space of
    [strip]: what [strip] keeps, the numbers see. *)
Lemma is_num_space_space (c : ascii) :
  is_num_space c = true -> is_space c = true.
Proof.
  destruct c as [[] [] [] [] [] [] [] []]; try discriminate; reflexivity.
Qed.

Lemma drop_while_in (p : ascii -> bool) (c : ascii) (t : str) :
  In c (drop_while p t) -> In c t.
Proof.
  induction t as [|x t IH]; [auto|]. simpl.
  destruct (p x); [right; auto | auto].
Qed.

Lemma drop_while_suffix (q : ascii -> bool) (s : str) :
  exists pre, s = pre ++ drop_while q s.
Proof.
  induction s as [|y s [pre IH]]; [now exists []|].
  simpl. destruct (q y); [|now exists []].
  exists (y :: pre). simpl. congruence.
Qed.

Lemma drop_while_sub (p q : ascii -> bool) (s : str) :
  (forall c, p c = true -> q c = true) ->
  exists pre, drop_while p s = pre ++ drop_while q s.
Proof.
  intros H. induction s as [|x s [pre IH]]; [now exists []|].
  simpl. destruct (p x) eqn:P.
  - rewrite (H x P). now exists pre.
  - destruct (q x); [|now exists []].
    destruct (drop_while_suffix q s) as [pre' E].
    exists (x :: pre'). simpl. congruence.
Qed.

Lemma drop_while_in_app (p : ascii -> bool) (c : ascii) (a b : str) :
  In c (drop_while p a) -> In c (drop_while p (a ++ b)).
Proof.
  induction a as [|x a IH]; [intros []|]. simpl.
  destruct (p x); [exact IH|]. intros H. simpl in *.
  destruct H as [H|H]; [now left | right; apply in_or_app; now left].
Qed.

Lemma strip_in_num_strip (c : ascii) (s : str) :
  In c (strip s) -> In c (num_strip s).
Proof.
  unfold strip, rstrip, lstrip, num_strip. intros H.
  rewrite <- in_rev in H. rewrite <- in_rev.
  destruct (drop_while_sub is_num_space is_space s is_num_space_space)
    as [pre E].
  rewrite E, rev_app_distr. apply drop_while_in_app.
  destruct (drop_while_sub is_num_space is_space
              (rev (drop_while is_space s)) is_num_space_space) as [pre' E'].
  rewrite E'. apply in_or_app. now right.
Qed.

Lemma num_strip_trimmed (s : str) : trimmed s = true -> num_strip s = s.
Proof.
  intros H. unfold trimmed in H. apply andb_true_iff in H as [H1 H2].
  apply negb_true_iff in H1, H2. unfold num_strip.
  assert (forall t, starts_space t = false -> drop_while is_num_space t = t)
    as D.
  { intros [|x t]; [reflexivity|]. simpl. intros Hx.
    destruct (is_num_space x) eqn:E; [|reflexivity].
    apply is_num_space_space in E. congruence. }
  now rewrite (D s H1), (D (rev s) H2), rev_involutive.
Qed.

Lemma num_strip_blank (w : str) : num_strip (" " :: w) = num_strip w.
Proof. reflexivity. Qed.

Lemma trimmed_app (a b : str) :
  a <> [] -> b <> [] -> starts_space a = false ->
  starts_space (rev b) = false -> trimmed (a ++ b) = true.
Proof.
  intros Ha Hb H1 H2. unfold trimmed. apply andb_true_iff. split;
    apply negb_true_iff.
  - destruct a; [congruence | exact H1].
  - rewrite rev_app_distr. destruct (rev b) eqn:E; [|exact H2].
    apply (f_equal (@rev ascii)) in E. rewrite rev_involutive in E.
    simpl in E. congruence.
Qed.

End Trimming.

Section NumberTexts.

Lemma digitpart_aux_chars (b : bool) (s ds : str) (c : ascii) :
  digitpart_aux b s = Some ds -> In c s -> is_digit c = true \/ c = "_".
Proof.
  revert b ds. induction s as [|x s IH]; intros b ds; [intros _ []|].
  simpl. destruct (is_digit x) eqn:D.
  - destruct (digitpart_aux true s) eqn:E; [|discriminate].
    intros _ [<-|H]; [auto | eauto].
  - destruct (Ascii.eqb x "_") eqn:U; [|discriminate].
    destruct b; [|discriminate]. simpl.
    apply Ascii.eqb_eq in U. intros E [<-|H]; [auto | eauto].
Qed.

Lemma split_sign_chars (t body : str) (neg : bool) (c : ascii) :
  split_sign t = (neg, body) -> In c t -> c = "+" \/ c = "-" \/ In c body.
Proof.
  unfold split_sign. destruct t as [|x t]; [intros _ []|].
  destruct (Ascii.eqb x "+") eqn:P; [apply Ascii.eqb_eq in P; subst x|].
  { intros [= _ <-] [<-|H]; auto. }
  destruct (Ascii.eqb x "-") eqn:M; [apply Ascii.eqb_eq in M; subst x|].
  { intros [= _ <-] [<-|H]; auto. }
  assert (split_sign (x :: t) = (false, x :: t)) as E.
  { destruct x as [[] [] [] [] [] [] [] []]; try reflexivity; discriminate. }
  unfold split_sign in E. rewrite E. intros [= _ <-] H. auto.
Qed.

Lemma py_int_chars (s : str) (z : Z) (c : ascii) :
  py_int s = Some z -> In c (strip s) -> int_char c = true.
Proof.
  intros E H. apply strip_in_num_strip in H. revert E H.
  unfold py_int. destruct (split_sign (num_strip s)) as [neg body] eqn:S.
  destruct (digitpart body) as [ds|] eqn:D; [|discriminate].
  intros _ H. unfold int_char.
  destruct (split_sign_chars _ _ _ _ S H) as [->|[->|Hb]];
    [reflexivity | reflexivity |].
  destruct (digitpart_aux_chars _ _ _ _ D Hb) as [->| ->];
    [reflexivity | apply orb_true_r].
Qed.

(** A character that [int()] does not know, inside the text, makes
    [int()] raise. *)
Lemma py_int_bad_char (s : str) (c : ascii) :
  In c (strip s) -> int_char c = false -> py_int s = None.
Proof.
  intros H N. destruct (py_int s) as [z|] eqn:E; [|reflexivity].
  rewrite (py_int_chars s z c E H) in N. discriminate.
Qed.

Lemma number_chars (mant ds : str) (k : nat) (c : ascii) :
  number mant = Some (ds, k) -> In c mant ->
  is_digit c = true \/ c = "_" \/ c = ".".
Proof.
  unfold number. destruct (contains "." mant) eqn:P.
  - intros E H. rewrite (before_after _ _ P) in H.
    apply in_app_iff in H as [H|[<-|H]]; [|auto|].
    + destruct (before "." mant) as [|a ip] eqn:I; [destruct H|].
      destruct (after "." mant) as [|b fp].
      * destruct (digitpart (a :: ip)) eqn:D; [|discriminate].
        destruct (digitpart_aux_chars _ _ _ _ D H); auto.
      * destruct (digitpart (a :: ip)) eqn:D; [|discriminate].
        destruct (digitpart_aux_chars _ _ _ _ D H); auto.
    + destruct (after "." mant) as [|b fp] eqn:F; [destruct H|].
      destruct (before "." mant) as [|a ip].
      * destruct (digitpart (b :: fp)) eqn:D; [|discriminate].
        destruct (digitpart_aux_chars _ _ _ _ D H); auto.
      * destruct (digitpart (a :: ip)); [|discriminate].
        destruct (digitpart (b :: fp)) eqn:D; [|discriminate].
        destruct (digitpart_aux_chars _ _ _ _ D H); auto.
  - destruct (digitpart mant) eqn:D; [|discriminate].
    intros _ H. destruct (digitpart_aux_chars _ _ _ _ D H); auto.
Qed.

Lemma exponent_chars (ex : str) (e : Z) (c : ascii) :
  exponent ex = Some e -> In c ex ->
  is_digit c = true \/ c = "_" \/ c = "+" \/ c = "-".
Proof.
  unfold exponent. destruct (split_sign ex) as [neg body] eqn:S.
  destruct (digitpart body) as [ds|] eqn:D; [|discriminate].
  intros _ H.
  destruct (split_sign_chars _ _ _ _ S H) as [->|[->|Hb]]; auto.
  destruct (digitpart_aux_chars _ _ _ _ D Hb); auto.
Qed.

Lemma take_drop_while (p : ascii -> bool) (s : str) :
  s = take_while p s ++ drop_while p s.
Proof.
  induction s as [|x s IH]; [reflexivity|]. simpl.
  destruct (p x); [simpl; now rewrite <- IH | reflexivity].
Qed.

Lemma drop_while_head (p : ascii -> bool) (s : str) (x : ascii) (t : str) :
  drop_while p s = x :: t -> p x = false.
Proof.
  induction s as [|y s IH]; [discriminate|]. simpl.
  destruct (p y) eqn:E; [exact IH | now intros [= <- _]].
Qed.

Lemma lower_word_chars (body word : str) (c : ascii) :
  PyStr.eqb (lower body) word = true -> In c body ->
  In (lower_char c) word.
Proof.
  intros E H. apply eqb_eq in E. rewrite <- E. now apply in_map.
Qed.

Lemma py_float_chars (s : str) (x : pyfloat) (c : ascii) :
  py_float s = Some x -> In c (strip s) -> float_char c = true.
Proof.
  intros E H. apply strip_in_num_strip in H. revert E H.
  unfold py_float. destruct (split_sign (num_strip s)) as [neg body] eqn:S.
  intros E H.
  destruct (split_sign_chars _ _ _ _ S H) as [->|[->|Hb]];
    [reflexivity | reflexivity |].
  clear S H. unfold float_char.
  assert (forall word, PyStr.eqb (lower body) (lit word) = true ->
            contains (lower_char c) (lit word) = true) as W.
  { intros word Hw. apply contains_true.
    now apply (lower_word_chars body). }
  destruct (PyStr.eqb (lower body) (lit "inf")) eqn:W1.
  { apply W in W1. apply contains_true in W1. simpl in W1.
    rewrite orb_true_iff. right. apply contains_true. simpl. tauto. }
  destruct (PyStr.eqb (lower body) (lit "infinity")) eqn:W2.
  { apply W in W2. apply contains_true in W2. simpl in W2.
    rewrite orb_true_iff. right. apply contains_true. simpl. tauto. }
  destruct (PyStr.eqb (lower body) (lit "nan")) eqn:W3.
  { apply W in W3. apply contains_true in W3. simpl in W3.
    rewrite orb_true_iff. right. apply contains_true. simpl. tauto. }
  simpl in E.
  rewrite (take_drop_while (fun c => negb (is_e c)) body) in Hb.
  destruct (number (take_while _ body)) as [[ds k]|] eqn:Nm; [|discriminate].
  apply in_app_iff in Hb as [Hb|Hb].
  - destruct (number_chars _ _ _ _ Nm Hb) as [->|[->| ->]]; reflexivity.
  - destruct (drop_while _ body) as [|e0 ex] eqn:R; [destruct Hb|].
    apply drop_while_head in R. apply negb_false_iff in R.
    destruct Hb as [<-|Hb].
    + unfold is_e in R. apply orb_true_iff in R as [R|R];
        apply Ascii.eqb_eq in R; subst e0; reflexivity.
    + destruct (exponent ex) as [e|] eqn:Ex; [|discriminate].
      destruct (exponent_chars _ _ _ Ex Hb) as [->|[->|[->| ->]]];
        reflexivity.
Qed.

Lemma py_float_bad_char (s : str) (c : ascii) :
  In c (strip s) -> float_char c = false -> py_float s = None.
Proof.
  intros H N. destruct (py_float s) as [x|] eqn:E; [|reflexivity].
  rewrite (py_float_chars s x c E H) in N. discriminate.
Qed.

(** A text with a bad character is no boolean word either. *)
Lemma bool_word_chars (s : str) (c : ascii) :
  is_true_word s = true \/ is_false_word s = true -> In c s ->
  contains (lower_char c) (lit ".truefals") = true.
Proof.
  unfold is_true_word, is_false_word, in_list.
  intros H Hc. apply contains_true.
  assert (forall w, PyStr.eqb (lower s) w = true -> In (lower_char c) w) as W.
  { intros w Hw. now apply (lower_word_chars s). }
  simpl in H. rewrite !orb_false_r, !orb_true_iff in H.
  destruct H as [[H|[H|H]]|[H|[H|H]]]; apply W in H; simpl in *; tauto.
Qed.

Lemma not_bool_word (s : str) (c : ascii) :
  In c s -> contains (lower_char c) (lit ".truefals") = false ->
  is_true_word s = false /\ is_false_word s = false.
Proof.
  intros Hc N.
  destruct (is_true_word s) eqn:T.
  { rewrite (bool_word_chars s c (or_introl T) Hc) in N. discriminate. }
  destruct (is_false_word s) eqn:F.
  { rewrite (bool_word_chars s c (or_intror F) Hc) in N. discriminate. }
  auto.
Qed.

End NumberTexts.

Section RepeatCount.

Lemma drop_while_keeps (p : ascii -> bool) (c : ascii) (s : str) :
  In c s -> p c = false -> In c (drop_while p s).
Proof.
  induction s as [|x s IH]; [intros []|]. simpl. intros [->|H] N.
  - rewrite N. now left.
  - destruct (p x); [auto | now right].
Qed.

Lemma in_strip (c : ascii) (s : str) :
  In c s -> is_space c = false -> In c (strip s).
Proof.
  intros H N. unfold strip, rstrip, lstrip.
  apply in_rev. rewrite rev_involutive.
  apply drop_while_keeps; [|exact N]. apply -> in_rev.
  now apply drop_while_keeps.
Qed.

Lemma digits_trimmed (ds : str) :
  Forall (fun c => is_digit c = true) ds -> trimmed ds = true.
Proof.
  intros H. unfold trimmed.
  assert (forall l, Forall (fun c => is_digit c = true) l ->
            starts_space l = false) as S.
  { intros l [|c l' Hc _]; [reflexivity|]. now apply is_digit_not_space. }
  rewrite (S ds H), (S (rev ds)); [reflexivity|].
  now apply Forall_rev.
Qed.

Lemma split_sign_digit (c : ascii) (t : str) :
  is_digit c = true -> split_sign (c :: t) = (false, c :: t).
Proof.
  destruct c as [[] [] [] [] [] [] [] []]; try discriminate; reflexivity.
Qed.

Lemma py_int_digits (ds : str) :
  Forall (fun c => is_digit c = true) ds -> ds <> [] ->
  py_int ds = Some (Z.of_N (digits_value ds)).
Proof.
  intros H N. unfold py_int. rewrite (num_strip_trimmed _ (digits_trimmed _ H)).
  destruct ds as [|c t]; [congruence|].
  rewrite split_sign_digit by (now inversion H).
  unfold digitpart. rewrite digitpart_aux_digits; auto.
Qed.

Lemma py_int_repr_N (n : N) : py_int (repr_N n) = Some (Z.of_N n).
Proof.
  rewrite py_int_digits, repr_N_value;
    [reflexivity | apply repr_N_digits | apply repr_N_not_nil].
Qed.

Lemma py_int_repr_int (z : Z) : py_int (repr_int z) = Some z.
Proof.
  unfold repr_int. destruct (z <? 0)%Z eqn:E.
  - apply Z.ltb_lt in E. unfold py_int.
    pose proof (repr_N_digits (Z.abs_N z)) as D.
    pose proof (repr_N_not_nil (Z.abs_N z)) as N.
    rewrite num_strip_trimmed.
    2:{ apply (trimmed_app ["-"] (repr_N (Z.abs_N z)));
          [discriminate | assumption | reflexivity |].
        pose proof (digits_trimmed _ D) as T. unfold trimmed in T.
        apply andb_true_iff in T as [_ T]. now apply negb_true_iff in T. }
    cbn [split_sign]. unfold digitpart.
    rewrite digitpart_aux_digits, repr_N_value by auto.
    f_equal. lia.
  - apply Z.ltb_ge in E. rewrite py_int_repr_N. f_equal. lia.
Qed.

Lemma _parse_array_app (r : str -> result value) (a b : list str) :
  _parse_array r (a ++ b) =
  let* x := _parse_array r a in
  let* y := _parse_array r b in
  Ok (x ++ y).
Proof.
  induction a as [|v a IH]; simpl.
  - now destruct (_parse_array r b).
  - destruct (parse_token r v) as [h|e]; simpl; [|reflexivity].
    rewrite IH. destruct (_parse_array r a) as [x|e]; simpl; [|reflexivity].
    destruct (_parse_array r b) as [y|e]; simpl; [|reflexivity].
    now rewrite app_assoc.
Qed.

Lemma contains_digits (c : ascii) (ds : str) :
  is_digit c = false -> Forall (fun d => is_digit d = true) ds ->
  contains c ds = false.
Proof.
  intros N H. apply contains_false. intros Hc.
  rewrite List.Forall_forall in H. rewrite (H c Hc) in N. discriminate.
Qed.

(** The token [N*V]: what [parse_token] adds for it. *)
Lemma parse_token_repeat (r : str -> result value) (n : N) (V : str)
  (x : value) :
  contains "*" V = false -> r (strip V) = Ok x ->
  parse_token r (repr_N n ++ "*" :: V) = Ok (repeat x (N.to_nat n)).
Proof.
  intros HV Hr. unfold parse_token.
  rewrite contains_app, contains_cons, Ascii.eqb_refl, orb_true_r.
  rewrite split_app by (apply contains_digits; [reflexivity | apply repr_N_digits]).
  rewrite (split_none _ _ HV), py_int_repr_N, Hr. simpl.
  do 2 f_equal. lia.
Qed.

Lemma split_join_tokens (c : ascii) (l : list str) :
  Forall (fun t => contains c t = false) l -> l <> [] ->
  split c (join [c] l) = l.
Proof.
  induction 1 as [|t l Ht Hl IH]; [congruence|]. intros _.
  destruct l as [|u l]; [now apply split_none|].
  rewrite join_cons2. change ([c] ++ join [c] (u :: l))
    with (c :: join [c] (u :: l)).
  rewrite (split_app _ _ _ Ht), IH; [reflexivity | discriminate].
Qed.

Lemma join_two_contains (c : ascii) (l : list str) :
  (1 < List.length l)%nat -> contains c (join [c] l) = true.
Proof.
  destruct l as [|t [|u l]]; simpl; try lia. intros _.
  now rewrite contains_app, contains_cons, Ascii.eqb_refl, orb_true_r.
Qed.

(** A text with a [,] or a [*] in it is no number and no boolean. *)
Lemma not_scalar (s : str) (c : ascii) :
  In c s -> is_space c = false -> float_char c = false ->
  int_char c = false ->
  contains (lower_char c) (lit ".truefals") = false ->
  py_int s = None /\ py_float s = None
  /\ is_true_word s = false /\ is_false_word s = false.
Proof.
  intros H S F I B. pose proof (in_strip c s H S) as Hs.
  split; [now apply (py_int_bad_char s c)|].
  split; [now apply (py_float_bad_char s c)|].
  now apply (not_bool_word s c).
Qed.

End RepeatCount.

Section ArrayBranches.

(** The branches of [_parse_value] for a text that is no scalar. *)
Lemma parse_value_comma (s : str) :
  py_int s = None -> py_float s = None ->
  is_true_word s = false -> is_false_word s = false ->
  is_quoted s = false -> is_slashed s = false ->
  contains "," s = true ->
  _parse_value s =
  let* l := _parse_array _parse_value (split "," s) in Ok (VList l).
Proof.
  intros H1 H2 H3 H4 H5 H6 H7. rewrite _parse_value_unfold at 1.
  unfold parse_value_body. now rewrite H1, H2, H3, H4, H5, H6, H7.
Qed.

Lemma parse_value_star (s : str) :
  py_int s = None -> py_float s = None ->
  is_true_word s = false -> is_false_word s = false ->
  is_quoted s = false -> is_slashed s = false ->
  contains "," s = false -> contains "*" s = true ->
  _parse_value s =
  let* l := _parse_array _parse_value [s] in Ok (VList l).
Proof.
  intros H1 H2 H3 H4 H5 H6 H7 H8. rewrite _parse_value_unfold at 1.
  unfold parse_value_body. now rewrite H1, H2, H3, H4, H5, H6, H7, H8.
Qed.

Lemma parse_value_ws (s : str) :
  py_int s = None -> py_float s = None ->
  is_true_word s = false -> is_false_word s = false ->
  is_quoted s = false -> is_slashed s = false ->
  contains "," s = false -> contains "*" s = false ->
  (1 < List.length (split_ws s))%nat ->
  _parse_value s =
  let* l := _parse_array _parse_value (split_ws s) in Ok (VList l).
Proof.
  intros H1 H2 H3 H4 H5 H6 H7 H8 H9. apply Nat.ltb_lt in H9.
  rewrite _parse_value_unfold at 1.
  unfold parse_value_body. now rewrite H1, H2, H3, H4, H5, H6, H7, H8, H9.
Qed.

Lemma digit_first (d : ascii) (t : str) :
  is_digit d = true ->
  is_quoted (d :: t) = false /\ is_slashed (d :: t) = false.
Proof.
  intros H. unfold is_quoted, is_slashed, startswith.
  destruct d as [[] [] [] [] [] [] [] []]; try discriminate H; auto.
Qed.

End ArrayBranches.

(** C6 as stated fails: when the repeated value-text holds a comma, the
    comma rule comes first and the count applies to the first piece
    only. *)
Lemma repeat_count_counterexample :
  _parse_value (lit "1,2") = Ok (VList [VInt 1; VInt 2])
  /\ _parse_value (lit "3*1,2") = Ok (VList [VInt 1; VInt 1; VInt 1; VInt 2])
  /\ _parse_value (lit "3*1,2")
     <> Ok (VList (repeat (VList [VInt 1; VInt 2]) 3)).
Proof.
  repeat split; try (vm_compute; reflexivity). vm_compute. discriminate.
Qed.

(** C6, amended. For every count [N] written in decimal digits and
    every value-text [V] without [,] and [*] whose trimmed text the
    value grammar accepts with value [x], the token [N*V] alone parses
    to the list of [N] copies of [x]; inside a comma-separated array the
    token is expanded in place, its [N] copies standing between the
    values of the tokens before and after it. So ["3*4"] is [[4, 4, 4]]
    and [3*"a"] is three copies of the string [a]. *)
Theorem repeat_count_expansion :
  _parse_value (lit "3*4") = Ok (VList [VInt 4; VInt 4; VInt 4])
  /\ _parse_value (lit "3*" ++ DQ :: "a" :: [DQ])
     = Ok (VList (repeat (VStr (lit "a")) 3))
  /\ forall (n : N) (V : str) (x : value),
       contains "," V = false -> contains "*" V = false ->
       _parse_value (strip V) = Ok x ->
       _parse_value (repr_N n ++ "*" :: V)
       = Ok (VList (repeat x (N.to_nat n)))
       /\ forall (pre post : list str) (xs ys : list value),
            Forall (fun t => contains "," t = false) (pre ++ post) ->
            pre ++ post <> [] ->
            _parse_array _parse_value pre = Ok xs ->
            _parse_array _parse_value post = Ok ys ->
            let text := join (lit ",") (pre ++ (repr_N n ++ "*" :: V) :: post) in
            is_quoted text = false -> is_slashed text = false ->
            _parse_value text
            = Ok (VList (xs ++ repeat x (N.to_nat n) ++ ys)).
Proof.
  split; [vm_compute; reflexivity|]. split; [vm_compute; reflexivity|].
  intros n V x HcV HsV Hx.
  set (token := repr_N n ++ "*" :: V).
  pose proof (repr_N_digits n) as D. pose proof (repr_N_not_nil n) as NN.
  assert (contains "," token = false) as Hct.
  { subst token. rewrite contains_app, contains_cons, HcV.
    rewrite contains_digits; [reflexivity | reflexivity | exact D]. }
  assert (parse_token _parse_value token = Ok (repeat x (N.to_nat n))) as Ht
    by now apply parse_token_repeat.
  split.
  - assert (In "*" token) as Hin
      by (subst token; apply in_app_iff; right; now left).
    destruct (not_scalar token "*" Hin eq_refl eq_refl eq_refl eq_refl)
      as (H1 & H2 & H3 & H4).
    assert (is_quoted token = false /\ is_slashed token = false) as [H5 H6].
    { subst token. destruct (repr_N n) as [|d t]; [congruence|].
      apply digit_first. now inversion D. }
    rewrite parse_value_star; auto.
    + simpl. rewrite Ht. simpl. now rewrite app_nil_r.
    + now apply contains_true.
  - intros pre post xs ys Hno Hne Hpre Hpost text Hq Hs.
    set (toks := pre ++ token :: post) in *.
    assert (Forall (fun t => contains "," t = false) toks) as Htoks.
    { subst toks. apply Forall_app in Hno as [? ?].
      apply Forall_app. split; [assumption|]. now constructor. }
    assert (1 < List.length toks)%nat as Hlen.
    { subst toks. rewrite length_app. simpl.
      destruct pre, post; simpl; try lia. now contradict Hne. }
    assert (contains "," text = true) as Hc
      by now apply (join_two_contains ","%char).
    assert (In "," text) as Hin by now apply contains_true.
    destruct (not_scalar text "," Hin eq_refl eq_refl eq_refl eq_refl)
      as (H1 & H2 & H3 & H4).
    rewrite parse_value_comma by assumption.
    subst text. change (lit ",") with [","].
    rewrite split_join_tokens; [|assumption | subst toks; now destruct pre].
    subst toks. rewrite _parse_array_app, Hpre. simpl.
    fold token. rewrite Ht, Hpost. simpl. reflexivity.
Qed.

Lemma repeat_count_expansion_witness :
  _parse_value (lit "3*4") = Ok (VList [VInt 4; VInt 4; VInt 4])
  /\ _parse_value (lit "1,3*4,2")
     = Ok (VList [VInt 1; VInt 4; VInt 4; VInt 4; VInt 2]).
Proof.
  destruct repeat_count_expansion as (_ & _ & G).
  destruct (G 3%N (lit "4") (VInt 4) eq_refl eq_refl) as [A B].
  - vm_compute. reflexivity.
  - split; [exact A|].
    apply (B [lit "1"] [lit "2"] [VInt 1] [VInt 2]).
    + repeat constructor.
    + discriminate.
    + vm_compute. reflexivity.
    + vm_compute. reflexivity.
    + reflexivity.
    + reflexivity.
Defined.

(** ** Round trip: the text of a value *)

Section ValueTexts.

Lemma repr_char_plain (q c : ascii) :
  plain_char c = true -> Ascii.eqb c q = false -> repr_char q c = [c].
Proof.
  unfold plain_char, repr_char. intros H Hq. rewrite Hq.
  apply andb_true_iff in H as [H1 H2].
  apply negb_true_iff in H1, H2.
  apply orb_false_iff in H1 as [H1 H3].
  apply orb_false_iff in H1 as [H1 H4].
  rewrite H3. cbn [contains existsb lit list_ascii_of_string] in H2.
  assert (Ascii.eqb c "\" = false) as ->.
  { apply orb_false_iff in H2 as [H2 _]. exact H2. }
  apply N.ltb_ge in H1. cbn [orb].
  assert ((code c =? 9)%N = false) as -> by (apply N.eqb_neq; lia).
  assert ((code c =? 10)%N = false) as -> by (apply N.eqb_neq; lia).
  assert ((code c =? 13)%N = false) as -> by (apply N.eqb_neq; lia).
  assert ((code c <? 32)%N = false) as -> by (apply N.ltb_ge; lia).
  cbn [orb]. now rewrite H4.
Qed.

Lemma good_str_quote (s : str) :
  good_str s = true -> contains (quote_of s) s = false.
Proof.
  unfold good_str, quote_of. intros H. apply andb_true_iff in H as [_ H].
  apply negb_true_iff in H.
  destruct (contains "'" s) eqn:E1, (contains DQ s) eqn:E2; simpl in *;
    congruence.
Qed.

Lemma repr_str_good (s : str) :
  good_str s = true -> repr_str s = quote_of s :: s ++ [quote_of s].
Proof.
  intros H. pose proof (good_str_quote s H) as Q.
  unfold repr_str. fold (quote_of s). f_equal. f_equal.
  unfold good_str in H. apply andb_true_iff in H as [H _].
  generalize dependent (quote_of s). intros q Q.
  induction s as [|c s IH]; [reflexivity|].
  simpl in H. apply andb_true_iff in H as [Hc Hs].
  rewrite contains_cons in Q. apply orb_false_iff in Q as [Q1 Q2].
  simpl. rewrite repr_char_plain, IH; auto.
  rewrite Ascii.eqb_sym. exact Q1.
Qed.

Lemma quote_of_cases (s : str) : quote_of s = "'" \/ quote_of s = DQ.
Proof. unfold quote_of. destruct (_ && _); auto. Qed.

End ValueTexts.

Section ScalarTexts.

Lemma count_app (c : ascii) (a b : str) :
  count c (a ++ b) = count c a + count c b.
Proof. unfold count. now rewrite List.filter_app, length_app. Qed.

Lemma count_absent (c : ascii) (s : str) :
  contains c s = false -> count c s = 0.
Proof.
  induction s as [|x s IH]; [reflexivity|].
  rewrite contains_cons, count_cons. intros H.
  apply orb_false_iff in H as [-> H]. now rewrite IH.
Qed.

Lemma endswith_app (c : ascii) (s : str) : endswith c (s ++ [c]) = true.
Proof.
  unfold endswith. rewrite rev_app_distr. simpl. apply Ascii.eqb_refl.
Qed.

Lemma inner_quoted (q : ascii) (s : str) : inner (q :: s ++ [q]) = s.
Proof. unfold inner. simpl. apply removelast_last. Qed.

Lemma is_quoted_repr (q : ascii) (s : str) :
  q = "'" \/ q = DQ -> contains q s = false ->
  is_quoted (q :: s ++ [q]) = true.
Proof.
  intros Hq Hs. unfold is_quoted.
  assert (count q (q :: s ++ [q]) = 2) as C.
  { rewrite count_cons, count_app, (count_absent _ _ Hs), Ascii.eqb_refl.
    unfold count. simpl. now rewrite Ascii.eqb_refl. }
  pose proof (endswith_app q s) as E.
  assert (endswith q (q :: s ++ [q]) = true) as E'.
  { unfold endswith in *. simpl. rewrite rev_app_distr. simpl.
    apply Ascii.eqb_refl. }
  destruct Hq as [-> | ->].
  - rewrite E', C. reflexivity.
  - rewrite E', C. cbn [startswith]. rewrite Ascii.eqb_refl. reflexivity.
Qed.

Lemma quoted_trimmed (q : ascii) (s : str) :
  is_space q = false -> trimmed (q :: s ++ [q]) = true.
Proof.
  intros H. unfold trimmed. simpl. rewrite H. simpl.
  rewrite rev_app_distr. simpl. now rewrite H.
Qed.

Lemma digit_props (c : ascii) :
  is_digit c = true -> safe_char c = true /\ word_char c = true.
Proof.
  destruct c as [[] [] [] [] [] [] [] []]; try discriminate; auto.
Qed.

Lemma forallb_digits (p : ascii -> bool) (ds : str) :
  (forall c, is_digit c = true -> p c = true) ->
  Forall (fun c => is_digit c = true) ds -> forallb p ds = true.
Proof.
  intros Hp H. apply forallb_forall. intros c Hc.
  rewrite List.Forall_forall in H. auto.
Qed.

Lemma endswith_digits (c : ascii) (ds : str) :
  is_digit c = false -> Forall (fun d => is_digit d = true) ds ->
  endswith c ds = false.
Proof.
  intros N H. unfold endswith. apply Forall_rev in H.
  destruct (rev ds) as [|x t]; [reflexivity|]. simpl.
  inversion H as [|? ? Hx _]; subst.
  destruct (Ascii.eqb c x) eqn:E; [|reflexivity].
  apply Ascii.eqb_eq in E. subst. congruence.
Qed.

(** The text of an integer. *)
Lemma repr_int_shape (z : Z) :
  exists ds, Forall (fun c => is_digit c = true) ds /\ ds <> []
             /\ (repr_int z = ds \/ repr_int z = "-" :: ds).
Proof.
  exists (repr_N (Z.abs_N z)).
  split; [apply repr_N_digits|]. split; [apply repr_N_not_nil|].
  unfold repr_int. destruct (z <? 0)%Z; auto.
Qed.

Lemma repr_int_forallb (p : ascii -> bool) (z : Z) :
  (forall c, is_digit c = true -> p c = true) -> p "-" = true ->
  forallb p (repr_int z) = true.
Proof.
  intros Hd Hm. destruct (repr_int_shape z) as (ds & D & _ & [-> | ->]).
  - now apply forallb_digits.
  - simpl. rewrite Hm. now apply forallb_digits.
Qed.

Lemma repr_int_trimmed (z : Z) : trimmed (repr_int z) = true.
Proof.
  destruct (repr_int_shape z) as (ds & D & N & [-> | ->]).
  - now apply digits_trimmed.
  - apply (trimmed_app ["-"] ds); [discriminate | assumption | reflexivity |].
    pose proof (digits_trimmed _ D) as T. unfold trimmed in T.
    apply andb_true_iff in T as [_ T]. now apply negb_true_iff in T.
Qed.

Lemma repr_int_safe (z : Z) : safe_text (repr_int z).
Proof.
  destruct (repr_int_shape z) as (ds & D & N & E).
  constructor.
  - apply repr_int_trimmed.
  - destruct E as [-> | ->]; [assumption | discriminate].
  - apply repr_int_forallb; [|reflexivity]. intros c Hc.
    now apply digit_props.
  - destruct E as [-> | ->].
    + now apply endswith_digits.
    + unfold endswith. simpl. pose proof (endswith_digits "," ds eq_refl D) as G.
      unfold endswith in G. destruct (rev ds) as [|x t] eqn:R.
      * apply (f_equal (@rev ascii)) in R. rewrite rev_involutive in R.
        simpl in R. congruence.
      * exact G.
Qed.

Lemma parse_value_int (z : Z) : _parse_value (repr_int z) = Ok (VInt z).
Proof.
  rewrite _parse_value_unfold. unfold parse_value_body.
  now rewrite py_int_repr_int.
Qed.

Lemma parse_value_bool (b : bool) :
  _parse_value (_format_value (VBool b)) = Ok (VBool b).
Proof. destruct b; vm_compute; reflexivity. Qed.

Lemma bool_text_safe (b : bool) : safe_text (_format_value (VBool b)).
Proof. destruct b; constructor; try reflexivity; discriminate. Qed.

Lemma quote_props (q : ascii) :
  q = "'" \/ q = DQ ->
  is_space q = false /\ float_char q = false /\ int_char q = false
  /\ contains (lower_char q) (lit ".truefals") = false
  /\ safe_char q = true /\ word_char q = true
  /\ Ascii.eqb "," q = false /\ Ascii.eqb "/" q = false.
Proof. intros [-> | ->]; repeat split; reflexivity. Qed.

Lemma parse_value_str (s : str) :
  good_str s = true -> _parse_value (repr_str s) = Ok (VStr s).
Proof.
  intros H. rewrite (repr_str_good s H).
  pose proof (good_str_quote s H) as Q.
  pose proof (quote_of_cases s) as C.
  destruct (quote_props _ C) as (P1 & P2 & P3 & P4 & _).
  set (q := quote_of s) in *.
  destruct (not_scalar (q :: s ++ [q]) q (or_introl eq_refl) P1 P2 P3 P4)
    as (H1 & H2 & H3 & H4).
  rewrite _parse_value_unfold. unfold parse_value_body.
  rewrite H1, H2, H3, H4, (is_quoted_repr q s C Q), inner_quoted.
  reflexivity.
Qed.

Lemma plain_safe (c : ascii) : plain_char c = true -> safe_char c = true.
Proof.
  destruct c as [[] [] [] [] [] [] [] []]; try discriminate; reflexivity.
Qed.

Lemma str_text_safe (s : str) : good_str s = true -> safe_text (repr_str s).
Proof.
  intros H. rewrite (repr_str_good s H).
  pose proof (quote_of_cases s) as C.
  destruct (quote_props _ C) as (P1 & _ & _ & _ & P5 & _ & P7 & _).
  set (q := quote_of s) in *. constructor.
  - now apply quoted_trimmed.
  - discriminate.
  - simpl. rewrite P5, forallb_app. simpl. rewrite P5, andb_true_r.
    unfold good_str in H. apply andb_true_iff in H as [H _].
    apply forallb_forall. intros c Hc.
    apply plain_safe. rewrite forallb_forall in H. auto.
  - unfold endswith. simpl. rewrite rev_app_distr. simpl. exact P7.
Qed.

End ScalarTexts.

(** ** Floats *)


Section Binary64.

Local Open Scope Z_scope.

Lemma float_eqb_eq (x y : pyfloat) : float_eqb x y = true -> x = y.
Proof.
  destruct x as [|a|a m e], y as [|b|b m' e']; simpl; try discriminate;
    try reflexivity.
  - intros H. apply Bool.eqb_prop in H. now subst.
  - intros H. apply andb_true_iff in H as [H He].
    apply andb_true_iff in H as [Ha Hm].
    apply Bool.eqb_prop in Ha. apply N.eqb_eq in Hm. apply Z.eqb_eq in He.
    now subst.
Qed.

Lemma round_half_even_scale (c a b : Z) :
  0 < c -> 0 < b -> round_half_even (c * a) (c * b) = round_half_even a b.
Proof.
  intros Hc Hb. unfold round_half_even.
  rewrite Z.div_mul_cancel_l, Z.mul_mod_distr_l by lia.
  replace (2 * (c * (a mod b))) with (c * (2 * (a mod b))) by ring.
  assert ((c * (2 * (a mod b)) <? c * b) = (2 * (a mod b) <? b)) as ->.
  { destruct (Z.ltb_spec (2 * (a mod b)) b);
      [apply Z.ltb_lt | apply Z.ltb_ge]; nia. }
  assert ((c * b <? c * (2 * (a mod b))) = (b <? 2 * (a mod b))) as ->.
  { destruct (Z.ltb_spec b (2 * (a mod b)));
      [apply Z.ltb_lt | apply Z.ltb_ge]; nia. }
  reflexivity.
Qed.

Lemma log2_ratio_scale (c n d : Z) :
  0 < c -> 0 < n -> 0 < d -> log2_ratio (c * n) (c * d) = log2_ratio n d.
Proof.
  intros Hc Hn Hd. unfold log2_ratio.
  assert ((c * d <=? c * n) = (d <=? n)) as ->.
  { destruct (Z.leb_spec d n); [apply Z.leb_le | apply Z.leb_gt]; nia. }
  rewrite Z.div_mul_cancel_l by lia.
  replace (- (c * d)) with (c * (- d)) by ring.
  now rewrite Z.div_mul_cancel_l by lia.
Qed.

Lemma round_ratio_scale (neg : bool) (c n d : Z) :
  0 < c -> 0 <= n -> 0 < d ->
  round_ratio neg (c * n) (c * d) = round_ratio neg n d.
Proof.
  intros Hc Hn Hd. unfold round_ratio.
  destruct (Z.eqb_spec n 0) as [->|N0].
  - now rewrite Z.mul_0_r.
  - assert ((c * n =? 0) = false) as -> by (apply Z.eqb_neq; nia).
    rewrite log2_ratio_scale by lia.
    set (e := Z.max (log2_ratio n d - 52) (-1074)).
    assert (0 < 2 ^ (- e) /\ 0 < 2 ^ e \/ e < 0 /\ 0 < 2 ^ (- e)
            \/ 0 <= e /\ 0 < 2 ^ e) as _ by
      (destruct (Z.ltb_spec e 0); [right; left | right; right];
       split; try lia; apply Z.pow_pos_nonneg; lia).
    destruct (Z.ltb_spec e 0).
    + replace (c * n * 2 ^ (- e)) with (c * (n * 2 ^ (- e))) by ring.
      now rewrite round_half_even_scale.
    + replace (c * d * 2 ^ e) with (c * (d * 2 ^ e)) by ring.
      rewrite round_half_even_scale; [reflexivity | lia |].
      apply Z.mul_pos_pos; [lia | apply Z.pow_pos_nonneg; lia].
Qed.

Lemma round_decimal_shift (neg : bool) (m e j : Z) :
  0 <= m -> 0 <= j ->
  round_decimal neg (m * 10 ^ j) (e - j) = round_decimal neg m e.
Proof.
  intros Hm Hj. unfold round_decimal.
  destruct (Z.leb_spec 0 (e - j)) as [H1|H1].
  - assert ((0 <=? e) = true) as -> by (apply Z.leb_le; lia).
    f_equal. rewrite <- Z.mul_assoc, <- Z.pow_add_r by lia.
    do 2 f_equal. lia.
  - assert (forall k, 0 <= k -> 0 < 10 ^ k) as P
      by (intros k Hk; apply Z.pow_pos_nonneg; lia).
    destruct (Z.leb_spec 0 e) as [H2|H2].
    + rewrite <- (round_ratio_scale neg (10 ^ (- (e - j))) (m * 10 ^ e) 1).
      * f_equal; [|ring].
        replace (10 ^ j) with (10 ^ (- (e - j)) * 10 ^ e); [ring|].
        rewrite <- Z.pow_add_r by lia. f_equal. lia.
      * apply P. lia.
      * specialize (P e H2). nia.
      * lia.
    + rewrite <- (round_ratio_scale neg (10 ^ j) m (10 ^ (- e))).
      * f_equal; [ring|]. rewrite <- Z.pow_add_r by lia. f_equal. lia.
      * now apply P.
      * lia.
      * apply P. lia.
Qed.


Lemma log2_ratio_pow2 (m k : Z) :
  0 < m -> 0 < k -> log2_ratio m (2 ^ k) = Z.log2 m - k.
Proof.
  intros Hm Hk. unfold log2_ratio.
  destruct (Z.log2_spec m Hm) as [L1 L2].
  pose proof (Z.log2_nonneg m) as L0.
  set (L := Z.log2 m) in *.
  assert (0 < 2 ^ k) as Pk by (apply Z.pow_pos_nonneg; lia).
  destruct (Z.leb_spec (2 ^ k) m) as [H|H].
  - assert (k <= L) as KL.
    { assert (k < Z.succ L); [|lia].
      apply (Z.pow_lt_mono_r_iff 2); lia. }
    assert (2 ^ L = 2 ^ (L - k) * 2 ^ k) as E1
      by (rewrite <- Z.pow_add_r by lia; f_equal; lia).
    assert (2 ^ Z.succ L = 2 ^ k * 2 ^ Z.succ (L - k)) as E2
      by (rewrite <- Z.pow_add_r by lia; f_equal; lia).
    apply Z.log2_unique; [lia|]. split.
    + apply Z.div_le_lower_bound; [lia|]. rewrite Z.mul_comm, <- E1. lia.
    + apply Z.div_lt_upper_bound; [lia|]. rewrite <- E2. lia.
  - assert (L < k) as LK by (apply (Z.pow_lt_mono_r_iff 2); lia).
    set (b := k - L).
    assert (2 ^ k = 2 ^ b * 2 ^ L) as E1
      by (rewrite <- Z.pow_add_r by lia; f_equal; lia).
    assert (2 ^ k = 2 ^ Z.pred b * 2 ^ Z.succ L) as E2
      by (rewrite <- Z.pow_add_r by lia; f_equal; lia).
    assert (0 < 2 ^ b) as Pb by (apply Z.pow_pos_nonneg; lia).
    assert (0 < 2 ^ Z.pred b) as Pb' by (apply Z.pow_pos_nonneg; lia).
    pose proof (Z.div_mod (- 2 ^ k) m ltac:(lia)) as DM.
    pose proof (Z.mod_pos_bound (- 2 ^ k) m Hm) as MB.
    set (A := - (- 2 ^ k / m)) in *.
    replace (- 2 ^ k / m) with (- A) in DM by (unfold A; lia).
    assert (Z.log2_up A = b) as ->; [|lia].
    apply Z.log2_up_unique; [lia|]. split; nia.
Qed.

Lemma binary64_cases (neg : bool) (m : N) (e : Z) :
  is_binary64 (FFin neg m e) = true ->
  (m = 0%N /\ e = 0)
  \/ (2 ^ 52 <= Z.of_N m < 2 ^ 53 /\ -1074 <= e <= 971)
  \/ (0 < Z.of_N m < 2 ^ 52 /\ e = -1074).
Proof.
  unfold is_binary64. change (2 ^ 52)%N with 4503599627370496%N.
  change (2 ^ 53)%N with 9007199254740992%N.
  change (2 ^ 52) with 4503599627370496.
  change (2 ^ 53) with 9007199254740992.
  rewrite !orb_true_iff, !andb_true_iff.
  rewrite N.eqb_eq, !Z.eqb_eq, !N.leb_le, !N.ltb_lt, !Z.leb_le. lia.
Qed.

(** A binary64 datum is what its own value rounds to. *)
Lemma round_ratio_exact (neg : bool) (m : N) (e : Z) :
  is_binary64 (FFin neg m e) = true -> m <> 0%N ->
  round_ratio neg (if 0 <=? e then Z.of_N m * 2 ^ e else Z.of_N m)
    (if 0 <=? e then 1 else 2 ^ (- e))
  = FFin neg m e.
Proof.
  intros B Hm. apply binary64_cases in B.
  set (M := Z.of_N m) in *.
  assert (0 < M) as HM by (unfold M; lia).
  assert (Z.log2 M <= 52 /\ (2 ^ 52 <= M -> Z.log2 M = 52)
          /\ (M < 2 ^ 52 -> Z.log2 M < 52) /\ M < 2 ^ 53) as (L1 & L2 & L3 & L4).
  { assert (M < 2 ^ 53) as U by lia.
    assert (Z.log2 M < 53) as U' by (apply Z.log2_lt_pow2; lia).
    repeat split; try lia.
    - intros H. apply Z.log2_unique; [lia|]. split; [lia|].
      change (Z.succ 52) with 53. lia.
    - intros H. apply Z.log2_lt_pow2; lia. }
  assert (Z.to_N M = m) as TM by (unfold M; apply N2Z.id).
  unfold round_ratio.
  destruct (Z.leb_spec 0 e) as [He|He].
  - assert (0 < 2 ^ e) as Pe by (apply Z.pow_pos_nonneg; lia).
    assert ((M * 2 ^ e =? 0) = false) as -> by (apply Z.eqb_neq; nia).
    assert (log2_ratio (M * 2 ^ e) 1 = e + 52) as ->.
    { unfold log2_ratio.
      assert ((1 <=? M * 2 ^ e) = true) as -> by (apply Z.leb_le; nia).
      rewrite Z.div_1_r, Z.log2_mul_pow2 by lia.
      rewrite L2 by lia. reflexivity. }
    replace (Z.max (e + 52 - 52) (-1074)) with e by lia.
    assert ((e <? 0) = false) as -> by (apply Z.ltb_ge; lia).
    assert (round_half_even (M * 2 ^ e) (1 * 2 ^ e) = M) as ->.
    { unfold round_half_even. rewrite Z.mul_1_l, Z.div_mul, Z.mod_mul by lia.
      assert ((2 * 0 <? 2 ^ e) = true) as -> by (apply Z.ltb_lt; lia).
      reflexivity. }
    assert ((M =? 0) = false) as -> by (apply Z.eqb_neq; lia).
    assert ((M =? 2 ^ 53) = false) as -> by (apply Z.eqb_neq; lia).
    assert ((971 <? e) = false) as -> by (apply Z.ltb_ge; lia).
    now rewrite TM.
  - assert (0 < 2 ^ (- e)) as Pe by (apply Z.pow_pos_nonneg; lia).
    assert ((M =? 0) = false) as E0 by (apply Z.eqb_neq; lia).
    rewrite E0, log2_ratio_pow2 by lia.
    replace (Z.max (Z.log2 M - - e - 52) (-1074)) with e by lia.
    assert ((e <? 0) = true) as -> by (apply Z.ltb_lt; lia).
    assert (round_half_even (M * 2 ^ (- e)) (2 ^ (- e)) = M) as ->.
    { unfold round_half_even. rewrite Z.div_mul, Z.mod_mul by lia.
      assert ((2 * 0 <? 2 ^ (- e)) = true) as -> by (apply Z.ltb_lt; lia).
      reflexivity. }
    rewrite E0.
    assert ((M =? 2 ^ 53) = false) as -> by (apply Z.eqb_neq; lia).
    assert ((971 <? e) = false) as -> by (apply Z.ltb_ge; lia).
    now rewrite TM.
Qed.

Lemma floor_at_nonneg (n d t : Z) : 0 <= n -> 0 < d -> 0 <= floor_at n d t.
Proof.
  intros Hn Hd. unfold floor_at.
  destruct (Z.leb_spec 0 t).
  - apply Z.div_pos; [lia|].
    apply Z.mul_pos_pos; [lia | apply Z.pow_pos_nonneg; lia].
  - apply Z.div_pos; [|lia].
    apply Z.mul_nonneg_nonneg; [lia | apply Z.pow_nonneg; lia].
Qed.

(** What the search returns is read back as the float, provided the
    float itself is at the last weight. *)
Lemma shortest_from_rounds (fuel : nat) (neg : bool) (x : pyfloat)
  (n d bottom t c t' : Z) :
  0 <= n -> 0 < d ->
  round_decimal neg (floor_at n d bottom) bottom = x ->
  shortest_from fuel neg x n d bottom t = (c, t') ->
  0 <= c /\ round_decimal neg c t' = x.
Proof.
  intros Hn Hd Hx. revert t.
  induction fuel as [|f IH]; intros t; cbn [shortest_from].
  - intros [= <- <-]. split; [now apply floor_at_nonneg | exact Hx].
  - pose proof (floor_at_nonneg n d t Hn Hd) as F.
    destruct (float_eqb (round_decimal neg (floor_at n d t) t) x) eqn:E1;
      destruct (float_eqb (round_decimal neg (floor_at n d t + 1) t) x)
        eqn:E2; cbn [andb].
    + apply float_eqb_eq in E1, E2.
      destruct (lower_nearer n d t); intros [= <- <-]; split; auto; lia.
    + apply float_eqb_eq in E1. intros [= <- <-]. auto.
    + apply float_eqb_eq in E2. intros [= <- <-]. split; [lia | auto].
    + apply IH.
Qed.

(** The shortest decimal of a binary64 datum is read back as the
    datum. *)
Lemma shortest_decimal_rounds (neg : bool) (m : N) (e c t : Z) :
  is_binary64 (FFin neg m e) = true ->
  shortest_decimal neg m e = (c, t) ->
  0 <= c /\ round_decimal neg c t = FFin neg m e.
Proof.
  intros B. unfold shortest_decimal.
  destruct (N.eqb_spec m 0) as [->|Hm].
  - intros [= <- <-]. split; [lia|].
    apply binary64_cases in B as [[_ ->]|[[H _]|[H _]]];
      [reflexivity | simpl in H; lia | simpl in H; lia].
  - pose proof (round_ratio_exact neg m e B Hm) as X.
    apply shortest_from_rounds.
    + destruct (0 <=? e); [|lia].
      apply Z.mul_nonneg_nonneg; [lia | apply Z.pow_nonneg; lia].
    + destruct (Z.leb_spec 0 e); [lia | apply Z.pow_pos_nonneg; lia].
    + destruct (Z.leb_spec 0 e) as [He|He].
      * replace (Z.min e 0) with 0 by lia.
        unfold floor_at, round_decimal. cbn [Z.leb Z.pow].
        change (0 <=? 0) with true. cbv iota.
        rewrite !Z.mul_1_r, Z.div_1_r. exact X.
      * replace (Z.min e 0) with e by lia.
        unfold floor_at, round_decimal.
        assert ((0 <=? e) = false) as -> by (apply Z.leb_gt; lia).
        assert (0 < 2 ^ (- e) /\ 0 < 5 ^ (- e)) as [P2 P5]
          by (split; apply Z.pow_pos_nonneg; lia).
        assert (10 ^ (- e) = 5 ^ (- e) * 2 ^ (- e)) as E10
          by (change 10 with (5 * 2); apply Z.pow_mul_l).
        rewrite E10.
        replace (Z.of_N m * (5 ^ (- e) * 2 ^ (- e)))
          with (Z.of_N m * 5 ^ (- e) * 2 ^ (- e)) by ring.
        rewrite Z.div_mul by lia.
        rewrite (Z.mul_comm (Z.of_N m)), round_ratio_scale by lia.
        exact X.
Qed.

End Binary64.


Section FloatTexts.

Lemma before_app (c : ascii) (a b : str) :
  contains c a = false -> before c (a ++ c :: b) = a.
Proof.
  unfold before. induction a as [|x a IH]; simpl.
  - intros _. now rewrite Ascii.eqb_refl.
  - intros H. apply orb_false_iff in H as [H1 H2]. rewrite H1. simpl.
    now rewrite IH.
Qed.

Lemma after_app (c : ascii) (a b : str) :
  contains c a = false -> after c (a ++ c :: b) = b.
Proof.
  unfold after. induction a as [|x a IH]; simpl.
  - intros _. now rewrite Ascii.eqb_refl.
  - intros H. apply orb_false_iff in H as [H1 H2]. rewrite H1. simpl.
    now apply IH.
Qed.

Lemma take_while_all (p : ascii -> bool) (s : str) :
  forallb p s = true -> take_while p s = s.
Proof.
  induction s as [|x s IH]; [reflexivity|]. simpl.
  destruct (p x); [intros H; now rewrite IH | discriminate].
Qed.

Lemma take_drop_stop (p : ascii -> bool) (a b : str) (x : ascii) :
  forallb p a = true -> p x = false ->
  take_while p (a ++ x :: b) = a /\ drop_while p (a ++ x :: b) = x :: b.
Proof.
  intros Ha Hx. induction a as [|y a IH]; simpl.
  - now rewrite Hx.
  - simpl in Ha. apply andb_true_iff in Ha as [Hy Ha]. rewrite Hy.
    destruct (IH Ha) as [-> ->]. auto.
Qed.

Lemma digits_value_acc (ds : str) (acc : N) :
  fold_left (fun a c => (10 * a + digit_val c)%N) ds acc
  = (acc * 10 ^ N.of_nat (List.length ds) + digits_value ds)%N.
Proof.
  unfold digits_value. revert acc.
  induction ds as [|c ds IH]; intros acc.
  - simpl. lia.
  - cbn [fold_left List.length]. rewrite IH, (IH (10 * 0 + digit_val c)%N).
    rewrite Nat2N.inj_succ, N.pow_succ_r'. lia.
Qed.

Lemma digits_value_app (a b : str) :
  digits_value (a ++ b)
  = (digits_value a * 10 ^ N.of_nat (List.length b) + digits_value b)%N.
Proof.
  unfold digits_value at 1. rewrite fold_left_app.
  fold (digits_value a). apply digits_value_acc.
Qed.

Lemma digits_value_zeros (k : nat) : digits_value (repeat "0" k) = 0%N.
Proof.
  induction k as [|k IH]; [reflexivity|].
  change (repeat "0" (S k)) with (["0"] ++ repeat "0" k).
  rewrite digits_value_app, IH. reflexivity.
Qed.

Lemma zeros_digits (k : nat) :
  Forall (fun c => is_digit c = true) (repeat "0" k).
Proof. induction k; constructor; auto. Qed.

Lemma digitpart_digits (ds : str) :
  Forall (fun c => is_digit c = true) ds -> ds <> [] ->
  digitpart ds = Some ds.
Proof. intros D N. apply digitpart_aux_digits; auto. Qed.

Lemma digits_no_e (ds : str) :
  Forall (fun c => is_digit c = true) ds ->
  forallb (fun c => negb (is_e c)) ds = true.
Proof.
  intros D. apply forallb_forall. intros c Hc.
  rewrite List.Forall_forall in D. specialize (D c Hc).
  destruct c as [[] [] [] [] [] [] [] []]; try discriminate; reflexivity.
Qed.

(** The two shapes of a mantissa. *)
Lemma number_digits (ds : str) :
  Forall (fun c => is_digit c = true) ds -> ds <> [] ->
  number ds = Some (ds, O).
Proof.
  intros D N. unfold number.
  rewrite (contains_digits "." ds eq_refl D), digitpart_digits by assumption.
  reflexivity.
Qed.

Lemma number_point (ip fp : str) :
  Forall (fun c => is_digit c = true) ip -> ip <> [] ->
  Forall (fun c => is_digit c = true) fp -> fp <> [] ->
  number (ip ++ "." :: fp) = Some (ip ++ fp, List.length fp).
Proof.
  intros Di Ni Df Nf. unfold number.
  pose proof (contains_digits "." ip eq_refl Di) as C.
  rewrite contains_app, contains_cons, Ascii.eqb_refl, orb_true_r.
  rewrite (before_app _ _ _ C), (after_app _ _ _ C).
  rewrite !digitpart_digits by assumption.
  destruct ip; [congruence|]. destruct fp; [congruence|]. reflexivity.
Qed.

Lemma exponent_repr_exp (e : Z) : exponent (repr_exp e) = Some e.
Proof.
  unfold exponent, repr_exp.
  pose proof (repr_N_digits (Z.abs_N e)) as D.
  pose proof (repr_N_not_nil (Z.abs_N e)) as N.
  pose proof (repr_N_value (Z.abs_N e)) as V.
  set (a := repr_N (Z.abs_N e)) in *.
  assert (digitpart (if (List.length a <? 2)%nat then "0" :: a else a)
          = Some (if (List.length a <? 2)%nat then "0" :: a else a)
          /\ digits_value (if (List.length a <? 2)%nat then "0" :: a else a)
             = Z.abs_N e) as [P Q].
  { destruct (List.length a <? 2)%nat.
    - split; [apply digitpart_digits; [now constructor | discriminate]|].
      change ("0" :: a) with (["0"] ++ a). rewrite digits_value_app, V.
      reflexivity.
    - split; [now apply digitpart_digits | exact V]. }
  destruct (Z.ltb_spec e 0); cbn [split_sign]; rewrite P, Q; f_equal; lia.
Qed.

(** [float()] of a text that starts with a digit, after an optional
    minus sign, and ends without white space. *)
Lemma py_float_body (neg : bool) (c : ascii) (body : str) :
  is_digit c = true ->
  starts_space (rev (c :: body)) = false ->
  py_float (if neg then "-" :: c :: body else c :: body) =
  let mant := take_while (fun c => negb (is_e c)) (c :: body) in
  let rest := drop_while (fun c => negb (is_e c)) (c :: body) in
  match number mant with
  | None => None
  | Some (ds, nfrac) =>
      match rest with
      | [] => Some (mk_float neg ds (- Z.of_nat nfrac))
      | _ :: ex =>
          match exponent ex with
          | Some e => Some (mk_float neg ds (e - Z.of_nat nfrac))
          | None => None
          end
      end
  end.
Proof.
  intros Hc Hl. unfold py_float.
  assert (trimmed (if neg then "-" :: c :: body else c :: body) = true) as T.
  { destruct neg.
    - apply (trimmed_app ["-"] (c :: body)); try discriminate;
        [reflexivity | assumption].
    - unfold trimmed. rewrite Hl. cbn [starts_space].
      now rewrite (is_digit_not_space c Hc). }
  rewrite (num_strip_trimmed _ T).
  assert (split_sign (if neg then "-" :: c :: body else c :: body)
          = (neg, c :: body)) as ->.
  { destruct neg; [reflexivity | now apply split_sign_digit]. }
  assert (PyStr.eqb (lower (c :: body)) (lit "inf") = false
          /\ PyStr.eqb (lower (c :: body)) (lit "infinity") = false
          /\ PyStr.eqb (lower (c :: body)) (lit "nan") = false)
    as (-> & -> & ->).
  { clear - Hc.
    destruct c as [[] [] [] [] [] [] [] []]; try discriminate;
      repeat split; reflexivity. }
  reflexivity.
Qed.


Lemma digit_float_char (c : ascii) :
  is_digit c = true -> float_text_char c = true.
Proof. intros H. unfold float_text_char. now rewrite H. Qed.

Lemma digits_float_chars (ds : str) :
  Forall (fun c => is_digit c = true) ds ->
  forallb float_text_char ds = true.
Proof. apply forallb_digits. exact digit_float_char. Qed.

Lemma float_char_not_space (c : ascii) :
  float_text_char c = true -> is_space c = false.
Proof.
  destruct c as [[] [] [] [] [] [] [] []]; try discriminate; reflexivity.
Qed.

Lemma float_chars_end (s : str) :
  forallb float_text_char s = true -> starts_space (rev s) = false.
Proof.
  intros H. destruct (rev s) as [|x t] eqn:R; [reflexivity|].
  simpl. apply float_char_not_space.
  rewrite forallb_forall in H. apply H, in_rev. rewrite R. now left.
Qed.

Lemma repr_exp_chars (e : Z) : forallb float_text_char (repr_exp e) = true.
Proof.
  unfold repr_exp. pose proof (repr_N_digits (Z.abs_N e)) as D.
  apply digits_float_chars in D.
  destruct (e <? 0)%Z, (List.length _ <? 2)%nat; simpl; now rewrite D.
Qed.

Lemma format_decimal_sign (neg : bool) (m : N) (t : Z) :
  format_decimal neg m t =
  if neg then "-" :: format_decimal false m t else format_decimal false m t.
Proof. now destruct neg. Qed.

(** The text of a decimal in the format of [repr]: it starts with a
    digit, is made of the characters of a float, has a point or an
    exponent, and [float()] reads it as the binary64 nearest to the
    decimal. *)
Lemma format_decimal_props (m : N) (t : Z) :
  let body := format_decimal false m t in
  (exists c rest, body = c :: rest /\ is_digit c = true)
  /\ forallb float_text_char body = true
  /\ contains "." body || contains "e" body = true
  /\ forall neg : bool,
       py_float (if neg then "-" :: body else body)
       = Some (round_decimal neg (Z.of_N m) t).
Proof.
  cbn zeta. unfold format_decimal.
  pose proof (repr_N_digits m) as D.
  pose proof (repr_N_not_nil m) as N.
  pose proof (repr_N_value m) as V.
  set (ds := repr_N m) in *.
  set (nd := Z.of_nat (List.length ds)).
  assert (0 < nd)%Z as Hnd by (destruct ds; [congruence | simpl in nd; lia]).
  pose proof (digits_float_chars ds D) as Fd.
  pose proof (digits_no_e ds D) as Ed.
  clearbody ds. destruct ds as [|d more]; [congruence|].
  pose proof (Forall_inv D) as Hd. pose proof (Forall_inv_tail D) as Dm.
  cbn beta in Hd.
  destruct ((nd + t <=? -4) || (16 <? nd + t))%Z eqn:Big.
  - (* exponent notation *)
    assert (forall (mant digits : str) (k : nat),
              number mant = Some (digits, k) ->
              forallb (fun c => negb (is_e c)) mant = true ->
              forallb float_text_char mant = true ->
              (exists r, mant = d :: r) ->
              digits_value digits = m ->
              (nd + t - 1 - Z.of_nat k = t)%Z ->
              (exists c rest,
                 mant ++ "e" :: repr_exp (nd + t - 1) = c :: rest
                 /\ is_digit c = true)
              /\ forallb float_text_char
                   (mant ++ "e" :: repr_exp (nd + t - 1)) = true
              /\ contains "." (mant ++ "e" :: repr_exp (nd + t - 1))
                 || contains "e" (mant ++ "e" :: repr_exp (nd + t - 1)) = true
              /\ forall neg : bool,
                   py_float (if neg
                             then "-" :: mant ++ "e" :: repr_exp (nd + t - 1)
                             else mant ++ "e" :: repr_exp (nd + t - 1))
                   = Some (round_decimal neg (Z.of_N m) t)) as Form.
    { intros mant digits k Hnum He Hf [r ->] Hv Hk.
      assert (contains "." ((d :: r) ++ "e" :: repr_exp (nd + t - 1))
              || contains "e" ((d :: r) ++ "e" :: repr_exp (nd + t - 1))
              = true) as Hc.
      { rewrite (contains_app "e" (d :: r)), (contains_cons "e" "e").
        rewrite Ascii.eqb_refl. now rewrite !orb_true_r. }
      assert (forallb float_text_char
                ((d :: r) ++ "e" :: repr_exp (nd + t - 1)) = true) as F.
      { rewrite forallb_app, Hf. cbn [forallb andb].
        change (float_text_char "e") with true. apply repr_exp_chars. }
      split; [exists d; eexists; split; [reflexivity | assumption]|].
      split; [exact F|]. split; [exact Hc|]. intros neg.
      cbn [app] in *.
      rewrite (py_float_body neg d _ Hd (float_chars_end _ F)).
      cbn zeta.
      change (d :: r ++ "e" :: repr_exp (nd + t - 1))
        with ((d :: r) ++ "e" :: repr_exp (nd + t - 1)).
      destruct (take_drop_stop (fun c => negb (is_e c)) (d :: r)
                  (repr_exp (nd + t - 1)) "e" He eq_refl) as [-> ->].
      rewrite Hnum, exponent_repr_exp. unfold mk_float.
      now rewrite Hv, Hk. }
    destruct more as [|d2 more'].
    + apply (Form [d] [d] O).
      * now apply number_digits.
      * exact Ed.
      * exact Fd.
      * now exists [].
      * exact V.
      * subst nd. simpl. lia.
    + change (d :: "." :: (d2 :: more') ++ "e" :: repr_exp (nd + t - 1))
        with (([d] ++ "." :: d2 :: more') ++ "e" :: repr_exp (nd + t - 1)).
      apply (Form ([d] ++ "." :: d2 :: more') ([d] ++ d2 :: more')
               (List.length (d2 :: more'))).
      * apply number_point;
          [now constructor | discriminate | assumption | discriminate].
      * simpl in Ed |- *. apply andb_true_iff in Ed as [E1 E2].
        now rewrite E1, E2.
      * simpl in Fd |- *. apply andb_true_iff in Fd as [F1 F2].
        now rewrite F1, F2.
      * now exists ("." :: d2 :: more').
      * exact V.
      * subst nd. cbn [List.length]. lia.
  - apply orb_false_iff in Big as [B1 B2].
    apply Z.leb_gt in B1. apply Z.ltb_ge in B2.
    assert (forall ip fp,
              Forall (fun c => is_digit c = true) ip -> ip <> [] ->
              Forall (fun c => is_digit c = true) fp -> fp <> [] ->
              (forall neg : bool,
                 mk_float neg (ip ++ fp) (- Z.of_nat (List.length fp))
                 = round_decimal neg (Z.of_N m) t) ->
              (exists c rest, ip ++ "." :: fp = c :: rest
                              /\ is_digit c = true)
              /\ forallb float_text_char (ip ++ "." :: fp) = true
              /\ contains "." (ip ++ "." :: fp)
                 || contains "e" (ip ++ "." :: fp) = true
              /\ forall neg : bool,
                   py_float (if neg then "-" :: ip ++ "." :: fp
                             else ip ++ "." :: fp)
                   = Some (round_decimal neg (Z.of_N m) t)) as Form.
    { intros ip fp Di Ni Df Nf Hv.
      assert (forallb float_text_char (ip ++ "." :: fp) = true) as F.
      { rewrite forallb_app, (digits_float_chars ip Di). cbn [forallb andb].
        change (float_text_char ".") with true.
        apply (digits_float_chars fp Df). }
      destruct ip as [|c ip']; [congruence|].
      pose proof (Forall_inv Di) as Hc. cbn beta in Hc.
      split; [exists c; eexists; split; [reflexivity | assumption]|].
      split; [exact F|].
      split.
      { rewrite (contains_app "." (c :: ip')), (contains_cons "." ".").
        rewrite Ascii.eqb_refl. now rewrite !orb_true_r. }
      intros neg. cbn [app] in *.
      rewrite (py_float_body neg c _ Hc (float_chars_end _ F)). cbn zeta.
      assert (forallb (fun c => negb (is_e c)) (c :: ip' ++ "." :: fp) = true)
        as E.
      { change (c :: ip' ++ "." :: fp) with ((c :: ip') ++ "." :: fp).
        rewrite forallb_app, (digits_no_e _ Di). cbn [forallb andb].
        change (negb (is_e ".")) with true. apply (digits_no_e _ Df). }
      rewrite (take_while_all _ _ E), (drop_while_all _ _ E).
      change (c :: ip' ++ "." :: fp) with ((c :: ip') ++ "." :: fp).
      rewrite number_point by assumption. apply f_equal, Hv. }
    destruct (nd + t <=? 0)%Z eqn:C1.
    + (* 0.000ddd *)
      apply Z.leb_le in C1.
      change (lit "0." ++ repeat "0" (Z.to_nat (- (nd + t))) ++ d :: more)
        with (["0"] ++ "." :: repeat "0" (Z.to_nat (- (nd + t))) ++ d :: more).
      apply Form.
      * now constructor.
      * discriminate.
      * apply Forall_app. split; [apply zeros_digits | assumption].
      * destruct (repeat "0" _); discriminate.
      * intros neg. unfold mk_float. f_equal.
        -- rewrite !digits_value_app, digits_value_zeros, V.
           change (digits_value ["0"]) with 0%N. f_equal; lia.
        -- rewrite length_app, repeat_length. subst nd. lia.
    + apply Z.leb_gt in C1.
      destruct (nd <=? nd + t)%Z eqn:C2.
      * (* ddd000.0 *)
        apply Z.leb_le in C2.
        replace (nd + t - nd)%Z with t by lia.
        change ((d :: more) ++ repeat "0" (Z.to_nat t) ++ lit ".0")
          with ((d :: more) ++ repeat "0" (Z.to_nat t) ++ "." :: ["0"]).
        rewrite app_assoc. apply Form.
        -- apply Forall_app. split; [assumption | apply zeros_digits].
        -- discriminate.
        -- now constructor.
        -- discriminate.
        -- intros neg. unfold mk_float.
           rewrite !digits_value_app, digits_value_zeros, V, repeat_length.
           change (digits_value ["0"]) with 0%N.
           cbn [List.length]. change (- Z.of_nat 1)%Z with (-1)%Z.
           rewrite <- (round_decimal_shift neg (Z.of_N m) t (t + 1))
             by lia.
           f_equal; [|lia].
           repeat (rewrite ?N2Z.inj_add, ?N2Z.inj_mul, ?N2Z.inj_pow).
           rewrite !nat_N_Z, Z2Nat.id by lia.
           change (Z.of_N 0) with 0%Z. change (Z.of_N 10) with 10%Z.
           change (Z.of_nat 1) with 1%Z.
           rewrite Z.pow_add_r by lia. ring.
      * (* dd.ddd *)
        apply Z.leb_gt in C2.
        set (k := Z.to_nat (nd + t)).
        assert (0 < k < List.length (d :: more))%nat as Hk
          by (subst k nd; lia).
        apply Form.
        -- rewrite List.Forall_forall in *. intros c Hc.
           apply D. rewrite <- (firstn_skipn k (d :: more)).
           apply in_or_app. now left.
        -- destruct k; [lia | discriminate].
        -- rewrite List.Forall_forall in *. intros c Hc.
           apply D. rewrite <- (firstn_skipn k (d :: more)).
           apply in_or_app. now right.
        -- intros E. apply (f_equal (@List.length ascii)) in E.
           rewrite List.length_skipn in E.
           cbn [List.length] in E, Hk. lia.
        -- intros neg. unfold mk_float. rewrite firstn_skipn, V.
           f_equal. rewrite List.length_skipn. subst k nd. lia.
Qed.

End FloatTexts.

Section FloatValues.

Lemma float_char_props (c : ascii) :
  float_text_char c = true ->
  safe_char c = true /\ word_char c = true /\ is_space c = false
  /\ Ascii.eqb "," c = false /\ Ascii.eqb "'" c = false
  /\ Ascii.eqb DQ c = false /\ Ascii.eqb "/" c = false.
Proof.
  destruct c as [[] [] [] [] [] [] [] []]; try discriminate;
    repeat split; reflexivity.
Qed.

Lemma float_chars_forallb (p : ascii -> bool) (s : str) :
  (forall c, float_text_char c = true -> p c = true) ->
  forallb float_text_char s = true -> forallb p s = true.
Proof.
  intros H F. apply forallb_forall. intros c Hc.
  rewrite forallb_forall in F. auto.
Qed.

Lemma float_chars_trimmed (s : str) :
  forallb float_text_char s = true -> trimmed s = true.
Proof.
  intros F. unfold trimmed. rewrite (float_chars_end s F).
  destruct s as [|c s]; [reflexivity|]. simpl in F |- *.
  apply andb_true_iff in F as [Fc _].
  now rewrite (proj1 (proj2 (proj2 (float_char_props c Fc)))).
Qed.

(** The text of a binary64 datum: [float()] reads it back as the
    datum, [int()] rejects it, and it is made of the characters of a
    float. *)
Lemma repr_float_props (x : pyfloat) :
  is_binary64 x = true ->
  py_float (repr_float x) = Some x
  /\ py_int (repr_float x) = None
  /\ repr_float x <> []
  /\ forallb float_text_char (repr_float x) = true.
Proof.
  destruct x as [|neg|neg m e]; intros B.
  - repeat split; try reflexivity. discriminate.
  - destruct neg; repeat split; try reflexivity; discriminate.
  - cbn [repr_float].
    destruct (shortest_decimal neg m e) as [c t] eqn:S.
    destruct (shortest_decimal_rounds neg m e c t B S) as [Hc R].
    rewrite format_decimal_sign.
    destruct (format_decimal_props (Z.to_N c) t)
      as ((c0 & rest & Eb & Hc0) & F & P & Py).
    cbn zeta in *. set (body := format_decimal false (Z.to_N c) t) in *.
    assert (forallb float_text_char (if neg then "-" :: body else body)
            = true) as F'.
    { destruct neg; [|exact F]. cbn [forallb]. now rewrite F. }
    split; [|split; [|split]].
    + rewrite Py, Z2N.id by lia. now rewrite R.
    + assert (exists x, In x (if neg then "-" :: body else body)
                        /\ int_char x = false) as (x0 & Hin & Hx).
      { apply orb_true_iff in P as [P|P]; apply contains_true in P.
        - exists "."%char. split; [|reflexivity].
          destruct neg; [now right | assumption].
        - exists "e"%char. split; [|reflexivity].
          destruct neg; [now right | assumption]. }
      apply (py_int_bad_char _ x0); [|assumption].
      now rewrite (strip_trimmed _ (float_chars_trimmed _ F')).
    + rewrite Eb. now destruct neg.
    + exact F'.
Qed.

Lemma parse_value_float (x : pyfloat) :
  is_binary64 x = true -> _parse_value (repr_float x) = Ok (VFloat x).
Proof.
  intros B. destruct (repr_float_props x B) as (F & I & _).
  rewrite _parse_value_unfold. unfold parse_value_body.
  now rewrite I, F.
Qed.

Lemma float_text_safe (x : pyfloat) :
  is_binary64 x = true -> safe_text (repr_float x).
Proof.
  intros B. destruct (repr_float_props x B) as (_ & _ & N & F).
  constructor.
  - now apply float_chars_trimmed.
  - exact N.
  - apply (float_chars_forallb _ _ (fun c H => proj1 (float_char_props c H))).
    exact F.
  - unfold endswith. destruct (rev (repr_float x)) as [|z r] eqn:R;
      [reflexivity|].
    cbn [startswith]. apply float_char_props.
    rewrite forallb_forall in F. apply F, in_rev. rewrite R. now left.
Qed.

Lemma float_text_elem (x : pyfloat) :
  is_binary64 x = true -> elem_text (repr_float x).
Proof.
  intros B. destruct (repr_float_props x B) as (_ & _ & N & F).
  pose proof (float_text_safe x B) as S.
  assert (forall q, q = "'"%char \/ q = DQ \/ q = "/"%char ->
            startswith q (repr_float x) = false) as Q.
  { intros q Hq. destruct (repr_float x) as [|c s]; [reflexivity|].
    simpl in F. apply andb_true_iff in F as [Fc _].
    destruct (float_char_props c Fc) as (_ & _ & _ & _ & Q1 & Q2 & Q3).
    cbn [startswith]. destruct Hq as [-> | [-> | ->]]; assumption. }
  constructor.
  - exact N.
  - apply (float_chars_forallb _ _
             (fun c H => proj1 (proj2 (float_char_props c H)))).
    exact F.
  - apply S.
  - intros q Hq Hs. rewrite Q in Hs; [discriminate | tauto].
  - apply Q. auto.
Qed.

End FloatValues.

Section GoodScalars.

(** The text of a good scalar is safe and parses back to the scalar. *)
Lemma scalar_text (v : value) :
  good_scalar v = true ->
  _parse_value (_format_value v) = Ok v /\ safe_text (_format_value v).
Proof.
  destruct v as [z|x|b|s|l]; try discriminate; intros H.
  - split; [apply parse_value_int | apply repr_int_safe].
  - split; [now apply parse_value_float | now apply float_text_safe].
  - split; [apply parse_value_bool | apply bool_text_safe].
  - split; [now apply parse_value_str | now apply str_text_safe].
Qed.

End GoodScalars.

Section ListTexts.

Lemma first_char_digit (c : ascii) :
  is_digit c = true ->
  Ascii.eqb "'" c = false /\ Ascii.eqb DQ c = false
  /\ Ascii.eqb "/" c = false.
Proof.
  destruct c as [[] [] [] [] [] [] [] []]; try discriminate; auto.
Qed.

Lemma repr_int_first (z : Z) (q : ascii) :
  q = "'" \/ q = DQ \/ q = "/" -> startswith q (repr_int z) = false.
Proof.
  intros Hq. destruct (repr_int_shape z) as (ds & D & N & [-> | ->]).
  - destruct ds as [|d t]; [congruence|]. inversion D as [|? ? Hd _]; subst.
    destruct (first_char_digit d Hd) as (A & B & C). simpl.
    destruct Hq as [-> | [-> | ->]]; assumption.
  - destruct Hq as [-> | [-> | ->]]; reflexivity.
Qed.

Lemma elem_text_of (v : value) :
  good_elem v = true ->
  _parse_value (_format_value v) = Ok v /\ elem_text (_format_value v).
Proof.
  destruct v as [z|x|b|s|l]; try discriminate; intros H.
  - split; [apply parse_value_int|]. simpl. constructor.
    + apply repr_int_safe.
    + apply repr_int_forallb; [|reflexivity]. intros c Hc.
      now apply digit_props.
    + apply repr_int_safe.
    + intros q Hq Hs. rewrite repr_int_first in Hs; [discriminate | tauto].
    + apply repr_int_first. auto.
  - split; [now apply parse_value_float | now apply float_text_elem].
  - split; [apply parse_value_bool|].
    destruct b; constructor; try reflexivity; try discriminate;
      intros q [-> | ->]; discriminate.
  - simpl in H. apply andb_true_iff in H as [H W].
    split; [now apply parse_value_str|]. simpl.
    pose proof (str_text_safe s H) as S.
    rewrite (repr_str_good s H) in *.
    pose proof (good_str_quote s H) as Q.
    pose proof (quote_of_cases s) as C.
    destruct (quote_props _ C) as (_ & _ & _ & _ & _ & P6 & _ & P8).
    set (q := quote_of s) in *. constructor.
    + discriminate.
    + simpl. rewrite P6, forallb_app, W. simpl. now rewrite P6.
    + apply S.
    + intros q' Hq' Hs. simpl in Hs. apply Ascii.eqb_eq in Hs. subst q'.
      rewrite count_cons, count_app, (count_absent _ _ Q), Ascii.eqb_refl.
      unfold count. simpl. now rewrite Ascii.eqb_refl.
    + simpl. exact P8.
Qed.

Lemma split_ws_aux_word (cur t rest : str) :
  forallb word_char t = true ->
  split_ws_aux cur (t ++ rest) = split_ws_aux (rev t ++ cur) rest.
Proof.
  revert cur. induction t as [|c t IH]; intros cur H; [reflexivity|].
  simpl in H. apply andb_true_iff in H as [Hc Ht].
  unfold word_char in Hc. apply andb_true_iff in Hc as [Hc _].
  apply negb_true_iff in Hc. simpl. rewrite Hc, IH by assumption.
  now rewrite <- app_assoc.
Qed.

(** Words joined by blanks are what [split()] gives back. *)
Lemma split_ws_join (ts : list str) :
  Forall (fun t => t <> [] /\ forallb word_char t = true) ts ->
  split_ws (join (lit " ") ts) = ts.
Proof.
  unfold split_ws. induction 1 as [|t ts [Hn Hw] Hts IH]; [reflexivity|].
  destruct ts as [|u ts].
  - simpl. rewrite <- (app_nil_r t) at 1.
    rewrite split_ws_aux_word by assumption. simpl. rewrite app_nil_r.
    destruct (rev t) eqn:R.
    + apply (f_equal (@rev ascii)) in R. rewrite rev_involutive in R.
      simpl in R. congruence.
    + now rewrite <- R, rev_involutive.
  - rewrite join_cons2, split_ws_aux_word by assumption.
    rewrite app_nil_r. cbn [lit list_ascii_of_string app split_ws_aux].
    change (is_space " ") with true. cbn iota.
    destruct (rev t) eqn:R.
    + apply (f_equal (@rev ascii)) in R. rewrite rev_involutive in R.
      simpl in R. congruence.
    + rewrite <- R, rev_involutive. f_equal. exact IH.
Qed.

Lemma join_forallb (p : ascii -> bool) (sep : str) (ts : list str) :
  forallb p sep = true -> Forall (fun t => forallb p t = true) ts ->
  forallb p (join sep ts) = true.
Proof.
  intros Hs. induction 1 as [|t ts Ht _ IH]; [reflexivity|].
  destruct ts as [|u ts]; [assumption|].
  now rewrite join_cons2, !forallb_app, Ht, Hs, IH.
Qed.

(** The last character of words joined by blanks is the last character
    of the last word. *)
Lemma join_last (sep : str) (ts : list str) (t : str) (c : ascii) :
  exists a, join sep (ts ++ [t ++ [c]]) = a ++ [c].
Proof.
  rewrite join_app. destruct ts as [|u ts].
  - exists t. reflexivity.
  - exists (join sep (u :: ts) ++ sep ++ t). simpl join at 2.
    now rewrite <- !app_assoc.
Qed.

Lemma words_last (ts : list str) :
  ts <> [] -> Forall (fun t => t <> [] /\ forallb word_char t = true) ts ->
  exists a c, join (lit " ") ts = a ++ [c] /\ word_char c = true.
Proof.
  intros N H. destruct (exists_last N) as (ts' & t & ->).
  apply Forall_app in H as [_ H]. inversion H as [|? ? [Hn Hw] _]; subst.
  destruct (exists_last Hn) as (t' & c & ->).
  destruct (join_last (lit " ") ts' t' c) as [a E].
  exists a, c. split; [exact E|].
  rewrite forallb_app in Hw. apply andb_true_iff in Hw as [_ Hw].
  simpl in Hw. now rewrite andb_true_r in Hw.
Qed.

Lemma word_char_not_space (c : ascii) :
  word_char c = true -> is_space c = false /\ Ascii.eqb "," c = false.
Proof.
  unfold word_char. intros H. apply andb_true_iff in H as [H1 H2].
  apply negb_true_iff in H1, H2. split; [assumption|].
  simpl in H2. apply orb_false_iff in H2 as [H2 _].
  now rewrite Ascii.eqb_sym.
Qed.

Lemma words_trimmed (ts : list str) :
  ts <> [] -> Forall (fun t => t <> [] /\ forallb word_char t = true) ts ->
  trimmed (join (lit " ") ts) = true.
Proof.
  intros N H. unfold trimmed. apply andb_true_iff. split; apply negb_true_iff.
  - destruct ts as [|t ts]; [congruence|].
    inversion H as [|? ? [Hn Hw] _]; subst.
    destruct t as [|c t]; [congruence|].
    simpl in Hw. apply andb_true_iff in Hw as [Hc _].
    apply word_char_not_space in Hc as [Hc _].
    destruct ts; simpl; exact Hc.
  - destruct (words_last ts N H) as (a & c & -> & Hc).
    rewrite rev_app_distr. simpl. now apply word_char_not_space in Hc.
Qed.

Lemma endswith_count (c : ascii) (s : str) :
  endswith c s = true -> 1 <= count c s.
Proof.
  unfold endswith. destruct (rev s) as [|x t] eqn:R; [discriminate|].
  simpl. intros E. apply Ascii.eqb_eq in E. subst x.
  apply (f_equal (@rev ascii)) in R. rewrite rev_involutive in R. subst s.
  simpl. rewrite count_app, count_cons, Ascii.eqb_refl. lia.
Qed.

Lemma endswith_app_r (c : ascii) (a b : str) :
  b <> [] -> endswith c (a ++ b) = endswith c b.
Proof.
  intros N. unfold endswith. rewrite rev_app_distr.
  destruct (rev b) eqn:R; [|reflexivity].
  apply (f_equal (@rev ascii)) in R. rewrite rev_involutive in R.
  simpl in R. congruence.
Qed.

Lemma join_not_nil (sep : str) (ts : list str) (t : str) :
  t <> [] -> join sep (t :: ts) <> [].
Proof.
  intros N. destruct ts; simpl; [assumption|].
  destruct t; [congruence | discriminate].
Qed.

End ListTexts.

Section ValueRoundTrip.

Lemma parse_array_elems (l : list value) :
  forallb good_elem l = true ->
  _parse_array _parse_value (map _format_value l) = Ok l.
Proof.
  induction l as [|v l IH]; [reflexivity|]. simpl. intros H.
  apply andb_true_iff in H as [Hv Hl].
  destruct (elem_text_of v Hv) as [P E].
  unfold parse_token.
  assert (contains "*" (_format_value v) = false) as ->.
  { apply contains_false. intros Hin. pose proof (et_word _ E) as W.
    rewrite forallb_forall in W. specialize (W _ Hin). discriminate. }
  rewrite P, (IH Hl). reflexivity.
Qed.

Lemma word_absent (c : ascii) (t : str) :
  word_char c = false -> forallb word_char t = true -> contains c t = false.
Proof.
  intros N W. apply contains_false. intros Hin.
  rewrite forallb_forall in W. rewrite (W _ Hin) in N. discriminate.
Qed.

Lemma words_absent (c : ascii) (ts : list str) :
  word_char c = false -> Ascii.eqb c " " = false ->
  Forall (fun t => t <> [] /\ forallb word_char t = true) ts ->
  contains c (join (lit " ") ts) = false.
Proof.
  intros N S H. apply join_contains.
  - simpl. now rewrite S.
  - eapply List.Forall_impl; [|exact H]. intros t [_ W].
    now apply word_absent.
Qed.

(** The text of a list of at least two good elements parses back to the
    list. *)
Lemma list_text (l : list value) :
  (1 < List.length l)%nat -> forallb good_elem l = true ->
  _parse_value (value_text (VList l)) = Ok (VList l)
  /\ safe_text (value_text (VList l)).
Proof.
  intros Hlen Hl. cbn [value_text].
  remember (map _format_value l) as ts eqn:Ets.
  assert (Forall elem_text ts) as E.
  { subst ts. apply List.Forall_forall. intros t Ht.
    apply in_map_iff in Ht as (v & <- & Hv).
    rewrite forallb_forall in Hl. exact (proj2 (elem_text_of v (Hl v Hv))). }
  assert (Forall (fun t => t <> [] /\ forallb word_char t = true) ts) as W.
  { eapply List.Forall_impl; [|exact E]. intros t Ht. split; apply Ht. }
  assert (1 < List.length ts)%nat as Hts by (subst ts; now rewrite length_map).
  assert (ts <> []) as Hne by (destruct ts; [simpl in Hts; lia | discriminate]).
  set (T := join (lit " ") ts).
  pose proof (words_trimmed ts Hne W) as Tr.
  destruct (words_last ts Hne W) as (a & c & ET & Hc).
  assert (In " " T) as Hin.
  { apply contains_true. now apply (join_two_contains " "%char). }
  assert (safe_text T) as S.
  { constructor.
    - exact Tr.
    - subst T. rewrite ET. now destruct a.
    - apply join_forallb; [reflexivity|].
      eapply List.Forall_impl; [|exact E]. intros t Ht. apply Ht.
    - subst T. rewrite ET. unfold endswith. rewrite rev_app_distr. simpl.
      now apply word_char_not_space in Hc. }
  split; [|exact S].
  rewrite <- (strip_trimmed T Tr) in Hin.
  assert (py_int T = None) as H1 by now apply (py_int_bad_char T " ").
  assert (py_float T = None) as H2 by now apply (py_float_bad_char T " ").
  rewrite (strip_trimmed T Tr) in Hin.
  destruct (not_bool_word T " " Hin eq_refl) as [H3 H4].
  destruct ts as [|t1 [|t2 ts]]; try (simpl in Hts; lia).
  inversion E as [|? ? E1 E2]; subst.
  assert (T = t1 ++ " " :: join (lit " ") (t2 :: ts)) as ET1 by reflexivity.
  assert (join (lit " ") (t2 :: ts) <> []) as Rne.
  { apply join_not_nil. inversion E2; subst. now apply et_not_nil. }
  assert (forall q, startswith q T = startswith q t1) as St.
  { intros q. rewrite ET1. pose proof (et_not_nil _ E1).
    destruct t1; [congruence | reflexivity]. }
  assert (is_slashed T = false) as H6.
  { unfold is_slashed. now rewrite St, (et_slash _ E1). }
  assert (forall q, q = "'" \/ q = DQ ->
            startswith q T && endswith q T && (count q T =? 2)%nat = false)
    as Q.
  { intros q Hq. destruct (startswith q T) eqn:A; [|reflexivity].
    destruct (endswith q T) eqn:B; [|reflexivity]. simpl.
    apply Nat.eqb_neq. rewrite St in A.
    pose proof (et_quote _ E1 q Hq A) as C1.
    rewrite ET1 in B |- *.
    change (t1 ++ " " :: join (lit " ") (t2 :: ts))
      with (t1 ++ [" "] ++ join (lit " ") (t2 :: ts)) in *.
    rewrite app_assoc, endswith_app_r in B by assumption.
    apply endswith_count in B. rewrite !count_app, C1. lia. }
  assert (is_quoted T = false) as H5.
  { unfold is_quoted. rewrite (Q "'"), (Q DQ); auto. }
  assert (contains "," T = false) as H7 by now apply words_absent.
  assert (contains "*" T = false) as H8 by now apply words_absent.
  rewrite parse_value_ws; auto.
  - subst T. rewrite (split_ws_join _ W), Ets.
    rewrite parse_array_elems by assumption. reflexivity.
  - subst T. now rewrite (split_ws_join _ W).
Qed.

(** The value-text of a good value is safe and parses back to the
    value. *)
Lemma value_text_roundtrip (v : value) :
  good_value v = true ->
  _parse_value (value_text v) = Ok v /\ safe_text (value_text v).
Proof.
  destruct v as [z|x|b|s|l]; intros H.
  - now apply (scalar_text (VInt z)).
  - now apply (scalar_text (VFloat x)).
  - now apply (scalar_text (VBool b)).
  - now apply (scalar_text (VStr s)).
  - simpl in H. apply andb_true_iff in H as [H1 H2].
    apply Nat.ltb_lt in H1. now apply list_text.
Qed.

End ValueRoundTrip.

(** ** Round trip: lines *)

Section LineRoundTrip.

Lemma format_param_text (p : ParamNml) :
  help p = None ->
  format_param p =
  ljust 30 (" " :: ljust 15 (name p) ++ lit " = " ++ value_text (pvalue p)).
Proof.
  intros H. unfold format_param. rewrite H. now destruct (pvalue p).
Qed.

Lemma repeat_blanks (k : nat) : blanks (repeat " " k) = true.
Proof. induction k; simpl; auto. Qed.

Lemma blanks_space (sp : str) :
  blanks sp = true -> forallb is_space sp = true.
Proof.
  unfold blanks. rewrite !forallb_forall. intros H c Hc.
  specialize (H c Hc). apply Ascii.eqb_eq in H. now subst c.
Qed.

Lemma blanks_absent (c : ascii) (sp : str) :
  Ascii.eqb " " c = false -> blanks sp = true -> contains c sp = false.
Proof.
  intros N W. apply contains_false. intros Hin. unfold blanks in W.
  rewrite forallb_forall in W. rewrite (W _ Hin) in N. discriminate.
Qed.

(** A formatted line is blanks, the name, blanks, [=], a blank, the
    value-text and blanks. *)
Lemma line_shape (n t : str) :
  exists sp1 sp2,
    blanks sp1 = true /\ blanks sp2 = true
    /\ ljust 30 (" " :: ljust 15 n ++ lit " = " ++ t)
       = (" " :: n ++ sp1) ++ "=" :: (" " :: t ++ sp2).
Proof.
  unfold ljust at 1.
  set (sp2 := repeat " " _). unfold ljust. set (sp1 := repeat " " _).
  exists (sp1 ++ [" "]), sp2. split; [|split].
  - unfold blanks. rewrite forallb_app. fold (blanks sp1).
    unfold sp1. now rewrite repeat_blanks.
  - apply repeat_blanks.
  - simpl. f_equal. rewrite <- !app_assoc. reflexivity.
Qed.

Lemma strip_around (c : ascii) (X Y : str) :
  is_space c = false -> strip (X ++ c :: Y) = lstrip X ++ c :: rstrip Y.
Proof.
  intros Hc. unfold strip.
  assert (lstrip (X ++ c :: Y) = lstrip X ++ c :: Y) as ->.
  { unfold lstrip. rewrite drop_while_app.
    destruct (forallb is_space X) eqn:E.
    - rewrite (drop_while_all _ _ E). simpl. now rewrite Hc.
    - reflexivity. }
  unfold rstrip. rewrite rev_app_distr. simpl rev.
  rewrite <- app_assoc, drop_while_app.
  destruct (forallb is_space (rev Y)) eqn:E.
  - rewrite (drop_while_all _ _ E). simpl. rewrite Hc.
    simpl. now rewrite rev_involutive.
  - rewrite !rev_app_distr. simpl. rewrite rev_involutive.
    now rewrite <- app_assoc.
Qed.

Lemma lstrip_idem (s : str) : lstrip (lstrip s) = lstrip s.
Proof. apply drop_while_start, drop_while_trimmed. Qed.

Lemma strip_lstrip (s : str) : strip (lstrip s) = strip s.
Proof. unfold strip. now rewrite lstrip_idem. Qed.

Lemma rstrip_value (t sp : str) :
  trimmed t = true -> t <> [] -> forallb is_space sp = true ->
  rstrip (" " :: t ++ sp) = " " :: t.
Proof.
  intros T N S. unfold rstrip. simpl rev. rewrite rev_app_distr.
  rewrite <- app_assoc, drop_while_app, forallb_rev, S.
  unfold trimmed in T. apply andb_true_iff in T as [_ T].
  apply negb_true_iff in T.
  rewrite drop_while_app.
  destruct (forallb is_space (rev t)) eqn:E.
  - destruct (rev t) as [|x r] eqn:R.
    + apply (f_equal (@rev ascii)) in R. rewrite rev_involutive in R.
      simpl in R. congruence.
    + simpl in E, T. rewrite T in E. discriminate.
  - rewrite (drop_while_start _ T), rev_app_distr, rev_involutive.
    reflexivity.
Qed.

Lemma lstrip_contains (c : ascii) (s : str) :
  contains c s = false -> contains c (lstrip s) = false.
Proof. apply drop_while_contains. Qed.

Lemma safe_absent (c : ascii) (t : str) :
  safe_char c = false -> forallb safe_char t = true -> contains c t = false.
Proof.
  intros N W. apply contains_false. intros Hin.
  rewrite forallb_forall in W. rewrite (W _ Hin) in N. discriminate.
Qed.

Lemma startswith_contains (c : ascii) (s : str) :
  contains c s = false -> startswith c s = false.
Proof.
  destruct s as [|x s]; [reflexivity|]. rewrite contains_cons. simpl.
  intros H. now apply orb_false_iff in H as [H _].
Qed.

(** What the parser sees of the line [format_nml] writes for a good
    name and a good value. *)
Lemma formatted_line (g n : str) (v : value) :
  good_name n = true -> good_value v = true ->
  let line := format_param (mkParamNml g n v None) in
  filter_line false line = [strip line]
  /\ contains "=" (strip line) = true
  /\ contains NL line = false /\ contains "&" line = false
  /\ _parse_line (strip line) = Ok (n, v, []).
Proof.
  intros Hn Hv line.
  destruct (value_text_roundtrip v Hv) as [Pv [Tt Tn Tc Te]].
  unfold good_name in Hn. apply andb_true_iff in Hn as [Nt Nc].
  set (t := value_text v) in *.
  assert (line = ljust 30 (" " :: ljust 15 n ++ lit " = " ++ t)) as EL
    by (apply (format_param_text (mkParamNml g n v None)); reflexivity).
  destruct (line_shape n t) as (sp1 & sp2 & S1 & S2 & Sh).
  rewrite Sh in EL. clear Sh.
  set (X := " " :: n ++ sp1) in *. set (Y := " " :: t ++ sp2) in *.
  assert (forall c, Ascii.eqb " " c = false -> safe_char c = false ->
            contains c X = false /\ contains c Y = false) as A.
  { intros c Hs Hc. unfold X, Y.
    rewrite !contains_cons, !contains_app.
    rewrite (safe_absent c n Hc Nc), (safe_absent c t Hc Tc).
    rewrite (blanks_absent c sp1 Hs S1), (blanks_absent c sp2 Hs S2).
    rewrite Ascii.eqb_sym, Hs. auto. }
  destruct (A "=" eq_refl eq_refl) as [Xe Ye].
  destruct (A "!" eq_refl eq_refl) as [Xb Yb].
  destruct (A "&" eq_refl eq_refl) as [Xa Ya].
  destruct (A NL eq_refl eq_refl) as [Xn Yn].
  assert (strip line = lstrip X ++ "=" :: " " :: t) as ES.
  { rewrite EL, strip_around by reflexivity. unfold Y.
    rewrite rstrip_value; auto using blanks_space. }
  assert (forall c, contains c X = false -> contains c Y = false ->
            Ascii.eqb c "=" = false ->
            contains c (strip line) = false) as B.
  { intros c HX HY Hc. apply strip_contains. rewrite EL.
    now rewrite contains_app, contains_cons, HX, HY, Hc. }
  assert (strip (lstrip X) = n) as EN.
  { rewrite strip_lstrip. unfold X.
    change (" " :: n ++ sp1) with ([" "] ++ n ++ sp1).
    rewrite (strip_pad [" "] sp1 n eq_refl (blanks_space _ S1)).
    now apply strip_trimmed. }
  split; [|split; [|split; [|split]]].
  - unfold filter_line. rewrite ES.
    assert (PyStr.eqb (lstrip X ++ "=" :: " " :: t) [] = false) as ->
      by (apply eqb_neq; now destruct (lstrip X)).
    rewrite <- ES. rewrite (startswith_contains _ _ (B "!" Xb Yb eq_refl)).
    reflexivity.
  - rewrite ES, contains_app, contains_cons, Ascii.eqb_refl.
    apply orb_true_r.
  - rewrite EL. now rewrite contains_app, contains_cons, Xn, Yn.
  - rewrite EL. now rewrite contains_app, contains_cons, Xa, Ya.
  - rewrite _parse_line_split. unfold working_line, line_comment.
    rewrite (B "!" Xb Yb eq_refl).
    assert (endswith "," (strip line) = false) as ->.
    { rewrite ES.
      change (lstrip X ++ "=" :: " " :: t)
        with (lstrip X ++ ["="; " "] ++ t).
      now rewrite app_assoc, endswith_app_r. }
    rewrite ES, split_app by now apply lstrip_contains.
    rewrite split_none.
    2:{ rewrite contains_cons. simpl.
        unfold Y in Ye. rewrite contains_cons, contains_app in Ye.
        simpl in Ye. now apply orb_false_iff in Ye as [Ye _]. }
    rewrite EN. change (" " :: t) with ([" "] ++ t).
    rewrite (strip_pad_l [" "] t eq_refl).
    rewrite (strip_trimmed t Tt), Pv. reflexivity.
Qed.

End LineRoundTrip.

(** ** Round trip: blocks *)

Section BlockRoundTrip.

Lemma groupby_concat {A} (key : A -> str) (l : list A) :
  concat (map snd (groupby key l)) = l.
Proof.
  induction l as [|x l IH]; [reflexivity|]. simpl.
  destruct (groupby key l) as [|[k xs] gs]; simpl in *.
  - now rewrite <- IH.
  - destruct (PyStr.eqb (key x) k); simpl; now rewrite <- IH.
Qed.

Lemma groupby_runs {A} (key : A -> str) (l : list A) :
  Forall (fun r => Forall (fun x => key x = fst r) (snd r)
                   /\ exists x, In x l /\ key x = fst r)
    (groupby key l).
Proof.
  induction l as [|x l IH]; [constructor|]. simpl.
  assert (Forall (fun r => Forall (fun y => key y = fst r) (snd r)
                           /\ exists y, In y (x :: l) /\ key y = fst r)
            (groupby key l)) as IH'.
  { eapply List.Forall_impl; [|exact IH].
    intros r [H (y & Hy & E)]. split; [assumption|].
    exists y. simpl. auto. }
  destruct (groupby key l) as [|[k xs] gs].
  - repeat constructor. exists x. simpl. auto.
  - inversion IH' as [|? ? [H1 H2] H3]; subst.
    destruct (PyStr.eqb (key x) k) eqn:E.
    + apply eqb_eq in E. constructor; [|assumption]. simpl in *.
      split; [constructor; assumption | assumption].
    + constructor; [|assumption]. simpl.
      split; [repeat constructor|]. exists x. simpl. auto.
Qed.

Lemma group_char_props (g : str) :
  good_group g = true ->
  g <> [] /\ strip g = g /\ contains NL g = false
  /\ contains "!" g = false /\ contains "&" g = false
  /\ trimmed ("&" :: g) = true.
Proof.
  unfold good_group. intros H. apply andb_true_iff in H as [H Hc].
  apply andb_true_iff in H as [Ht Hn].
  apply negb_true_iff, eqb_neq in Hn.
  assert (forall c, group_char c = false -> contains c g = false) as A.
  { intros c N. apply contains_false. intros Hin.
    rewrite forallb_forall in Hc. rewrite (Hc _ Hin) in N. discriminate. }
  repeat split; auto using strip_trimmed; try (apply A; reflexivity).
  apply (trimmed_app ["&"] g); [discriminate | assumption | reflexivity|].
  unfold trimmed in Ht. apply andb_true_iff in Ht as [_ Ht].
  now apply negb_true_iff in Ht.
Qed.

Lemma record_eta (p : ParamNml) :
  help p = None -> p = mkParamNml (group p) (name p) (pvalue p) None.
Proof. destruct p. simpl. now intros ->. Qed.

Lemma kept_line_props (p : ParamNml) :
  good_record p ->
  filter_line false (format_param p) = [kept_line p]
  /\ strip (kept_line p) = kept_line p
  /\ contains "=" (kept_line p) = true
  /\ contains NL (format_param p) = false
  /\ contains NL (kept_line p) = false
  /\ contains "&" (kept_line p) = false
  /\ _parse_line (kept_line p) = Ok (name p, pvalue p, []).
Proof.
  intros (_ & Hn & Hv & Hh). rewrite (record_eta p Hh) at 1 4. unfold kept_line.
  rewrite (record_eta p Hh).
  destruct (formatted_line (group p) (name p) (pvalue p) Hn Hv)
    as (F & E & N & A & P).
  repeat split; auto using strip_idem, strip_contains.
Qed.

Lemma filter_line_keep (line : str) :
  strip line <> [] -> startswith "!" (strip line) = false ->
  filter_line false line = [strip line].
Proof.
  intros N S. unfold filter_line. apply eqb_neq in N. now rewrite N, S.
Qed.

(** The lines of a block, filtered. *)
Lemma filtered_block (r : str * list ParamNml) :
  good_run r ->
  flat_map (filter_line false) (block_lines (fst r) (snd r)) = kept_lines r
  /\ Forall (fun l => contains NL l = false) (block_lines (fst r) (snd r)).
Proof.
  destruct r as [g ps]. intros [Hg Hps]. simpl in *.
  destruct (group_char_props g Hg) as (Gn & Gs & Gl & Gb & Ga & Gt).
  unfold block_lines, kept_lines. simpl. split.
  - rewrite filter_line_keep; rewrite (strip_trimmed _ Gt);
      [|discriminate | reflexivity].
    simpl. f_equal. rewrite flat_map_app. simpl.
    f_equal. induction Hps as [|p ps [Hp _] _ IH]; [reflexivity|].
    simpl. destruct (kept_line_props p Hp) as (F & _). now rewrite F, IH.
  - constructor; [exact Gl|]. apply Forall_app. split; [|now repeat constructor].
    apply List.Forall_forall. intros l Hl.
    apply in_map_iff in Hl as (p & <- & Hp).
    rewrite List.Forall_forall in Hps. destruct (Hps p Hp) as [Hr _].
    now destruct (kept_line_props p Hr) as (_ & _ & _ & N & _).
Qed.

Lemma join_lines_end (ls : list str) (x : str) :
  join [NL] (ls ++ [x]) = flat_map (fun l => l ++ [NL]) ls ++ x.
Proof.
  induction ls as [|l ls IH]; [reflexivity|].
  change ((l :: ls) ++ [x]) with (l :: (ls ++ [x])).
  destruct (ls ++ [x]) as [|y t] eqn:E; [now destruct ls|].
  rewrite join_cons2, IH. simpl. now rewrite <- !app_assoc.
Qed.

(** The text of the kept lines of a block. *)
Lemma join_kept_lines (r : str * list ParamNml) :
  join [NL] (kept_lines r) = "&" :: block_body r ++ lit "/".
Proof.
  unfold kept_lines, block_body.
  set (ls := map kept_line (snd r)).
  destruct (ls ++ [lit "/"]) as [|y t] eqn:E; [now destruct ls|].
  rewrite join_cons2, <- E, join_lines_end. simpl.
  now rewrite <- !app_assoc.
Qed.

Lemma rfind_last (c : ascii) (a e : str) :
  contains c e = false -> rfind c (a ++ c :: e) = Some (List.length a).
Proof.
  intros H. induction a as [|x a IH]; simpl.
  - now rewrite (rfind_none _ _ H), Ascii.eqb_refl.
  - now rewrite IH.
Qed.

Lemma not_amp_all (s : str) :
  contains "&" s = false ->
  forallb (fun c => negb (Ascii.eqb "&" c)) s = true.
Proof.
  intros H. apply forallb_forall. intros c Hc. apply negb_true_iff.
  destruct (Ascii.eqb "&" c) eqn:E; [|reflexivity].
  apply Ascii.eqb_eq in E. subst c.
  apply contains_true in Hc. congruence.
Qed.

(** The match of the group pattern on a block that is followed by the
    end of the text or by the next block. *)
Lemma match_group_block (body tail : str) :
  body <> [] -> contains "&" body = false ->
  tail = [] \/ (exists t, tail = NL :: "&" :: t) ->
  match_group (body ++ "/" :: tail) = Some (body, tail).
Proof.
  intros Hn Ha Ht. unfold match_group.
  set (e := match tail with [] => [] | _ => [NL] end).
  assert (take_while (fun c => negb (Ascii.eqb "&" c)) (body ++ "/" :: tail)
          = body ++ "/" :: e) as ->.
  { rewrite take_while_app, (take_while_all _ _ (not_amp_all _ Ha)),
      (not_amp_all _ Ha).
    f_equal. simpl. f_equal. subst e.
    destruct Ht as [-> | [t ->]]; reflexivity. }
  destruct body as [|c0 b]; [congruence|].
  rewrite <- app_comm_cons. cbv iota beta.
  rewrite rfind_last by (subst e; now destruct tail).
  rewrite firstn_app, firstn_all, Nat.sub_diag. simpl firstn.
  rewrite app_nil_r. f_equal. f_equal.
  rewrite <- app_comm_cons. cbn [skipn].
  rewrite skipn_app, skipn_all2 by lia.
  replace (S (List.length b) - List.length b) with 1 by lia.
  reflexivity.
Qed.

End BlockRoundTrip.

Section DocumentRoundTrip.

Lemma block_body_props (r : str * list ParamNml) :
  good_run r -> block_body r <> [] /\ contains "&" (block_body r) = false.
Proof.
  destruct r as [g ps]. intros [Hg Hps]. simpl in *.
  destruct (group_char_props g Hg) as (Gn & _ & _ & _ & Ga & _).
  unfold block_body. simpl. split; [now destruct g|].
  rewrite contains_app, contains_cons, Ga. simpl.
  apply contains_false. intros Hin.
  apply in_flat_map in Hin as (l & Hl & Hin).
  apply in_map_iff in Hl as (p & <- & Hp).
  rewrite List.Forall_forall in Hps. destruct (Hps p Hp) as [Hr _].
  destruct (kept_line_props p Hr) as (_ & _ & _ & _ & _ & A & _).
  apply in_app_iff in Hin as [Hin|[E|[]]]; [|discriminate].
  apply contains_true in Hin. congruence.
Qed.

(** The kept text of a document: a block, then nothing or a line break
    and the next block. *)
Lemma join_blocks (r : str * list ParamNml) (rs : list (str * list ParamNml)) :
  join [NL] (flat_map kept_lines (r :: rs)) =
  "&" :: block_body r ++ "/" ::
    match rs with
    | [] => []
    | _ :: _ => NL :: join [NL] (flat_map kept_lines rs)
    end.
Proof.
  cbn [flat_map]. rewrite join_app, join_kept_lines.
  unfold kept_lines at 1.
  destruct rs as [|r' rs]; simpl; rewrite <- ?app_assoc; reflexivity.
Qed.

Lemma findall_blocks (runs : list (str * list ParamNml)) :
  Forall good_run runs ->
  findall_group_re (join [NL] (flat_map kept_lines runs)) = map block_body runs.
Proof.
  induction 1 as [|r rs Hr Hrs IH]; [reflexivity|].
  rewrite join_blocks, findall_cons. simpl Ascii.eqb. cbv iota.
  destruct (block_body_props r Hr) as [Bn Ba].
  rewrite match_group_block; auto.
  - simpl. f_equal. destruct rs as [|r' rs]; [reflexivity|].
    rewrite findall_cons. exact IH.
  - destruct rs as [|r' rs]; [now left|]. right.
    rewrite join_blocks. eauto.
Qed.

Lemma split_lines (ls : list str) :
  Forall (fun l => contains NL l = false) ls ->
  split NL (flat_map (fun l => l ++ [NL]) ls) = ls ++ [[]].
Proof.
  induction 1 as [|l ls Hl _ IH]; [reflexivity|].
  simpl. rewrite <- app_assoc. simpl. now rewrite (split_app _ _ _ Hl), IH.
Qed.

Lemma join_continuations_lines (ls acc : list str) :
  Forall (fun l => strip l = l /\ contains "=" l = true) ls ->
  join_continuations (ls ++ [[]]) acc = Ok (acc ++ ls).
Proof.
  intros H. revert acc. induction H as [|l ls [Hs He] _ IH]; intros acc.
  - simpl. now rewrite app_nil_r.
  - simpl. rewrite Hs, He, IH, <- app_assoc. reflexivity.
Qed.

(** A block parses to the records it was written from. *)
Lemma parse_group_block (r : str * list ParamNml) :
  good_run r -> parse_group (block_body r) = Ok (parsed_run r).
Proof.
  destruct r as [g ps]. intros [Hg Hps]. simpl in *.
  destruct (group_char_props g Hg) as (_ & Gs & Gl & Gb & _ & _).
  assert (Forall good_record ps) as Hr.
  { eapply List.Forall_impl; [|exact Hps]. now intros p [? _]. }
  unfold parse_group, block_body. simpl fst. simpl snd.
  rewrite (split_app _ _ _ Gl), split_lines.
  2:{ apply List.Forall_forall. intros l Hl.
      apply in_map_iff in Hl as (p & <- & Hp).
      rewrite List.Forall_forall in Hr.
      now destruct (kept_line_props p (Hr p Hp)) as (_ & _ & _ & _ & N & _). }
  rewrite Gs, Gb, join_continuations_lines.
  2:{ apply List.Forall_forall. intros l Hl.
      apply in_map_iff in Hl as (p & <- & Hp).
      rewrite List.Forall_forall in Hr.
      now destruct (kept_line_props p (Hr p Hp)) as (_ & S & E & _). }
  cbn [bind app]. unfold parsed_run. simpl fst. simpl snd.
  clear Hps. induction Hr as [|p ps Hp _ IH]; [reflexivity|].
  simpl. unfold parse_param at 1.
  destruct (kept_line_props p Hp) as (_ & _ & _ & _ & _ & _ & P).
  rewrite P. simpl. now rewrite IH.
Qed.

Lemma mapM_parse_groups (runs : list (str * list ParamNml)) :
  Forall good_run runs ->
  mapM parse_group (map block_body runs) = Ok (map parsed_run runs).
Proof.
  induction 1 as [|r rs Hr _ IH]; [reflexivity|].
  simpl. now rewrite (parse_group_block r Hr), IH.
Qed.

(** The lines of the text [format_nml] writes, as [parse_nml] keeps
    them. *)
Lemma filtered_document (runs : list (str * list ParamNml)) :
  Forall good_run runs -> runs <> [] ->
  let lines := flat_map (fun r => block_lines (fst r) (snd r)) runs in
  filtered_lines false (join [NL] lines ++ [NL]) = flat_map kept_lines runs.
Proof.
  intros H Hne lines. unfold filtered_lines.
  assert (Forall (fun l => contains NL l = false) lines
          /\ flat_map (filter_line false) lines = flat_map kept_lines runs)
    as [Hn Hf].
  { subst lines. clear Hne. induction H as [|r rs Hr _ [IH1 IH2]].
    - split; [constructor | reflexivity].
    - destruct (filtered_block r Hr) as [F N]. cbn [flat_map].
      split; [apply Forall_app; now split|].
      now rewrite flat_map_app, F, IH2. }
  assert (lines <> []) as Ln.
  { subst lines. destruct runs as [|r rs]; [congruence|]. discriminate. }
  assert (join [NL] lines ++ [NL] = join [NL] (lines ++ [[]])) as ->.
  { rewrite join_app. destruct lines; [congruence | reflexivity]. }
  rewrite split_join_tokens.
  - rewrite flat_map_app, Hf. simpl. now rewrite app_nil_r.
  - apply Forall_app. split; [assumption | now repeat constructor].
  - now destruct lines.
Qed.

End DocumentRoundTrip.

Section RoundTrip.

Lemma good_item_record (sep : ascii) (kv : str * value) :
  good_item sep kv -> good_record (record_of sep kv).
Proof. intros (_ & G & N & V). repeat split; assumption. Qed.

Lemma good_runs (pars : list ParamNml) :
  Forall good_record pars -> Forall good_run (groupby group pars).
Proof.
  intros H. pose proof (groupby_runs group pars) as R.
  pose proof (groupby_concat group pars) as C.
  rewrite List.Forall_forall in H.
  apply List.Forall_forall. intros r Hr.
  rewrite List.Forall_forall in R. destruct (R r Hr) as [R1 (x & Hx & Ex)].
  split.
  - rewrite <- Ex. apply (H x Hx).
  - apply List.Forall_forall. intros p Hp. split.
    + apply H. rewrite <- C. apply in_concat. exists (snd r).
      split; [now apply in_map | assumption].
    + rewrite List.Forall_forall in R1. now apply R1.
Qed.

Lemma parsed_runs_concat (runs : list (str * list ParamNml)) :
  Forall good_run runs ->
  concat (map parsed_run runs) =
  map (fun p => mkParamNml (group p) (name p) (pvalue p) (Some []))
    (concat (map snd runs)).
Proof.
  induction 1 as [|r rs [_ Hr] _ IH]; [reflexivity|].
  simpl. rewrite map_app, IH. f_equal. unfold parsed_run.
  apply map_ext_in. intros p Hp. rewrite List.Forall_forall in Hr.
  destruct (Hr p Hp) as [_ <-]. reflexivity.
Qed.

(** [parse_nml] on the text [format_nml] writes. *)
Lemma parse_nml_format (pars : list ParamNml) :
  Forall good_record pars ->
  exists text,
    format_nml pars = Ok text
    /\ parse_nml text
       = Ok (map (fun p => mkParamNml (group p) (name p) (pvalue p) (Some []))
               pars).
Proof.
  intros H. pose proof (good_runs pars H) as R.
  unfold format_nml. rewrite format_groups_ok.
  2:{ eapply List.Forall_impl; [|exact R]. intros r [Hg _].
      now destruct (group_char_props _ Hg). }
  eexists. split; [reflexivity|]. cbn [app].
  destruct pars as [|p pars]; [vm_compute; reflexivity|].
  assert (groupby group (p :: pars) <> []) as Hne.
  { intros E. pose proof (groupby_concat group (p :: pars)) as C.
    rewrite E in C. discriminate. }
  unfold parse_nml, parse_nml_with.
  rewrite (filtered_document _ R Hne), (findall_blocks _ R),
    (mapM_parse_groups _ R).
  cbn [bind]. now rewrite (parsed_runs_concat _ R), groupby_concat.
Qed.

Lemma record_of_key (sep : ascii) (kv : str * value) :
  count sep (fst kv) = 1 ->
  (flat_key sep (record_of sep kv), pvalue (record_of sep kv)) = kv.
Proof.
  intros H. destruct kv as [k v]. unfold flat_key, record_of. simpl in *.
  f_equal. symmetry. apply before_after. apply count_pos. lia.
Qed.

End RoundTrip.

(** Floats are written by their shortest text and read back to the
    datum they were: one tenth, whose text is not its exact value; the
    largest float; the smallest one; minus zero; an infinity; and a text
    beyond the range or the precision of a float is rounded. *)
Lemma float_text_examples :
  repr_float (FFin false 7205759403792794 (-56)) = lit "0.1"
  /\ py_float (lit "0.1") = Some (FFin false 7205759403792794 (-56))
  /\ repr_float (FFin false 9007199254740991 971)
     = lit "1.7976931348623157e+308"
  /\ py_float (lit "1.7976931348623157e+308")
     = Some (FFin false 9007199254740991 971)
  /\ repr_float (FFin false 1 (-1074)) = lit "5e-324"
  /\ py_float (lit "5e-324") = Some (FFin false 1 (-1074))
  /\ repr_float (FFin true 0 0) = lit "-0.0"
  /\ py_float (lit "-0.0") = Some (FFin true 0 0)
  /\ repr_float (FInf true) = lit "-inf"
  /\ py_float (lit "1e400") = Some (FInf false)
  /\ py_float (lit "1.0000000000000001") = py_float (lit "1.0")
  /\ py_float (lit "1.0") = Some (FFin false 4503599627370496 (-52)).
Proof.
  do 11 (split; [vm_compute; reflexivity|]). vm_compute; reflexivity.
Qed.

(** C1 as stated fails: a list with one element is written as the text
    of its element and read back as the element, not as a list; and a
    string with [=] in it, or a list of strings with a blank in one of
    them, is written to a text that [loads] rejects. *)
Lemma roundtrip_singleton_counterexample :
  dumps "." [(lit "g.n", VList [VInt 1])]
  = Ok (lit "&g" ++ NL :: lit " n               = 1          " ++ NL ::
        lit "/" ++ [NL])
  /\ loads "." (lit "&g" ++ NL :: lit " n               = 1          " ++ NL ::
                lit "/" ++ [NL])
     = Ok [(lit "g.n", VInt 1)]
  /\ [(lit "g.n", VInt 1)] <> [(lit "g.n", VList [VInt 1])]
  /\ (let* text := dumps "." [(lit "g.n", VStr (lit "a=b"))] in
      loads "." text) = Err (UnpackError 2 3)
  /\ (let* text := dumps "." [(lit "g.n", VList [VStr (lit "a b");
                                                  VStr (lit "c")])] in
      loads "." text) = Err (ParseValueError (lit "'a")).
Proof.
  repeat split; try (vm_compute; reflexivity). discriminate.
Qed.

(** C1, amended. For every ordered mapping without repeated keys whose
    keys are a good group name, the separator and a good parameter name,
    and whose values are integers, floats, booleans, good strings or
    lists of at least two integers, floats, booleans and good strings
    without blanks, [,] and [*], [dumps] returns a text and [loads] of
    that text is the mapping itself: the same keys in the same order,
    each bound to the datum it was bound to. Every float is covered, the
    infinities and nan as well; nan is read back as nan, which is the
    same datum although [==] does not hold between a nan and itself
    ([float_eq]). *)
Theorem loads_dumps_roundtrip (sep : ascii) (d : odict value) :
  List.NoDup (keys d) ->
  Forall (good_item sep) d ->
  exists text, dumps sep d = Ok text /\ loads sep text = Ok d.
Proof.
  intros Hk Hd.
  assert (Forall (fun kv => count sep (fst kv) = 1) d) as Hc.
  { eapply List.Forall_impl; [|exact Hd]. now intros kv [? _]. }
  assert (Forall good_record (map (record_of sep) d)) as Hr.
  { apply List.Forall_forall. intros p Hp.
    apply in_map_iff in Hp as (kv & <- & Hkv).
    rewrite List.Forall_forall in Hd. now apply good_item_record, Hd. }
  destruct (parse_nml_format _ Hr) as (text & F & P).
  exists text. unfold dumps, loads.
  rewrite (mapM_dumps_param sep d Hc). cbn [bind].
  split; [exact F|]. rewrite P. cbn [bind]. f_equal.
  rewrite !map_map.
  assert (map (fun kv => (flat_key sep (record_of sep kv),
                          pvalue (record_of sep kv))) d = d) as E.
  { clear - Hc. induction Hc as [|kv d H _ IH]; [reflexivity|].
    cbn [map]. now rewrite (record_of_key sep kv H), IH. }
  rewrite (map_ext _ (fun kv => (flat_key sep (record_of sep kv),
                                 pvalue (record_of sep kv))))
    by reflexivity.
  rewrite E. now apply odict_of_list_fresh.
Qed.

Lemma loads_dumps_roundtrip_witness :
  let d := [(lit "run.n", VInt (-12));
            (lit "run.name", VStr (lit "it's a/b, c"));
            (lit "grid.flags", VList [VBool true; VInt 3; VStr (lit "x")]);
            (lit "run.dt", VFloat (FFin false 7205759403792794 (-56)));
            (lit "grid.dx", VList [VFloat (FFin true 6755399441055744 (-52));
                                   VFloat (FInf false)]);
            (lit "run.on", VBool false)] in
  exists text, dumps "." d = Ok text /\ loads "." text = Ok d.
Proof.
  intros d. apply (loads_dumps_roundtrip "." d).
  - repeat constructor; simpl; intuition discriminate.
  - repeat constructor.
Defined.

(** * Further properties of the namelist module *)

(** ** [nml_update_if_exists] *)

Section UpdateIfExists.

Lemma update_step_keys (par : odict value) (k : str) (v : value) :
  keys (if in_list k (keys par) then odict_set k v par else par) = keys par.
Proof.
  destruct (in_list k (keys par)) eqn:E; [|reflexivity].
  now rewrite keys_odict_set, E.
Qed.

Lemma odict_get_some_in {V} (k : str) (d : odict V) :
  in_list k (keys d) = true -> exists v, odict_get k d = Some v.
Proof.
  induction d as [|[k' v'] d IH]; [discriminate|]. simpl.
  destruct (PyStr.eqb k k'); simpl; eauto.
Qed.

End UpdateIfExists.

(** X1. [nml_update_if_exists] never adds, drops or reorders a key: the
    result has the keys of [par], in the order of [par], whatever [new]
    holds. *)
Theorem nml_update_if_exists_keys (par new : odict value) :
  keys (nml_update_if_exists par new) = keys par.
Proof.
  unfold nml_update_if_exists. revert par.
  induction new as [|kv new IH]; intros par; [reflexivity|].
  simpl. rewrite IH. apply update_step_keys.
Qed.

(** X2. After [nml_update_if_exists], a key of [par] is bound to its
    value in [new] when [new] has the key and to its old value when it
    has not; a key that is not in [par] stays unbound even when [new]
    has it. *)
Theorem nml_update_if_exists_get (par new : odict value) (k : str) :
  List.NoDup (keys new) ->
  odict_get k (nml_update_if_exists par new) =
  if in_list k (keys par) then
    match odict_get k new with
    | Some v => Some v
    | None => odict_get k par
    end
  else None.
Proof.
  unfold nml_update_if_exists. intros H. revert par.
  induction new as [|[k0 v0] new IH]; intros par.
  - simpl. destruct (in_list k (keys par)) eqn:E; [reflexivity|].
    apply odict_get_none. now apply in_list_false.
  - inversion H as [|? ? Hk0 Hn]; subst. cbn [fold_left fst snd].
    rewrite (IH Hn), update_step_keys. cbn [fst snd].
    destruct (in_list k (keys par)) eqn:E; [|reflexivity].
    cbn [odict_get]. destruct (PyStr.eqb k k0) eqn:K.
    + apply eqb_eq in K. subst k0.
      rewrite (odict_get_none k new Hk0), E. apply odict_get_set_same.
    + destruct (odict_get k new); [reflexivity|].
      destruct (in_list k0 (keys par)); [|reflexivity].
      apply odict_get_set_other. now apply eqb_neq.
Qed.

Lemma nml_update_if_exists_get_witness :
  odict_get (lit "g.a")
    (nml_update_if_exists [(lit "g.a", VInt 1); (lit "g.b", VInt 2)]
       [(lit "g.c", VInt 7); (lit "g.a", VInt 5)]) = Some (VInt 5)
  /\ odict_get (lit "g.c")
       (nml_update_if_exists [(lit "g.a", VInt 1); (lit "g.b", VInt 2)]
          [(lit "g.c", VInt 7); (lit "g.a", VInt 5)]) = None.
Proof.
  split.
  - rewrite (nml_update_if_exists_get _ _ (lit "g.a")); [reflexivity|].
    repeat constructor; simpl; intuition discriminate.
  - rewrite (nml_update_if_exists_get _ _ (lit "g.c")); [reflexivity|].
    repeat constructor; simpl; intuition discriminate.
Defined.

(** ** The continuation joiner *)

Section Continuations.

Lemma concat_removelast_last (acc : list str) (line : str) :
  acc <> [] ->
  concat (removelast acc ++ [List.last acc [] ++ line]) = concat acc ++ line.
Proof.
  intros H. rewrite (app_removelast_last [] H) at 3.
  rewrite !concat_app. simpl. now rewrite !app_nil_r, app_assoc.
Qed.

Lemma length_removelast_last (acc : list str) (x : str) :
  acc <> [] -> List.length (removelast acc ++ [x]) = List.length acc.
Proof.
  intros H. rewrite (app_removelast_last [] H) at 2.
  now rewrite !length_app.
Qed.

Lemma forall_removelast_last (P : str -> Prop) (acc : list str) (line : str) :
  acc <> [] -> Forall P acc -> P (List.last acc [] ++ line) ->
  Forall P (removelast acc ++ [List.last acc [] ++ line]).
Proof.
  intros H F L. apply Forall_app. split; [|now repeat constructor].
  rewrite (app_removelast_last [] H) in F. now apply Forall_app in F as [F _].
Qed.

Lemma join_continuations_inv (lines acc joined : list str) :
  join_continuations lines acc = Ok joined ->
  Forall (fun l => contains "=" l = true) acc ->
  concat joined = concat acc ++ concat (map strip lines)
  /\ List.length joined
     = List.length acc
       + List.length (List.filter (fun l => contains "=" (strip l)) lines)
  /\ Forall (fun l => contains "=" l = true) joined.
Proof.
  revert acc. induction lines as [|line lines IH]; intros acc H F.
  - injection H as <-. simpl. rewrite app_nil_r. auto.
  - cbn [join_continuations] in H. cbn [map concat List.filter].
    destruct (contains "=" (strip line)) eqn:E.
    + destruct (IH _ H) as (A & B & C).
      { apply Forall_app. split; [assumption | now repeat constructor]. }
      rewrite A, B, concat_app, length_app. simpl.
      rewrite app_nil_r, <- app_assoc. repeat split; auto. lia.
    + destruct (PyStr.eqb (strip line) []) eqn:N.
      * apply eqb_eq in N. rewrite N. now apply IH.
      * destruct acc as [|a acc]; [discriminate|].
        assert (a :: acc <> []) as Hne by discriminate.
        destruct (IH _ H) as (A & B & C).
        { apply forall_removelast_last; auto.
          rewrite contains_app.
          assert (contains "=" (List.last (a :: acc) []) = true) as ->;
            [|reflexivity].
          rewrite List.Forall_forall in F. apply F.
          rewrite (app_removelast_last [] Hne) at 2.
          apply in_app_iff. right. now left. }
        rewrite A, B, concat_removelast_last, length_removelast_last by auto.
        rewrite <- app_assoc. auto.
Qed.

End Continuations.

(** X3. The continuation joiner loses and adds no character: the
    logical lines it returns, put end to end, are the trimmed physical
    lines put end to end (a continuation is appended without any
    separator); there is one logical line per physical line with an [=],
    and every logical line holds an [=]. *)
Theorem join_continuations_preserves (lines joined : list str) :
  join_continuations lines [] = Ok joined ->
  concat joined = concat (map strip lines)
  /\ List.length joined
     = List.length (List.filter (fun l => contains "=" (strip l)) lines)
  /\ Forall (fun l => contains "=" l = true) joined.
Proof.
  intros H. now destruct (join_continuations_inv lines [] joined H
                            (List.Forall_nil _)) as (A & B & C).
Qed.

Lemma join_continuations_preserves_witness :
  concat [lit "a = 1, 2,3"; lit "b = 4"]
  = concat (map strip [lit " a = 1, 2,"; lit "   3"; lit ""; lit " b = 4"]).
Proof.
  apply (join_continuations_preserves
           [lit " a = 1, 2,"; lit "   3"; lit ""; lit " b = 4"]
           [lit "a = 1, 2,3"; lit "b = 4"]).
  vm_compute. reflexivity.
Defined.

(** X4. A group whose line right after the header is not blank and has
    no [=] makes [parse_nml]'s loop over the group raise [IndexError]:
    there is no logical line yet to continue. *)
Theorem parse_group_leading_continuation (g l tail : str) :
  contains NL g = false -> contains NL l = false ->
  tail = [] \/ startswith NL tail = true ->
  strip l <> [] -> contains "=" (strip l) = false ->
  parse_group (g ++ NL :: l ++ tail) = Err IndexError.
Proof.
  intros Hg Hl Ht Hn He. unfold parse_group.
  rewrite (split_app _ _ _ Hg).
  assert (exists rest, split NL (l ++ tail) = l :: rest) as [rest ->].
  { destruct Ht as [-> | Ht].
    - rewrite app_nil_r, (split_none _ _ Hl). eauto.
    - destruct tail as [|c t]; [discriminate|]. simpl in Ht.
      apply Ascii.eqb_eq in Ht. subst c.
      rewrite (split_app _ _ _ Hl). eauto. }
  cbn [join_continuations]. rewrite He.
  apply eqb_neq in Hn. rewrite Hn. reflexivity.
Qed.

Lemma parse_group_leading_continuation_witness :
  parse_group (lit "g" ++ NL :: lit "  3, 4" ++ NL :: lit "a = 1")
  = Err IndexError.
Proof.
  apply (parse_group_leading_continuation (lit "g") (lit "  3, 4")
           (NL :: lit "a = 1")); try reflexivity.
  - now right.
  - discriminate.
Defined.

(** ** Scalars and arrays of the value grammar *)

Section ScalarRules.

Lemma bool_letters (c : ascii) :
  (contains (lower_char c) (lit ".tf") = true ->
   is_space c = false /\ int_char c = false)
  /\ (contains (lower_char c) (lit "rl") = true ->
      is_space c = false /\ float_char c = false)
  /\ (contains (lower_char c) (lit "tf") = true -> py_float [c] = None).
Proof.
  destruct c as [[] [] [] [] [] [] [] []]; vm_compute;
    repeat split; intros; congruence.
Qed.

Lemma lower_letter (s w : str) (x : ascii) :
  lower s = w -> In x w -> exists c, In c s /\ lower_char c = x.
Proof.
  intros <- H. apply in_map_iff in H as (c & E & Hc). eauto.
Qed.

Lemma bool_word_not_int (s w : str) (x : ascii) :
  lower s = w -> In x w -> contains x (lit ".tf") = true -> py_int s = None.
Proof.
  intros E Hx Hw. destruct (lower_letter s w x E Hx) as (c & Hc & <-).
  destruct (bool_letters c) as ((S & I) & _); [assumption|].
  apply (py_int_bad_char s c); [now apply in_strip | assumption].
Qed.

Lemma bool_word_not_float (s w : str) (x : ascii) :
  lower s = w -> In x w -> contains x (lit "rl") = true -> py_float s = None.
Proof.
  intros E Hx Hw. destruct (lower_letter s w x E Hx) as (c & Hc & <-).
  destruct (bool_letters c) as (_ & (S & F) & _); [assumption|].
  apply (py_float_bad_char s c); [now apply in_strip | assumption].
Qed.

Lemma bool_letter_not_float (s : str) (x : ascii) :
  lower s = [x] -> contains x (lit "tf") = true -> py_float s = None.
Proof.
  destruct s as [|c [|d s]]; try discriminate. intros [= <-] H.
  now apply bool_letters.
Qed.

(** A text that in lower case is one of the six boolean words is no
    number. *)
Lemma bool_word_not_number (s : str) :
  is_true_word s = true \/ is_false_word s = true ->
  py_int s = None /\ py_float s = None.
Proof.
  unfold is_true_word, is_false_word, in_list. simpl.
  rewrite !orb_false_r, !orb_true_iff. rewrite !eqb_eq.
  intros [[H|[H|H]]|[H|[H|H]]].
  - split; [apply (bool_word_not_int s _ "." H) |
            apply (bool_word_not_float s _ "r" H)]; simpl; auto 10.
  - split; [apply (bool_word_not_int s _ "t" H) |
            apply (bool_letter_not_float s "t" H)]; simpl; auto 10.
  - split; [apply (bool_word_not_int s _ "t" H) |
            apply (bool_word_not_float s _ "r" H)]; simpl; auto 10.
  - split; [apply (bool_word_not_int s _ "." H) |
            apply (bool_word_not_float s _ "l" H)]; simpl; auto 10.
  - split; [apply (bool_word_not_int s _ "f" H) |
            apply (bool_letter_not_float s "f" H)]; simpl; auto 10.
  - split; [apply (bool_word_not_int s _ "f" H) |
            apply (bool_word_not_float s _ "l" H)]; simpl; auto 10.
Qed.

Lemma false_word_not_true (s : str) :
  is_false_word s = true -> is_true_word s = false.
Proof.
  unfold is_true_word, is_false_word, in_list. simpl.
  rewrite !orb_false_r, !orb_true_iff. rewrite !eqb_eq.
  intros [H|[H|H]]; rewrite H; reflexivity.
Qed.

End ScalarRules.

(** X5. The boolean words are read in any letter case and nothing comes
    before them: a text that in lower case is [.true.], [t] or [true]
    parses to [True], and one that is [.false.], [f] or [false] parses
    to [False]. *)
Theorem parse_value_boolean_words (s : str) :
  (is_true_word s = true -> _parse_value s = Ok (VBool true))
  /\ (is_false_word s = true -> _parse_value s = Ok (VBool false)).
Proof.
  split; intros H.
  - destruct (bool_word_not_number s (or_introl H)) as [I F].
    rewrite _parse_value_unfold. unfold parse_value_body.
    now rewrite I, F, H.
  - destruct (bool_word_not_number s (or_intror H)) as [I F].
    rewrite _parse_value_unfold. unfold parse_value_body.
    now rewrite I, F, (false_word_not_true s H), H.
Qed.

Lemma parse_value_boolean_words_witness :
  _parse_value (lit ".TRUE.") = Ok (VBool true)
  /\ _parse_value (lit "False") = Ok (VBool false).
Proof.
  split.
  - apply (proj1 (parse_value_boolean_words (lit ".TRUE."))). reflexivity.
  - apply (proj2 (parse_value_boolean_words (lit "False"))). reflexivity.
Defined.

(** X6. A text between two quotes of one kind, with no further quote of
    that kind inside, parses to the raw text between the quotes,
    whatever that text is: digits stay a string and nothing is
    unescaped. *)
Theorem parse_value_quoted (q : ascii) (s : str) :
  q = "'" \/ q = DQ -> contains q s = false ->
  _parse_value (q :: s ++ [q]) = Ok (VStr s).
Proof.
  intros C Q.
  destruct (quote_props _ C) as (P1 & P2 & P3 & P4 & _).
  destruct (not_scalar (q :: s ++ [q]) q (or_introl eq_refl) P1 P2 P3 P4)
    as (H1 & H2 & H3 & H4).
  rewrite _parse_value_unfold. unfold parse_value_body.
  now rewrite H1, H2, H3, H4, (is_quoted_repr q s C Q), inner_quoted.
Qed.

Lemma parse_value_quoted_witness :
  _parse_value (DQ :: lit "10, it's 3*2" ++ [DQ])
  = Ok (VStr (lit "10, it's 3*2")).
Proof.
  apply (parse_value_quoted DQ (lit "10, it's 3*2")); [now right | reflexivity].
Defined.

(** X7. The slash form and the comma form of an array agree: a text
    with a comma that is neither quoted nor slash-delimited parses to
    the same result, value or exception, with and without enclosing
    slashes. *)
Theorem parse_value_slash_comma (s : str) :
  contains "," s = true -> is_quoted s = false -> is_slashed s = false ->
  _parse_value ("/" :: s ++ ["/"]) = _parse_value s.
Proof.
  intros Hc Hq Hs.
  assert (In "," s) as Hin by now apply contains_true.
  destruct (not_scalar s "," Hin eq_refl eq_refl eq_refl eq_refl)
    as (H1 & H2 & H3 & H4).
  rewrite (parse_value_comma s) by assumption.
  destruct (not_scalar ("/" :: s ++ ["/"]) "/" (or_introl eq_refl)
              eq_refl eq_refl eq_refl eq_refl) as (G1 & G2 & G3 & G4).
  rewrite _parse_value_unfold. unfold parse_value_body.
  rewrite G1, G2, G3, G4.
  assert (is_quoted ("/" :: s ++ ["/"]) = false) as -> by reflexivity.
  assert (is_slashed ("/" :: s ++ ["/"]) = true) as ->.
  { unfold is_slashed. cbn [startswith]. rewrite Ascii.eqb_refl.
    change ("/" :: s ++ ["/"]) with (("/" :: s) ++ ["/"]).
    now rewrite endswith_app. }
  now rewrite inner_quoted.
Qed.

Lemma parse_value_slash_comma_witness :
  _parse_value (lit "/1, 2*3,.true./") = _parse_value (lit "1, 2*3,.true.").
Proof.
  apply (parse_value_slash_comma (lit "1, 2*3,.true.")); reflexivity.
Defined.

(** X8. A negative repeat count is no error: the token [N*V] with a
    negative integer [N] and a value-text [V] without [,] and [*] that
    the value grammar accepts parses to the empty list. *)
Theorem parse_value_negative_count (z : Z) (V : str) (x : value) :
  (z < 0)%Z -> contains "," V = false -> contains "*" V = false ->
  _parse_value (strip V) = Ok x ->
  _parse_value (repr_int z ++ "*" :: V) = Ok (VList []).
Proof.
  intros Hz HcV HsV Hx.
  set (token := repr_int z ++ "*" :: V).
  assert (forall c, word_char c = false -> contains c (repr_int z) = false)
    as W.
  { intros c Hc. apply word_absent; [assumption|].
    apply repr_int_forallb; [|reflexivity]. intros d Hd.
    now apply digit_props. }
  assert (In "*" token) as Hin
    by (subst token; apply in_app_iff; right; now left).
  destruct (not_scalar token "*" Hin eq_refl eq_refl eq_refl eq_refl)
    as (H1 & H2 & H3 & H4).
  assert (exists t, token = "-" :: t) as [t Et].
  { subst token. unfold repr_int.
    apply Z.ltb_lt in Hz. rewrite Hz. simpl. eauto. }
  assert (is_quoted token = false /\ is_slashed token = false) as [H5 H6]
    by (rewrite Et; split; reflexivity).
  assert (contains "," token = false) as H7.
  { subst token. now rewrite contains_app, contains_cons, HcV, (W "," eq_refl). }
  assert (contains "*" token = true) as H8 by now apply contains_true.
  rewrite parse_value_star by assumption.
  cbn [_parse_array]. unfold parse_token. rewrite H8. subst token.
  rewrite split_app by (apply W; reflexivity).
  rewrite (split_none _ _ HsV), py_int_repr_int, Hx. simpl.
  destruct z; try lia. reflexivity.
Qed.

Lemma parse_value_negative_count_witness :
  _parse_value (lit "-2*7") = Ok (VList []).
Proof.
  apply (parse_value_negative_count (-2) (lit "7") (VInt 7));
    try reflexivity.
Defined.

(** ** The line parser: errors and the trailing comma *)

Section LineShapes.

Lemma split_length_count (c : ascii) (s : str) :
  List.length (split c s) = S (count c s).
Proof.
  induction s as [|x s IH]; [reflexivity|].
  rewrite count_cons. simpl. destruct (Ascii.eqb c x); simpl.
  - now rewrite IH.
  - destruct (split c s); simpl in *; lia.
Qed.

Lemma working_line_plain (l : str) :
  contains "!" l = false -> endswith "," l = false -> working_line l = l.
Proof. intros H E. unfold working_line. now rewrite H, E. Qed.

Lemma but_last_app (s : str) (c : ascii) : but_last (s ++ [c]) = s.
Proof. apply removelast_last. Qed.

Lemma endswith_last (c d : ascii) (s : str) :
  endswith c (s ++ [d]) = Ascii.eqb c d.
Proof. unfold endswith. now rewrite rev_app_distr. Qed.

Lemma endswith_blanks (c : ascii) (s sp : str) :
  is_space c = false -> forallb is_space sp = true -> sp <> [] ->
  endswith c (s ++ sp) = false.
Proof.
  intros Hc Hsp Hne. destruct (exists_last Hne) as (sp' & d & ->).
  rewrite app_assoc, endswith_last. rewrite forallb_app in Hsp.
  apply andb_true_iff in Hsp as [_ Hd]. simpl in Hd.
  rewrite andb_true_r in Hd. destruct (Ascii.eqb c d) eqn:E; [|reflexivity].
  apply Ascii.eqb_eq in E. congruence.
Qed.

Lemma strip_blanks (sp : str) : forallb is_space sp = true -> strip sp = [].
Proof.
  intros H. rewrite <- (app_nil_r sp). now rewrite (strip_pad_l sp []).
Qed.

End LineShapes.

(** X9. A line whose working text (the text before a [!], without a
    trailing comma) holds no [=] or more than one raises the unpacking
    error of [k, v = line.split('=')] with the number of parts found;
    the value grammar is not consulted. *)
Theorem parse_line_unpack_error (line : str) :
  count "=" (working_line line) <> 1 ->
  _parse_line line
  = Err (UnpackError 2 (S (count "=" (working_line line)))).
Proof.
  intros H. rewrite _parse_line_split.
  pose proof (split_length_count "=" (working_line line)) as L.
  destruct (split "=" (working_line line)) as [|k [|v [|w parts]]];
    simpl in L; try (now rewrite <- L).
  injection L as L. congruence.
Qed.

Lemma parse_line_unpack_error_witness :
  _parse_line (lit "a = 'x=y' ! note") = Err (UnpackError 2 3)
  /\ _parse_line (lit "1, 2, 3") = Err (UnpackError 2 1).
Proof.
  split.
  - apply (parse_line_unpack_error (lit "a = 'x=y' ! note")).
    vm_compute. lia.
  - apply (parse_line_unpack_error (lit "1, 2, 3")). vm_compute. lia.
Defined.

(** X10. One trailing comma is optional: a line without [!] that does
    not end with a comma parses to the same result, value or exception,
    with a comma appended. *)
Theorem parse_line_trailing_comma (l : str) :
  contains "!" l = false -> endswith "," l = false ->
  _parse_line (l ++ [","]) = _parse_line l.
Proof.
  intros H E. rewrite !_parse_line_split.
  assert (working_line (l ++ [","]) = l) as ->.
  { unfold working_line.
    rewrite contains_app, H. change (contains "!" [","]) with false.
    cbn [orb]. rewrite endswith_app. apply but_last_app. }
  assert (line_comment (l ++ [","]) = line_comment l) as ->.
  { unfold line_comment. rewrite contains_app, H.
    now change (contains "!" [","]) with false. }
  now rewrite working_line_plain.
Qed.

Lemma parse_line_trailing_comma_witness :
  _parse_line (lit "a = 1, 2,") = _parse_line (lit "a = 1, 2").
Proof.
  apply (parse_line_trailing_comma (lit "a = 1, 2")); reflexivity.
Defined.

(** X11. A parameter without a value is an error: a line made of a
    name without [=] and [!], the [=] and nothing but blanks raises the
    [ValueError] of the value grammar for the empty text. *)
Theorem parse_line_empty_value (k sp : str) :
  contains "=" k = false -> contains "!" k = false ->
  forallb is_space sp = true ->
  _parse_line (k ++ "=" :: sp) = Err (ParseValueError []).
Proof.
  intros Hk Hb Hsp.
  assert (contains "=" sp = false /\ contains "!" sp = false) as [S1 S2].
  { split; apply contains_false; intros H;
      rewrite forallb_forall in Hsp; now specialize (Hsp _ H). }
  rewrite _parse_line_split, working_line_plain.
  - rewrite (split_app _ _ _ Hk), (split_none _ _ S1).
    now rewrite (strip_blanks sp Hsp).
  - now rewrite contains_app, contains_cons, Hb, S2.
  - destruct sp as [|c sp].
    + now rewrite endswith_last.
    + change (k ++ "=" :: c :: sp) with (k ++ ["="] ++ c :: sp).
      rewrite app_assoc. now apply endswith_blanks.
Qed.

Lemma parse_line_empty_value_witness :
  _parse_line (lit "a =  ") = Err (ParseValueError []).
Proof.
  apply (parse_line_empty_value (lit "a ") (lit "  ")); reflexivity.
Defined.

(** ** The first loop of [parse_nml]: what the parser does not see *)

Section FilteredLines.

Lemma filtered_join (ic : bool) (lines : list str) :
  Forall (fun l => contains NL l = false) lines ->
  filtered_lines ic (join [NL] lines) = flat_map (filter_line ic) lines.
Proof.
  intros F. unfold filtered_lines. destruct lines as [|l lines].
  - reflexivity.
  - now rewrite split_join_tokens.
Qed.

Lemma filter_line_ignored (ic : bool) (l : str) :
  ignored_line l = true -> filter_line ic l = [].
Proof.
  unfold ignored_line, filter_line. intros H.
  destruct (PyStr.eqb (strip l) []); [reflexivity|]. simpl in H.
  now rewrite H.
Qed.

Lemma filter_line_strip (ic : bool) (l : str) :
  filter_line ic (strip l) = filter_line ic l.
Proof. unfold filter_line. now rewrite strip_idem. Qed.

Lemma findall_skip (a b : str) :
  contains "&" a = false -> findall_group_re (a ++ b) = findall_group_re b.
Proof.
  induction a as [|c a IH]; [reflexivity|].
  rewrite contains_cons. intros H. apply orb_false_iff in H as [H1 H2].
  simpl. rewrite findall_cons, H1. now apply IH.
Qed.

End FilteredLines.

(** X12. Blank lines and lines that are a comment from their first
    visible character on are invisible to the parser, wherever they
    stand, inside a group or outside: the text without them parses to
    the same result, records or exception. *)
Theorem parse_nml_ignored_lines (ic : bool) (lines : list str) :
  Forall (fun l => contains NL l = false) lines ->
  parse_nml_with ic
    (join [NL] (List.filter (fun l => negb (ignored_line l)) lines))
  = parse_nml_with ic (join [NL] lines).
Proof.
  intros F.
  assert (flat_map (filter_line ic)
            (List.filter (fun l => negb (ignored_line l)) lines)
          = flat_map (filter_line ic) lines) as E.
  { clear F. induction lines as [|l lines IH]; [reflexivity|].
    cbn [List.filter flat_map].
    destruct (ignored_line l) eqn:E; cbn [negb flat_map].
    - now rewrite (filter_line_ignored ic l E).
    - now rewrite IH. }
  unfold parse_nml_with. rewrite !filtered_join, E; try assumption.
  - reflexivity.
  - rewrite List.Forall_forall in *. intros l Hl.
    apply List.filter_In in Hl as [Hl _]. now apply F.
Qed.

Lemma parse_nml_ignored_lines_witness :
  parse_nml (join [NL] [lit "&g"; lit " a = 1"; lit "/"])
  = parse_nml (join [NL] [lit "! head /"; lit "&g"; lit "   "; lit " a = 1";
                          lit "  ! b = 2"; lit "/"]).
Proof.
  apply (parse_nml_ignored_lines false
           [lit "! head /"; lit "&g"; lit "   "; lit " a = 1";
            lit "  ! b = 2"; lit "/"]).
  repeat constructor.
Defined.

(** X13. Indentation and trailing blanks of the lines are invisible to
    the parser: the text with every line trimmed parses to the same
    result, records or exception. *)
Theorem parse_nml_trimmed_lines (ic : bool) (lines : list str) :
  Forall (fun l => contains NL l = false) lines ->
  parse_nml_with ic (join [NL] (map strip lines))
  = parse_nml_with ic (join [NL] lines).
Proof.
  intros F.
  assert (flat_map (filter_line ic) (map strip lines)
          = flat_map (filter_line ic) lines) as E.
  { clear F. induction lines as [|l lines IH]; [reflexivity|].
    cbn [map flat_map]. now rewrite filter_line_strip, IH. }
  unfold parse_nml_with. rewrite !filtered_join, E; try assumption.
  - reflexivity.
  - rewrite List.Forall_forall in *. intros l Hl.
    apply in_map_iff in Hl as (l0 & <- & Hl). apply strip_contains.
    now apply F.
Qed.

Lemma parse_nml_trimmed_lines_witness :
  parse_nml (join [NL] [lit "&g"; lit "a = 1"; lit "/"])
  = parse_nml (join [NL] [lit "  &g "; lit "     a = 1  "; lit " /"]).
Proof.
  apply (parse_nml_trimmed_lines false
           [lit "  &g "; lit "     a = 1  "; lit " /"]).
  repeat constructor.
Defined.

(** X14. Text before the first [&] is not parsed: lines without [&] in
    front of a document change nothing, whatever they hold. *)
Theorem parse_nml_leading_text (ic : bool) (a b : str) :
  contains "&" a = false ->
  parse_nml_with ic (a ++ NL :: b) = parse_nml_with ic b.
Proof.
  intros Ha. unfold parse_nml_with, filtered_lines.
  rewrite split_app_sep, flat_map_app, join_app.
  set (l1 := flat_map (filter_line ic) (split NL a)).
  set (l2 := flat_map (filter_line ic) (split NL b)).
  assert (contains "&" (join [NL] l1) = false) as J.
  { apply join_contains; [reflexivity|].
    apply List.Forall_forall. intros t Ht.
    apply in_flat_map in Ht as (l & Hl & Ht).
    apply (filter_line_contains ic "&" l t); [|assumption].
    now apply (contains_split "&" NL a). }
  destruct l1 as [|x l1], l2 as [|y l2]; now rewrite findall_skip.
Qed.

Lemma parse_nml_leading_text_witness :
  parse_nml (lit "a = 1 / x = 2" ++ NL :: lit "&g" ++ NL :: lit "b = 3 /")
  = parse_nml (lit "&g" ++ NL :: lit "b = 3 /").
Proof.
  apply (parse_nml_leading_text false (lit "a = 1 / x = 2")). reflexivity.
Defined.

(** ** The records of [parse_nml] *)

Section ParsedRecords.

Lemma free_of_intro (cs : list ascii) (s : str) :
  (forall c, In c cs -> ~ In c s) -> free_of cs s = true.
Proof.
  intros H. unfold free_of. apply forallb_forall. intros c Hc.
  apply negb_true_iff, contains_false. now apply H.
Qed.

Lemma before_in (c x : ascii) (s : str) : In x (before c s) -> In x s.
Proof.
  unfold before. induction s as [|y s IH]; [intros []|].
  cbn [take_while]. destruct (negb (Ascii.eqb c y)); [|intros []].
  intros [->|H]; [now left | right; auto].
Qed.

Lemma after_in (c x : ascii) (s : str) : In x (after c s) -> In x s.
Proof.
  unfold after. induction s as [|y s IH]; [intros []|].
  cbn [drop_while]. destruct (negb (Ascii.eqb c y)).
  - intros H. right. auto.
  - simpl. auto.
Qed.

Lemma but_last_in (x : ascii) (s : str) : In x (but_last s) -> In x s.
Proof.
  unfold but_last. induction s as [|y s IH]; [intros []|].
  destruct s as [|z s]; [intros []|].
  change (removelast (y :: z :: s)) with (y :: removelast (z :: s)).
  intros [->|H]; [now left | right; auto].
Qed.

Lemma split_in (d x : ascii) (s t : str) :
  In t (split d s) -> In x t -> In x s.
Proof.
  revert t; induction s as [|y s IH]; intros t.
  - intros [<-|[]] [].
  - simpl. destruct (Ascii.eqb d y).
    + intros [<-|H] Hx; [destruct Hx | right; eauto].
    + destruct (split d s) as [|w ws] eqn:S.
      * intros [<-|[]] [->|[]]. now left.
      * intros [<-|H] Hx.
        -- destruct Hx as [->|Hx]; [now left | right].
           apply (IH w); [now left | assumption].
        -- right. apply (IH t); [now right | assumption].
Qed.

Lemma split_piece_free (c : ascii) (s t : str) :
  In t (split c s) -> contains c t = false.
Proof.
  revert t; induction s as [|y s IH]; intros t.
  - intros [<-|[]]. reflexivity.
  - simpl. destruct (Ascii.eqb c y) eqn:E.
    + intros [<-|H]; [reflexivity | auto].
    + destruct (split c s) as [|w ws] eqn:S.
      * intros [<-|[]]. now rewrite contains_cons, E.
      * intros [<-|H].
        -- rewrite contains_cons, E. apply IH. now left.
        -- apply IH. now right.
Qed.

Lemma working_line_in (x : ascii) (line : str) :
  In x (working_line line) -> In x line.
Proof.
  unfold working_line. intros H.
  assert (In x (if contains "!" line then strip (before "!" line) else line))
    as H'.
  { destruct (endswith "," _); [now apply but_last_in | assumption]. }
  destruct (contains "!" line); [|assumption].
  now apply (before_in "!"), strip_in.
Qed.

Lemma working_line_bang (line : str) :
  contains "!" (working_line line) = false.
Proof.
  apply contains_false. intros H. unfold working_line in H.
  assert (In "!"%char
            (if contains "!" line then strip (before "!" line) else line))
    as H'.
  { destruct (endswith "," _); [now apply but_last_in | assumption]. }
  destruct (contains "!" line) eqn:E.
  - apply strip_in in H'. apply contains_true in H'.
    now rewrite before_contains in H'.
  - apply contains_true in H'. congruence.
Qed.

Lemma line_comment_in (x : ascii) (line : str) :
  In x (line_comment line) -> In x line.
Proof.
  unfold line_comment. destruct (contains "!" line); [|intros []].
  intros H. now apply (after_in "!"), strip_in.
Qed.

Lemma line_comment_trimmed (line : str) : trimmed (line_comment line) = true.
Proof.
  unfold line_comment. destruct (contains "!" line); [|reflexivity].
  apply strip_is_trimmed.
Qed.

(** What the line parser returns. *)
Lemma parse_line_shape (line n cm : str) (v : value) :
  _parse_line line = Ok (n, v, cm) ->
  trimmed n = true /\ contains "=" n = false /\ contains "!" n = false
  /\ (forall x, In x n -> In x line)
  /\ trimmed cm = true /\ (forall x, In x cm -> In x line).
Proof.
  rewrite _parse_line_split.
  destruct (split "=" (working_line line)) as [|k [|w [|u parts]]] eqn:S;
    try discriminate.
  destruct (_parse_value (strip w)); simpl; [|discriminate].
  intros [= <- <- <-].
  assert (In k (split "=" (working_line line))) as Hk
    by (rewrite S; now left).
  repeat split.
  - apply strip_is_trimmed.
  - apply strip_contains. now apply (split_piece_free "=" (working_line line)).
  - apply strip_contains.
    apply (contains_split "!" "=" (working_line line)); [|assumption].
    apply working_line_bang.
  - intros x Hx. apply working_line_in.
    apply (split_in "=" x _ k); [assumption|]. now apply strip_in.
  - apply line_comment_trimmed.
  - intros x. apply line_comment_in.
Qed.

Lemma take_while_forallb (p : ascii -> bool) (s : str) :
  forallb p (take_while p s) = true.
Proof.
  induction s as [|x s IH]; [reflexivity|]. simpl.
  destruct (p x) eqn:E; [|reflexivity]. simpl. now rewrite E.
Qed.

Lemma match_group_free (t g rest : str) :
  match_group t = Some (g, rest) -> contains "&" g = false.
Proof.
  unfold match_group.
  pose proof (take_while_forallb (fun c => negb (Ascii.eqb "&" c)) t) as F.
  destruct (take_while _ t) as [|c0 run]; [discriminate|].
  destruct (rfind "/" run) as [j|]; [|discriminate].
  intros [= <- _]. rewrite forallb_forall in F.
  apply contains_false. intros H.
  assert (In "&"%char (c0 :: run)) as H'.
  { destruct H as [H|H]; [now left | right].
    rewrite <- (firstn_skipn j run). apply in_or_app. now left. }
  specialize (F _ H'). now rewrite Ascii.eqb_refl in F.
Qed.

(** No captured block holds an [&]. *)
Lemma findall_free (s g : str) :
  In g (findall_group_re s) -> contains "&" g = false.
Proof.
  unfold findall_group_re. generalize (List.length s) as f.
  intros f. revert s. induction f as [|f IH]; intros s; [intros []|].
  destruct s as [|c t]; [intros []|]. simpl.
  destruct (Ascii.eqb "&" c); [|apply IH].
  destruct (match_group t) as [[g0 rest]|] eqn:M; [|apply IH].
  intros [<-|H]; [now apply (match_group_free t g0 rest) | now apply (IH rest)].
Qed.

Lemma joined_in (lines joined : list str) (l : str) (x : ascii) :
  join_continuations lines [] = Ok joined -> In l joined -> In x l ->
  exists l0, In l0 lines /\ In x l0.
Proof.
  intros H Hl Hx.
  destruct (join_continuations_inv lines [] joined H (List.Forall_nil _))
    as (C & _ & _).
  simpl in C.
  assert (In x (concat joined)) as Hc
    by (apply in_concat; exists l; split; assumption).
  rewrite C in Hc. apply in_concat in Hc as (s & Hs & Hxs).
  apply in_map_iff in Hs as (l0 & <- & Hl0).
  exists l0. split; [assumption | now apply strip_in].
Qed.

Lemma group_name_shape (first : str) :
  let g := if contains "!" (strip first)
           then strip (before "!" (strip first)) else strip first in
  trimmed g = true /\ contains "!" g = false
  /\ forall x, In x g -> In x first.
Proof.
  destruct (contains "!" (strip first)) eqn:E; cbn zeta.
  - repeat split.
    + apply strip_is_trimmed.
    + apply strip_contains, before_contains.
    + intros x Hx. now apply strip_in, (before_in "!"), strip_in.
  - repeat split.
    + apply strip_is_trimmed.
    + assumption.
    + intros x. apply strip_in.
Qed.

Lemma parse_group_shape (block : str) (ps : list ParamNml) :
  contains "&" block = false -> parse_group block = Ok ps ->
  Forall parsed_record ps.
Proof.
  intros Hb. unfold parse_group.
  destruct (split NL block) as [|first group_lines] eqn:S; [discriminate|].
  pose proof (group_name_shape first) as G. cbn zeta in G.
  set (g := if contains "!" (strip first)
            then strip (before "!" (strip first)) else strip first) in *.
  destruct G as (G1 & G2 & G3).
  destruct (join_continuations group_lines []) as [joined|] eqn:J;
    simpl; [|discriminate].
  intros M. apply mapM_ok_inv in M.
  assert (forall t x, In t (split NL block) -> In x t ->
                      x <> "&"%char /\ x <> NL) as P.
  { intros t x Ht Hx. split; intros ->.
    - apply (split_in NL _ _ _ Ht) in Hx. apply contains_true in Hx.
      congruence.
    - apply (split_piece_free NL) in Ht. apply contains_true in Hx.
      congruence. }
  rewrite S in P.
  assert (forall l x, In l joined -> In x l -> x <> "&"%char /\ x <> NL) as Q.
  { intros l x Hl Hx.
    destruct (joined_in group_lines joined l x J Hl Hx) as (l0 & H0 & Hx0).
    apply (P l0); [now right | assumption]. }
  clear J S. induction M as [|l p joined ps Hp _ IH]; [constructor|].
  constructor; [|apply IH; intros l0 x H0; apply Q; now right].
  unfold parse_param in Hp.
  destruct (_parse_line l) as [[[n v] cm]|] eqn:L; [|discriminate].
  simpl in Hp. injection Hp as <-.
  destruct (parse_line_shape l n cm v L) as (N1 & N2 & N3 & N4 & C1 & C2).
  assert (forall x, In x l -> x <> "&"%char /\ x <> NL) as Ql
    by (intros x; apply Q; now left).
  unfold parsed_record. cbn [group name help]. repeat split.
  - assumption.
  - apply free_of_intro. intros c [<-|[<-|[<-|[]]]] H.
    + now destruct (P first "&"%char (or_introl eq_refl) (G3 _ H)).
    + apply contains_true in H. congruence.
    + now destruct (P first NL (or_introl eq_refl) (G3 _ H)).
  - assumption.
  - apply free_of_intro. intros c [<-|[<-|[<-|[<-|[]]]]] H.
    + now destruct (Ql "&"%char (N4 _ H)).
    + apply contains_true in H. congruence.
    + apply contains_true in H. congruence.
    + now destruct (Ql NL (N4 _ H)).
  - exists cm. repeat split; [assumption|].
    apply free_of_intro. intros c [<-|[<-|[]]] H.
    + now destruct (Ql "&"%char (C2 _ H)).
    + now destruct (Ql NL (C2 _ H)).
Qed.

End ParsedRecords.

(** X15. Every record [parse_nml] returns has a trimmed group name
    without [&], [!] and line break, a trimmed parameter name without
    [&], [!], [=] and line break, and a comment: the comment is never
    [None]; it is the empty text when the line has none. *)
Theorem parse_nml_records (ic : bool) (string : str) (pars : list ParamNml) :
  parse_nml_with ic string = Ok pars -> Forall parsed_record pars.
Proof.
  unfold parse_nml_with.
  set (text := join [NL] (filtered_lines ic string)).
  pose proof (findall_free text) as F. revert F.
  generalize (findall_group_re text). intros blocks F.
  destruct (mapM parse_group blocks) as [groups|] eqn:M; simpl;
    [|discriminate].
  intros [= <-]. apply mapM_ok_inv in M.
  induction M as [|b ps blocks groups Hb _ IH]; [constructor|].
  simpl. apply Forall_app. split.
  - apply (parse_group_shape b); [apply F; now left | assumption].
  - apply IH. intros g Hg. apply F. now right.
Qed.

Lemma parse_nml_records_witness :
  Forall parsed_record
    [mkParamNml (lit "g") (lit "a") (VInt 1) (Some (lit "one"));
     mkParamNml (lit "g") (lit "b") (VBool true) (Some [])].
Proof.
  apply (parse_nml_records false
           (lit "&g ! first" ++ NL :: lit "  a = 1 ! one" ++ NL ::
            lit "  b = T" ++ NL :: lit "/")).
  vm_compute. reflexivity.
Defined.

(** ** When the formatter and [dumps] return a text *)

Section Writable.

Lemma format_nml_groups_ok (pars : list ParamNml) :
  Forall (fun p => group p <> []) pars ->
  format_nml pars
  = Ok (join [NL]
          (flat_map (fun g => block_lines (fst g) (snd g))
             (groupby group pars)) ++ [NL]).
Proof.
  intros F. unfold format_nml. rewrite format_groups_ok; [reflexivity|].
  pose proof (groupby_runs group pars) as R.
  rewrite List.Forall_forall in *. intros r Hr.
  destruct (R r Hr) as (_ & p & Hp & <-). now apply F.
Qed.

Lemma format_nml_group_err (pars : list ParamNml) (p : ParamNml) :
  In p pars -> group p = [] -> format_nml pars = Err GroupNotDefined.
Proof.
  intros Hp Hg. unfold format_nml.
  rewrite format_groups_empty_name; [reflexivity|].
  rewrite <- Hg. now apply groupby_keys.
Qed.

Lemma empty_group_dec (pars : list ParamNml) :
  Forall (fun p => group p <> []) pars
  \/ exists p, In p pars /\ group p = [].
Proof.
  induction pars as [|p pars [IH|(q & Hq & E)]].
  - left. constructor.
  - destruct (group p) eqn:E.
    + right. exists p. split; [now left | assumption].
    + left. constructor; [congruence | assumption].
  - right. exists q. split; [now right | assumption].
Qed.

Lemma writable_key_split (sep : ascii) (k : str) :
  writable_key sep k = true <->
  exists g n, split sep k = [g; n] /\ g <> [].
Proof.
  unfold writable_key. rewrite andb_true_iff, negb_true_iff, Nat.eqb_eq.
  split.
  - intros [C S]. exists (before sep k), (after sep k).
    split; [now apply split_single|].
    destruct k as [|x k]; [discriminate|]. simpl in S.
    unfold before. cbn [take_while]. now rewrite S.
  - intros (g & n & E & G).
    pose proof (split_length_count sep k) as L. rewrite E in L.
    split; [simpl in L; lia|].
    destruct k as [|x k]; [reflexivity|]. simpl in *.
    destruct (Ascii.eqb sep x); [|reflexivity].
    injection E as <- _. congruence.
Qed.

(** The outcome of [Namelist.dumps], up to the text, is decided by the
    keys. *)
Lemma dumps_param_keys (sep : ascii) (d1 d2 : odict value) :
  keys d1 = keys d2 ->
  match mapM (dumps_param sep) d1 with
  | Ok ps1 => exists ps2, mapM (dumps_param sep) d2 = Ok ps2
                          /\ map group ps1 = map group ps2
  | Err e => mapM (dumps_param sep) d2 = Err e
  end.
Proof.
  revert d2; induction d1 as [|[k v] d1 IH]; intros [|[k2 v2] d2];
    try discriminate.
  - intros _. now exists [].
  - simpl. intros [= <- E]. specialize (IH d2 E).
    set (m1 := mapM (dumps_param sep) d1) in *.
    set (m2 := mapM (dumps_param sep) d2) in *.
    unfold dumps_param. cbn [fst snd].
    destruct (split sep k) as [|g [|n [|x parts]]]; try reflexivity.
    cbn [bind].
    destruct m1 as [ps1|e].
    + destruct IH as (ps2 & -> & G). simpl. eexists. split; [reflexivity|].
      simpl. now rewrite G.
    + rewrite IH. reflexivity.
Qed.

Lemma format_nml_err_groups (ps1 ps2 : list ParamNml) (e : exn) :
  map group ps1 = map group ps2 ->
  format_nml ps1 = Err e -> format_nml ps2 = Err e.
Proof.
  intros G H. destruct (empty_group_dec ps1) as [F|(p & Hp & E)].
  - rewrite format_nml_groups_ok in H by assumption. discriminate.
  - rewrite (format_nml_group_err ps1 p Hp E) in H. injection H as <-.
    assert (In [] (map group ps2)) as H2
      by (rewrite <- G, <- E; now apply in_map).
    apply in_map_iff in H2 as (q & Eq & Hq).
    now apply (format_nml_group_err ps2 q).
Qed.

Lemma dumps_err_keys (sep : ascii) (d1 d2 : odict value) (e : exn) :
  keys d1 = keys d2 -> dumps sep d1 = Err e -> dumps sep d2 = Err e.
Proof.
  intros K. unfold dumps. pose proof (dumps_param_keys sep d1 d2 K) as M.
  destruct (mapM (dumps_param sep) d1) as [ps1|e1].
  - destruct M as (ps2 & -> & G). simpl. now apply format_nml_err_groups.
  - rewrite M. simpl. auto.
Qed.

Lemma dumps_ok_writable (sep : ascii) (params : odict value) (text : str) :
  dumps sep params = Ok text ->
  Forall (fun k => writable_key sep k = true) (keys params).
Proof.
  unfold dumps. intros H.
  destruct (mapM (dumps_param sep) params) as [ps|] eqn:M;
    [|discriminate]. simpl in H.
  assert (Forall (fun p => group p <> []) ps) as G.
  { destruct (empty_group_dec ps) as [F|(p & Hp & E)]; [assumption|].
    rewrite (format_nml_group_err ps p Hp E) in H. discriminate. }
  apply mapM_ok_inv in M. clear H.
  induction M as [|[k v] p params ps Hp _ IH]; [constructor|].
  inversion G as [|? ? Gp Gs]; subst. constructor; [|now apply IH].
  apply dumps_param_ok in Hp as (S & _). cbn [fst].
  apply writable_key_split. eauto.
Qed.

Lemma dumps_writable_ok (sep : ascii) (params : odict value) :
  Forall (fun k => writable_key sep k = true) (keys params) ->
  exists text, dumps sep params = Ok text.
Proof.
  unfold dumps. intros F.
  assert (Forall (fun kv => count sep (fst kv) = 1) params
          /\ Forall (fun p => group p <> []) (map (record_of sep) params))
    as [C G].
  { induction params as [|[k v] params IH]; [split; constructor|].
    inversion F as [|? ? Hk Hs]; subst. destruct (IH Hs) as [C G].
    apply writable_key_split in Hk as (g & n & S & Hg).
    pose proof (split_length_count sep k) as L. rewrite S in L.
    simpl in L. injection L as L.
    split; constructor; try assumption; cbn [fst]; [congruence|].
    unfold record_of. cbn [group fst].
    rewrite (split_single sep k) in S by congruence.
    injection S as -> _. assumption. }
  rewrite (mapM_dumps_param sep params C). simpl.
  rewrite format_nml_groups_ok by assumption. eauto.
Qed.

End Writable.

(** X16. The formatter raises exactly when some record has the empty
    group name, and then it is the group-not-defined error, whatever
    the values are; otherwise it returns the [&GROUP ... /] blocks of
    the runs of records of one group, every line followed by a line
    break. *)
Theorem format_nml_outcome (pars : list ParamNml) :
  (Forall (fun p => group p <> []) pars ->
   format_nml pars
   = Ok (join [NL]
           (flat_map (fun g => block_lines (fst g) (snd g))
              (groupby group pars)) ++ [NL]))
  /\ (~ Forall (fun p => group p <> []) pars ->
      format_nml pars = Err GroupNotDefined).
Proof.
  split; [apply format_nml_groups_ok|].
  intros N. destruct (empty_group_dec pars) as [F|(p & Hp & E)];
    [contradiction|].
  now apply (format_nml_group_err pars p).
Qed.

Lemma format_nml_outcome_witness :
  format_nml [mkParamNml (lit "g") (lit "a") (VInt 1) (Some (lit "one"));
              mkParamNml [] (lit "b") (VInt 2) None]
  = Err GroupNotDefined.
Proof.
  apply (proj2 (format_nml_outcome _)).
  intros F. inversion F as [|? ? _ F']. inversion F' as [|? ? G _].
  now apply G.
Defined.

(** X17. [Namelist.dumps] returns a text exactly when every key holds
    the separator once, after a group segment that is not empty; the
    values play no part in it. *)
Theorem dumps_returns_iff (sep : ascii) (params : odict value) :
  (exists text, dumps sep params = Ok text) <->
  Forall (fun k => writable_key sep k = true) (keys params).
Proof.
  split.
  - intros (text & H). now apply (dumps_ok_writable sep params text).
  - apply dumps_writable_ok.
Qed.

Lemma dumps_returns_iff_witness :
  exists text,
    dumps "." [(lit "g.a", VInt 1); (lit "h.b", VList [])] = Ok text.
Proof.
  apply (proj2 (dumps_returns_iff "." _)). repeat constructor.
Defined.

(** ** The file helpers: what is written, and what is left *)

Section WrittenFiles.

Lemma updated_keys (par new : odict value) :
  keys (nml_update_if_exists par new) = keys par.
Proof.
  unfold nml_update_if_exists. revert par.
  induction new as [|kv new IH]; intros par; [reflexivity|].
  simpl. rewrite IH. apply update_step_keys.
Qed.

Lemma param_write_to_file_eq (params : odict value) (src dst : str)
  (fs : files) :
  param_write_to_file params src dst fs =
  match fst (load src fs) with
  | Err e => (Err e, fs)
  | Ok d =>
      match dumps "." (nml_update_if_exists d params) with
      | Ok text => (Ok tt, <[dst := text]> fs)
      | Err e => (Err e, <[dst := []]> fs)
      end
  end.
Proof.
  unfold param_write_to_file, io_bind at 1.
  pose proof (load_fs src fs) as L.
  destruct (load src fs) as [[d|e] fs1]; simpl in L; subst fs1;
    [|reflexivity].
  cbn [fst]. unfold io_bind, open_w, dump, io_bind, io_lift, write_file.
  destruct (dumps "." (nml_update_if_exists d params)); [|reflexivity].
  now rewrite insert_insert_eq.
Qed.

Lemma param_write_to_file_other (params : odict value) (src dst p : str)
  (fs : files) :
  p <> dst -> snd (param_write_to_file params src dst fs) !! p = fs !! p.
Proof.
  intros N. rewrite param_write_to_file_eq.
  destruct (fst (load src fs)) as [d|e]; [|reflexivity].
  destruct (dumps "." _); simpl; now rewrite lookup_insert_ne.
Qed.

Lemma zip_snd {A B} (a : list A) (b : list B) :
  map snd (zip a b) = firstn (List.length a) b.
Proof.
  revert b; induction a as [|x a IH]; intros [|y b]; simpl;
    try reflexivity.
  now rewrite IH.
Qed.

Lemma write_all_other (params : odict value) (l : list (str * str))
  (p : str) (fs : files) :
  ~ In p (map snd l) ->
  snd (io_mapM (fun sd => param_write_to_file params (fst sd) (snd sd)) l fs)
    !! p = fs !! p.
Proof.
  revert fs; induction l as [|[s d] l IH]; intros fs N; [reflexivity|].
  simpl in N. cbn [io_mapM]. unfold io_bind at 1. cbn [fst snd].
  pose proof (param_write_to_file_other params s d p fs) as W.
  destruct (param_write_to_file params s d fs) as [[u|e] fs1];
    simpl in W.
  - unfold io_bind, io_ret. specialize (IH fs1).
    destruct (io_mapM _ l fs1) as [[us|e] fs2]; simpl in *;
      (rewrite IH, W; [reflexivity | | ]; intuition congruence).
  - simpl. apply W. intuition congruence.
Qed.

End WrittenFiles.

(** X18. The ways [param_write_to_file] fails. When the source cannot
    be loaded the exception is passed on and no file is touched. When
    the source is loaded but its own keys are not writable, so that
    [dumps] raises on them, the write raises the same exception for
    any [params], and the destination, opened for writing before the
    text is made, is left empty; the destination may be the source
    itself. *)
Theorem param_write_to_file_failure (params : odict value) (src dst : str)
  (fs : files) :
  (forall e, fst (load src fs) = Err e ->
     param_write_to_file params src dst fs = (Err e, fs))
  /\ (forall d e, fst (load src fs) = Ok d -> dumps "." d = Err e ->
        param_write_to_file params src dst fs
        = (Err e, <[dst := []]> fs)).
Proof.
  split.
  - intros e L. now rewrite param_write_to_file_eq, L.
  - intros d e L D. rewrite param_write_to_file_eq, L.
    rewrite (dumps_err_keys "." d (nml_update_if_exists d params) e);
      [reflexivity | | assumption].
    symmetry. apply updated_keys.
Qed.

Lemma param_write_to_file_failure_witness :
  let text := lit "&g" ++ NL :: lit " a.b = 1" ++ NL :: lit "/" in
  param_write_to_file [(lit "g.a.b", VInt 2)] (lit "in.nml") (lit "in.nml")
    {[ lit "in.nml" := text ]}
  = (Err (UnpackError 2 3), <[lit "in.nml" := []]> {[ lit "in.nml" := text ]}).
Proof.
  intros text.
  apply (proj2 (param_write_to_file_failure [(lit "g.a.b", VInt 2)]
                  (lit "in.nml") (lit "in.nml") {[ lit "in.nml" := text ]})
           [(lit "g.a.b", VInt 1)]).
  - vm_compute. reflexivity.
  - vm_compute. reflexivity.
Defined.

(** X19. [param_write_to_file] touches no file but its destination,
    whether it returns or raises. *)
Theorem param_write_to_file_frame (params : odict value) (src dst p : str)
  (fs : files) :
  p <> dst -> snd (param_write_to_file params src dst fs) !! p = fs !! p.
Proof.
  intros N. rewrite param_write_to_file_eq.
  destruct (fst (load src fs)) as [d|e]; [|reflexivity].
  destruct (dumps "." (nml_update_if_exists d params)) as [text|e]; simpl;
    now rewrite lookup_insert_ne.
Qed.

Lemma param_write_to_file_frame_witness :
  let fs : files :=
    {[ lit "in.nml" := lit "&g" ++ NL :: lit " a = 1" ++ NL :: lit "/" ]} in
  snd (param_write_to_file [(lit "g.a", VInt 2)] (lit "in.nml")
         (lit "out.nml") fs) !! lit "in.nml"
  = fs !! lit "in.nml".
Proof.
  intros fs.
  apply (param_write_to_file_frame [(lit "g.a", VInt 2)] (lit "in.nml")
           (lit "out.nml") (lit "in.nml") fs).
  discriminate.
Defined.

(** X20. [param_write_to_files] pairs sources and destinations with
    [zip]: a path that is not among the first destinations, as many as
    there are sources, is never touched, whether the call returns or
    raises; destinations beyond the number of sources are ignored
    without an error. *)
Theorem param_write_to_files_frame (params : odict value)
  (nml_src_paths nml_dst_paths : list str)
  (grp_aliases : option (gmap str str)) (p : str) (fs : files) :
  ~ In p (firstn (List.length nml_src_paths) nml_dst_paths) ->
  snd (param_write_to_files params nml_src_paths nml_dst_paths
         grp_aliases fs) !! p
  = fs !! p.
Proof.
  intros N. unfold param_write_to_files, io_bind at 1.
  pose proof (param_check_all_fs (expand_aliases params grp_aliases)
                nml_src_paths fs) as C.
  destruct (param_check_all _ nml_src_paths fs) as [[u|e] fs1];
    simpl in C; subst fs1; [|reflexivity].
  unfold io_bind, io_ret.
  pose proof (write_all_other (expand_aliases params grp_aliases)
                (zip nml_src_paths nml_dst_paths) p fs) as W.
  rewrite zip_snd in W. specialize (W N).
  destruct (io_mapM _ (zip nml_src_paths nml_dst_paths) fs)
    as [[us|e] fs2]; exact W.
Qed.

Lemma param_write_to_files_frame_witness :
  let fs : files :=
    {[ lit "in.nml" := lit "&g" ++ NL :: lit " a = 1" ++ NL :: lit "/" ]} in
  snd (param_write_to_files [(lit "g.a", VInt 2)] [lit "in.nml"]
         [lit "out.nml"; lit "more.nml"] None fs) !! lit "more.nml"
  = fs !! lit "more.nml".
Proof.
  intros fs.
  apply (param_write_to_files_frame [(lit "g.a", VInt 2)] [lit "in.nml"]
           [lit "out.nml"; lit "more.nml"] None (lit "more.nml") fs).
  intros [H|[]]. discriminate H.
Defined.

(** X21. [param_check_all] passes exactly when every source file is
    read and parsed and every requested key is a key of at least one of
    them; it reads only. *)
Theorem param_check_all_passes (params : odict value) (par_paths : list str)
  (fs : files) :
  param_check_all params par_paths fs = (Ok tt, fs) <->
  exists loaded,
    io_mapM load par_paths fs = (Ok loaded, fs)
    /\ forall k, In k (keys params) ->
                 exists d, In d loaded /\ In k (keys d).
Proof.
  unfold param_check_all, io_bind.
  pose proof (io_mapM_load_fs par_paths fs) as L.
  destruct (io_mapM load par_paths fs) as [[loaded|e] fs1];
    simpl in L; subst fs1.
  - fold (missing_from params loaded).
    destruct (0 <? size (missing_from params loaded))%nat eqn:S.
    + split; [discriminate|]. intros (loaded' & [= <-] & H).
      apply Nat.ltb_lt in S.
      destruct (size_pos_elem_of (missing_from params loaded) S) as [k Hk].
      apply elem_of_missing_from in Hk as [Hk N].
      destruct (H k Hk) as (d & Hd & Hkd). destruct (N d Hd Hkd).
    + split; [|reflexivity]. intros _. exists loaded.
      split; [reflexivity|]. intros k Hk.
      apply Nat.ltb_ge in S.
      assert (missing_from params loaded = ∅) as E.
      { apply leibniz_equiv, size_empty_inv. lia. }
      assert (k ∈ (list_to_set (concat (map keys loaded)) : gset str)) as M.
      { destruct (decide (k ∈ (list_to_set (concat (map keys loaded))
                                : gset str))) as [Y|N]; [assumption|].
        assert (k ∈ missing_from params loaded) as Hm.
        { unfold missing_from. apply elem_of_difference. split; [|assumption].
          now apply elem_of_list_to_set, list_elem_of_In. }
        rewrite E in Hm. now apply not_elem_of_empty in Hm. }
      apply elem_of_list_to_set, list_elem_of_In, in_concat in M
        as (ks & Hks & Hk').
      apply in_map_iff in Hks as (d & <- & Hd). eauto.
  - split; [discriminate|]. intros (loaded & H & _). discriminate.
Qed.

Lemma param_check_all_passes_witness :
  let fs : files :=
    {[ lit "in.nml" := lit "&g" ++ NL :: lit " a = 1" ++ NL :: lit "/" ]} in
  param_check_all [(lit "g.a", VInt 5)] [lit "in.nml"] fs = (Ok tt, fs).
Proof.
  intros fs.
  apply (proj2 (param_check_all_passes [(lit "g.a", VInt 5)]
                  [lit "in.nml"] fs)).
  exists [[(lit "g.a", VInt 1)]]. split.
  - vm_compute. reflexivity.
  - intros k [<-|[]]. exists [(lit "g.a", VInt 1)]. simpl. auto.
Defined.

(** ** Comments: from the formatter to the line parser *)

Section CommentRoundTrip.

Lemma format_param_help (g n h : str) (v : value) :
  h <> [] ->
  format_param (mkParamNml g n v (Some h))
  = format_param (mkParamNml g n v None) ++ lit " ! " ++ h.
Proof.
  destruct h as [|c h]; [congruence|]. intros _.
  unfold format_param. cbn [help name pvalue]. reflexivity.
Qed.

(** The line of a good record without comment holds no [!]. *)
Lemma formatted_line_bang (g n : str) (v : value) :
  good_name n = true -> good_value v = true ->
  contains "!" (format_param (mkParamNml g n v None)) = false.
Proof.
  intros Hn Hv.
  destruct (value_text_roundtrip v Hv) as [_ [_ _ Tc _]].
  unfold good_name in Hn. apply andb_true_iff in Hn as [_ Nc].
  rewrite (format_param_text (mkParamNml g n v None) eq_refl).
  cbn [name pvalue].
  destruct (line_shape n (value_text v)) as (sp1 & sp2 & S1 & S2 & ->).
  rewrite contains_app, !contains_cons, !contains_app.
  rewrite (safe_absent "!" n eq_refl Nc).
  rewrite (safe_absent "!" (value_text v) eq_refl Tc).
  now rewrite (blanks_absent "!" sp1 eq_refl S1),
    (blanks_absent "!" sp2 eq_refl S2).
Qed.

End CommentRoundTrip.

(** X22. A comment survives the way from the formatter to the line
    parser: the line [format_nml] writes for a record with a good name,
    a good value and a trimmed comment that is not empty is parsed by
    [_parse_line] to that name, value and comment, whatever characters
    the comment holds. *)
Theorem parse_line_format_param (g n h : str) (v : value) :
  good_name n = true -> good_value v = true ->
  h <> [] -> trimmed h = true ->
  _parse_line (format_param (mkParamNml g n v (Some h))) = Ok (n, v, h).
Proof.
  intros Hn Hv Hne Ht. rewrite (format_param_help g n h v Hne).
  pose proof (formatted_line_bang g n v Hn Hv) as HB.
  destruct (formatted_line g n v Hn Hv) as (_ & _ & _ & _ & FL).
  cbn zeta in FL. set (L := format_param (mkParamNml g n v None)) in *.
  assert (L ++ lit " ! " ++ h = (L ++ [" "%char]) ++ "!" :: " " :: h) as ->
    by (now rewrite <- app_assoc).
  assert (contains "!" (L ++ [" "%char]) = false) as HB'
    by (now rewrite contains_app, HB).
  set (line := (L ++ [" "%char]) ++ "!" :: " " :: h).
  assert (contains "!" line = true) as C.
  { unfold line.
    now rewrite contains_app, contains_cons, Ascii.eqb_refl, orb_true_r. }
  assert (working_line line = working_line (strip L)) as W.
  { unfold working_line. rewrite C, (strip_contains _ _ HB).
    unfold line. rewrite (before_app _ _ _ HB').
    now rewrite (strip_pad_r [" "%char] L eq_refl). }
  assert (line_comment line = h) as LC.
  { unfold line_comment. rewrite C. unfold line.
    rewrite (after_app _ _ _ HB').
    change (" "%char :: h) with ([" "%char] ++ h).
    rewrite (strip_pad_l [" "%char] h eq_refl). now apply strip_trimmed. }
  rewrite _parse_line_split in FL. rewrite _parse_line_split, W, LC.
  destruct (split "=" (working_line (strip L))) as [|k [|w [|u parts]]];
    try discriminate FL.
  destruct (_parse_value (strip w)); simpl in *; [|discriminate FL].
  now injection FL as -> ->.
Qed.

Lemma parse_line_format_param_witness :
  _parse_line
    (format_param (mkParamNml (lit "g") (lit "a") (VInt 1)
                     (Some (lit "x = 2, see a/b!"))))
  = Ok (lit "a", VInt 1, lit "x = 2, see a/b!").
Proof.
  apply (parse_line_format_param (lit "g") (lit "a")
           (lit "x = 2, see a/b!") (VInt 1)); try reflexivity.
  discriminate.
Defined.

(** ** Writing a parameter file and reading it back *)

Section WriteThenRead.

Lemma odict_set_good (sep : ascii) (k : str) (v : value) (par : odict value) :
  Forall (good_item sep) par -> good_value v = true ->
  in_list k (keys par) = true ->
  Forall (good_item sep) (odict_set k v par).
Proof.
  intros F Hv. induction F as [|[k' v'] par Hkv F IH]; [discriminate|].
  cbn [keys map in_list existsb fst odict_set].
  destruct (PyStr.eqb k k') eqn:E.
  - intros _. apply eqb_eq in E. subst k'.
    constructor; [|assumption].
    destruct Hkv as (C & G & N & _). now repeat split.
  - cbn [orb]. intros H. constructor; [assumption | now apply IH].
Qed.

Lemma update_good (sep : ascii) (par new : odict value) :
  Forall (good_item sep) par ->
  Forall (fun kv => good_value (snd kv) = true) new ->
  Forall (good_item sep) (nml_update_if_exists par new).
Proof.
  intros Hp Hn. unfold nml_update_if_exists. revert par Hp.
  induction Hn as [|[k v] new Hv _ IH]; intros par Hp; [assumption|].
  cbn [fold_left fst snd]. apply IH.
  destruct (in_list k (keys par)) eqn:E; [|assumption].
  now apply odict_set_good.
Qed.

(** [loads] reads back what [dumps] writes of a mapping of good items
    without repeated keys. *)
Lemma loads_dumps_good (sep : ascii) (d : odict value) :
  List.NoDup (keys d) -> Forall (good_item sep) d ->
  exists text, dumps sep d = Ok text /\ loads sep text = Ok d.
Proof.
  intros Hk Hd.
  assert (Forall (fun kv => count sep (fst kv) = 1) d) as Hc.
  { eapply List.Forall_impl; [|exact Hd]. now intros kv [? _]. }
  assert (Forall good_record (map (record_of sep) d)) as Hr.
  { apply List.Forall_forall. intros p Hp.
    apply in_map_iff in Hp as (kv & <- & Hkv).
    rewrite List.Forall_forall in Hd. now apply good_item_record, Hd. }
  destruct (parse_nml_format _ Hr) as (text & F & P).
  exists text. unfold dumps, loads.
  rewrite (mapM_dumps_param sep d Hc). cbn [bind].
  split; [exact F|]. rewrite P. cbn [bind]. f_equal.
  rewrite !map_map. cbn [group name pvalue].
  assert (map (fun kv => (flat_key sep (record_of sep kv),
                          pvalue (record_of sep kv))) d = d) as E.
  { clear - Hc. induction Hc as [|kv d H _ IH]; [reflexivity|].
    cbn [map]. now rewrite (record_of_key sep kv H), IH. }
  rewrite (map_ext _ (fun kv => (flat_key sep (record_of sep kv),
                                 pvalue (record_of sep kv))))
    by reflexivity.
  rewrite E. now apply odict_of_list_fresh.
Qed.

Lemma load_nodup (path : str) (fs : files) (d : odict value) :
  fst (load path fs) = Ok d -> List.NoDup (keys d).
Proof.
  unfold load, io_bind, read_file, io_lift.
  destruct (fs !! path) as [text|]; [|discriminate]. cbn [fst].
  unfold loads. destruct (parse_nml text); simpl; [|discriminate].
  intros [= <-]. apply odict_of_list_nodup.
Qed.

Lemma load_written (path text : str) (fs : files) :
  load path (<[path := text]> fs) = (loads "." text, <[path := text]> fs).
Proof.
  unfold load, io_bind, read_file, io_lift. rewrite lookup_insert_eq.
  now destruct (loads "." text).
Qed.

End WriteThenRead.

(** X23. Writing and reading back. When the source file loads to a
    mapping of good items (keys of a good group name, one [.] and a
    good parameter name, values that survive the round trip) and the
    requested values are good as well, [param_write_to_file] returns,
    and loading the destination afterwards gives the mapping of the
    source updated by [nml_update_if_exists]: the keys of the source in
    their order, each with its requested value when there is one and
    its old value otherwise. *)
Theorem param_write_then_load (params : odict value) (src dst : str)
  (fs : files) (d : odict value) :
  fst (load src fs) = Ok d ->
  Forall (good_item ".") d ->
  Forall (fun kv => good_value (snd kv) = true) params ->
  exists fs',
    param_write_to_file params src dst fs = (Ok tt, fs')
    /\ load dst fs' = (Ok (nml_update_if_exists d params), fs').
Proof.
  intros L Hd Hp.
  destruct (loads_dumps_good "." (nml_update_if_exists d params))
    as (text & D & R).
  - rewrite updated_keys. now apply (load_nodup src fs).
  - now apply update_good.
  - exists (<[dst := text]> fs). split.
    + now rewrite param_write_to_file_eq, L, D.
    + now rewrite load_written, R.
Qed.

Lemma param_write_then_load_witness :
  let fs : files :=
    {[ lit "in.nml" :=
         lit "&g ! group" ++ NL :: lit " a = 1 ! first" ++ NL ::
         lit " b = 'x','y'" ++ NL :: lit "/" ]} in
  exists fs',
    param_write_to_file [(lit "g.b", VBool true); (lit "h.c", VInt 3)]
      (lit "in.nml") (lit "out.nml") fs = (Ok tt, fs')
    /\ load (lit "out.nml") fs'
       = (Ok [(lit "g.a", VInt 1); (lit "g.b", VBool true)], fs').
Proof.
  intros fs.
  apply (param_write_then_load
           [(lit "g.b", VBool true); (lit "h.c", VInt 3)]
           (lit "in.nml") (lit "out.nml") fs
           [(lit "g.a", VInt 1);
            (lit "g.b", VList [VStr (lit "x"); VStr (lit "y")])]).
  - vm_compute. reflexivity.
  - repeat constructor.
  - repeat constructor.
Defined.

(** ** The words of [str.split()] *)

Section Words.

Lemma split_ws_aux_concat (cur s : str) :
  concat (split_ws_aux cur s)
  = rev cur ++ List.filter (fun c => negb (is_space c)) s.
Proof.
  revert cur; induction s as [|x s IH]; intros cur.
  - simpl. destruct cur; simpl; now rewrite ?app_nil_r.
  - cbn [split_ws_aux List.filter]. destruct (is_space x); cbn [negb].
    + destruct cur as [|c cur]; [apply IH|].
      cbn [concat]. now rewrite IH.
    + rewrite IH. simpl. now rewrite <- app_assoc.
Qed.

Lemma split_ws_aux_words (cur s : str) :
  forallb (fun c => negb (is_space c)) cur = true ->
  Forall (fun a => a <> [] /\ forallb (fun c => negb (is_space c)) a = true)
    (split_ws_aux cur s).
Proof.
  assert (forall cur : str,
            cur <> [] -> forallb (fun c => negb (is_space c)) cur = true ->
            rev cur <> []
            /\ forallb (fun c => negb (is_space c)) (rev cur) = true) as R.
  { intros c N F. split.
    - intros E. apply N. rewrite <- (rev_involutive c), E. reflexivity.
    - now rewrite forallb_rev. }
  revert cur; induction s as [|x s IH]; intros cur F.
  - simpl. destruct cur as [|c cur]; [constructor|].
    constructor; [|constructor]. now apply R.
  - cbn [split_ws_aux]. destruct (is_space x) eqn:E.
    + destruct cur as [|c cur]; [now apply IH|].
      constructor; [now apply R | now apply IH].
    + apply IH. simpl. now rewrite E.
Qed.

Lemma split_ws_aux_one (cur s : str) :
  forallb (fun c => negb (is_space c)) s = true -> cur ++ s <> [] ->
  split_ws_aux cur s = [rev cur ++ s].
Proof.
  revert cur; induction s as [|x s IH]; intros cur F N.
  - rewrite app_nil_r in *. simpl. now destruct cur.
  - simpl in F. apply andb_true_iff in F as [Fx Fs].
    apply negb_true_iff in Fx. cbn [split_ws_aux]. rewrite Fx.
    rewrite IH; [|assumption|discriminate].
    simpl. now rewrite <- app_assoc.
Qed.

End Words.

(** ** Blanks inside a comma array *)

Section UntrimmedTokens.

Lemma py_int_blank (w : str) : py_int (" " :: w) = py_int w.
Proof. unfold py_int. now rewrite num_strip_blank. Qed.

Lemma py_float_blank (w : str) : py_float (" " :: w) = py_float w.
Proof. unfold py_float. now rewrite num_strip_blank. Qed.

(** A word with a blank in front that is no number is no value. *)
Lemma blank_word_rejected (w : str) :
  w <> [] -> forallb (fun c => negb (is_space c)) w = true ->
  contains "," w = false -> contains "*" w = false ->
  py_int w = None -> py_float w = None ->
  _parse_value (" " :: w) = Err (ParseValueError (" " :: w)).
Proof.
  intros Hn Hw Hc Hs Hi Hf.
  rewrite _parse_value_unfold. unfold parse_value_body.
  rewrite py_int_blank, Hi, py_float_blank, Hf.
  assert (is_true_word (" " :: w) = false) as -> by reflexivity.
  assert (is_false_word (" " :: w) = false) as -> by reflexivity.
  assert (is_quoted (" " :: w) = false) as -> by reflexivity.
  assert (is_slashed (" " :: w) = false) as -> by reflexivity.
  rewrite !contains_cons, Hc, Hs. cbn [Ascii.eqb orb].
  assert (split_ws (" " :: w) = [w]) as ->.
  { unfold split_ws. cbn [split_ws_aux is_space].
    change (is_space " ") with true. cbv iota.
    now rewrite (split_ws_aux_one [] w). }
  reflexivity.
Qed.

End UntrimmedTokens.

(** X24. The tokens of a comma array without [*] are handed to the
    value grammar as they stand between the commas, with their blanks.
    Let the last token be a blank and a word, the word without white
    space, [,] and [*], and the whole text neither quoted nor between
    slashes. When the word is no number, a quoted string or a boolean
    word included, the array is rejected: the exception is the one of an
    earlier token, or else the [ValueError] for the word with its blank.
    (A token with a [*] is another matter: its count goes through
    [int()] and its value is trimmed, so a blank in front of it does no
    harm.) *)
Theorem comma_array_untrimmed (a w : str) :
  w <> [] -> forallb (fun c => negb (is_space c)) w = true ->
  contains "," w = false -> contains "*" w = false ->
  py_int w = None -> py_float w = None ->
  is_quoted (a ++ "," :: " " :: w) = false ->
  is_slashed (a ++ "," :: " " :: w) = false ->
  _parse_value (a ++ "," :: " " :: w)
  = let* _ := _parse_array _parse_value (split "," a) in
    Err (ParseValueError (" " :: w)).
Proof.
  intros Hn Hw Hc Hs Hi Hf Hq Hsl.
  set (whole := a ++ "," :: " " :: w) in *.
  assert (In ","%char whole) as Hin
    by (apply in_app_iff; right; now left).
  destruct (not_scalar whole "," Hin eq_refl eq_refl eq_refl eq_refl)
    as (H1 & H2 & H3 & H4).
  rewrite (parse_value_comma whole) by
    (try assumption; now apply contains_true).
  unfold whole. rewrite split_app_sep.
  rewrite (split_none "," (" " :: w))
    by (now rewrite contains_cons, Hc).
  rewrite _parse_array_app.
  assert (_parse_array _parse_value [" "%char :: w]
          = Err (ParseValueError (" " :: w))) as ->.
  { cbn [_parse_array]. unfold parse_token.
    rewrite contains_cons, Hs. cbn [Ascii.eqb orb].
    now rewrite (blank_word_rejected w). }
  now destruct (_parse_array _parse_value (split "," a)).
Qed.

Lemma comma_array_untrimmed_witness :
  _parse_value (lit "'x', 'y'") = Err (ParseValueError (lit " 'y'"))
  /\ _parse_value (lit "'x','y'") = Ok (VList [VStr (lit "x"); VStr (lit "y")])
  /\ _parse_value (lit "'x', 2*'y'")
     = Ok (VList [VStr (lit "x"); VStr (lit "y"); VStr (lit "y")]).
Proof.
  split; [|split; vm_compute; reflexivity].
  apply (comma_array_untrimmed (lit "'x'") (lit "'y'"));
    try reflexivity.
  discriminate.
Defined.

(** * Properties of the model interface *)

(** ** The parameter file of a run *)

Section Setup.

Lemma setup_eq (filetype : FileType) (filename rundir : str)
  (params : odict value) (fs : files) :
  filename <> [] ->
  setup filetype (Some filename) rundir params fs =
  match ft_dumps filetype params with
  | Ok text => (Ok tt, <[os_path_join rundir filename := text]> fs)
  | Err e => (Err e, <[os_path_join rundir filename := []]> fs)
  end.
Proof.
  destruct filename as [|c f]; [congruence|]. intros _.
  unfold setup, io_bind, open_w, ft_dump, io_bind, io_lift, write_file.
  destruct (ft_dumps filetype params); [|reflexivity].
  now rewrite insert_insert_eq.
Qed.

End Setup.

(** X25. [ModelInterface.setup] with a namelist file type writes the
    parameter file of the run exactly when every parameter name is a
    group, the separator once and a name; for any other parameter name,
    one without group among them, it raises and leaves the parameter
    file empty, since the file is opened for writing before the text is
    made. *)
Theorem setup_namelist (sep : ascii) (filename rundir : str)
  (params : odict value) (fs : files) :
  filename <> [] ->
  let filepath := os_path_join rundir filename in
  (Forall (fun k => writable_key sep k = true) (keys params) ->
   exists text,
     dumps sep params = Ok text
     /\ setup (Namelist sep) (Some filename) rundir params fs
        = (Ok tt, <[filepath := text]> fs))
  /\ (~ Forall (fun k => writable_key sep k = true) (keys params) ->
      exists e,
        setup (Namelist sep) (Some filename) rundir params fs
        = (Err e, <[filepath := []]> fs)).
Proof.
  intros Hf filepath. rewrite (setup_eq _ _ _ _ _ Hf). cbn [Namelist ft_dumps].
  fold filepath. split.
  - intros W. apply dumps_writable_ok in W as (text & ->). eauto.
  - intros N. destruct (dumps sep params) as [text|e] eqn:D; [|eauto].
    destruct N. now apply (dumps_ok_writable sep params text).
Qed.

Lemma setup_namelist_witness :
  exists e,
    setup (Namelist ".") (Some (lit "params.nml")) (lit "out/run1")
      [(lit "g.a", VInt 1); (lit "b", VInt 2)] ∅
    = (Err e, {[ lit "out/run1/params.nml" := [] ]}).
Proof.
  destruct (setup_namelist "." (lit "params.nml") (lit "out/run1")
              [(lit "g.a", VInt 1); (lit "b", VInt 2)] ∅) as [_ B];
    [discriminate|].
  destruct B as [e E].
  - intros F. inversion F as [|? ? _ F']. inversion F' as [|? ? G _].
    discriminate G.
  - exists e. exact E.
Defined.

(** ** The command line *)

(** X26. The arguments [ModelInterface._command_out] makes of the run
    directory are the words of the prefix followed by the directory:
    none is empty or holds white space, together they hold every other
    character in order, and a prefix and directory without white space
    give one argument. A directory with a blank in its name is
    therefore passed in pieces. *)
Theorem command_out_words (prefix rundir : str) :
  let args := _command_out (Some prefix) rundir in
  Forall (fun a => a <> [] /\ forallb (fun c => negb (is_space c)) a = true)
    args
  /\ concat args
     = List.filter (fun c => negb (is_space c)) (prefix ++ rundir)
  /\ (forallb (fun c => negb (is_space c)) (prefix ++ rundir) = true ->
      prefix ++ rundir <> [] -> args = [prefix ++ rundir]).
Proof.
  cbn zeta. unfold _command_out, split_ws. repeat split.
  - now apply split_ws_aux_words.
  - apply split_ws_aux_concat.
  - intros F N. now apply (split_ws_aux_one [] (prefix ++ rundir)).
Qed.

Lemma command_out_words_witness :
  _command_out (Some (lit "--out=")) (lit "out/run1")
  = [lit "--out=out/run1"].
Proof.
  apply (command_out_words (lit "--out=") (lit "out/run1")).
  - reflexivity.
  - discriminate.
Defined.
